(** * zengrad: the scalar reverse-mode autodiff engine of [core/value.py]

    A shallow embedding of the class [Value] and of its [backward] method,
    of [trace] of [core/visualization.py], and of the classes [Neuron],
    [Layer] and [MLP] that build networks of [Value]s.

    - A Python [float] is an IEEE-754 binary64 number: Rocq's primitive
      [float], whose [+], [*], [-], [/] are the same operations.  Integer
      literals of the source ([-1], [2]) meet floats only and are written as
      the float Python converts them to.
    - Objects live in a store; the identity of an object is its position in
      the store, in allocation order.  Every attribute access of the source
      goes through that identity, so aliasing ([a * a]) is what it is in
      Python.
    - A method is a computation in a monad of store and exceptions: it gets
      the store, returns the store it leaves and either a value or the
      exception it raised.
    - What the interpreter and the C library decide, and the repository does
      not, is a parameter ([PyRuntime]): the order in which a [set] of objects
      is iterated, and libm's [pow] and [exp].  The numbers [random] gives
      a network are a parameter of the network classes.

    The definitions come first: the interpreter, the data model, the methods
    of [Value], the graphs and programs the statements speak of, the
    scenarios, [trace], the networks.  The theorems follow; the doc comment
    of a theorem that settles a property of the specification starts with
    the property's number (C1 to C10), that of a further property of the
    code with its own (X1 to X22). *)

From Stdlib Require Import List Arith ZArith Lia Bool.
From Stdlib Require String ListSet.
From Stdlib Require Import Floats.
Import ListNotations.
Local Open Scope list_scope.

Set Implicit Arguments.

(** ** The interpreter: exceptions, floats, sets *)

(** What ends a computation here.  The first four are exceptions of
    Python.  [ComplexResult] is none: for a negative base and an exponent
    that is no integer Python raises nothing, its power is a complex number
    and the program goes on with it.  This development follows floats only
    and ends there; the statements about powers leave that case out. *)
Inductive exn : Type :=
| AssertionError
| ZeroDivisionError
| OverflowError
| RecursionError
| ComplexResult.   (* [x ** y] left the floats: Python answers a [complex] *)

Inductive result (A : Type) : Type :=
| Ok (a : A)
| Raise (e : exn).
Arguments Ok {A} a.
Arguments Raise {A} e.

Record PyRuntime : Type := {
  (* whether the [set] held by the object with this identity is iterated in
     the reverse of its insertion order (objects hash by address) *)
  iter_swap : nat -> bool;
  (* C's [pow] on a finite positive base other than 1 and a finite non-zero
     exponent *)
  libm_pow : float -> float -> float;
  (* C's [exp] *)
  libm_exp : float -> float
}.

Module PyFloat.

Local Open Scope float_scope.

(** The integer a finite float is, when it is one. *)
Definition to_integer (x : float) : option Z :=
  match Prim2SF x with
  | S754_zero _ => Some 0%Z
  | S754_finite s m e =>
      if (0 <=? e)%Z then Some (cond_Zopp s (Zpos m * 2 ^ e))
      else if (Zpos m mod 2 ^ (- e) =? 0)%Z
           then Some (cond_Zopp s (Zpos m / 2 ^ (- e)))
           else None
  | _ => None
  end.

Definition is_odd_integer (x : float) : bool :=
  match to_integer x with Some n => Z.odd n | None => false end.

Definition is_integer (x : float) : bool :=
  match to_integer x with Some _ => true | None => false end.

(** [iv ** iw] on floats, the interpreter's [float_pow]: the special cases
    are settled before the C library is asked.  [Raise ComplexResult] is
    where [float_pow] hands over to the complex power and returns its
    result: no exception, and no float. *)
Definition pow (rt : PyRuntime) (iv iw : float) : result float :=
  if iw =? 0 then Ok 1
  else if is_nan iv then Ok iv
  else if is_nan iw then Ok (if iv =? 1 then 1 else iw)
  else if is_infinity iw then
    let av := abs iv in
    if av =? 1 then Ok 1
    else if Bool.eqb (0 <? iw) (1 <? av) then Ok (abs iw)
    else Ok 0
  else if is_infinity iv then
    let odd := is_odd_integer iw in
    if 0 <? iw then Ok (if odd then iv else abs iv)
    else Ok (if odd then (if get_sign iv then -0 else 0) else 0)
  else if iv =? 0 then
    if iw <? 0 then Raise ZeroDivisionError
    else Ok (if is_odd_integer iw then iv else 0)
  else if (iv <? 0) && negb (is_integer iw) then Raise ComplexResult
  else
    let negate_result := (iv <? 0) && is_odd_integer iw in
    let av := abs iv in
    if av =? 1 then Ok (if negate_result then -1 else 1)
    else
      let ix := libm_pow rt av iw in
      if is_infinity ix then Raise OverflowError
      else Ok (if negate_result then - ix else ix).

(** [math.exp]: a finite argument whose exponential is not raises. *)
Definition math_exp (rt : PyRuntime) (x : float) : result float :=
  let r := libm_exp rt x in
  if is_infinity r && is_finite x then Raise OverflowError else Ok r.

(** [a / b] on floats. *)
Definition truediv (a b : float) : result float :=
  if b =? 0 then Raise ZeroDivisionError else Ok (a / b).

End PyFloat.

(** [set(children)]: the distinct elements, in one of the two orders a set of
    at most two objects can be iterated in. *)
Definition pyset (swap : bool) (children : list nat) : list nat :=
  let s := nodup Nat.eq_dec children in
  if swap then rev s else s.

(** ** The data model: [Value] objects in a store *)

Abbreviation ident := nat (only parsing).

(** The closure an operation stores in [_backward]: its code is fixed by the
    operation, its environment is the objects it captured ([self], [other],
    [out]) and, for [tanh], the float [t]; for [__pow__], [other] is the
    exponent. *)
Inductive closure : Type :=
| no_backward                                     (* lambda: None *)
| add_backward (self other out : ident)
| mul_backward (self other out : ident)
| pow_backward (self : ident) (other : float) (out : ident)
| tanh_backward (self : ident) (t : float) (out : ident)
| exp_backward (self out : ident).

(** [_op]: which operation made the object. *)
Inductive op_tag : Type :=
| op_leaf             (* '' *)
| op_add              (* '+' *)
| op_mul              (* '*' *)
| op_pow (k : float)  (* f'**{other}' *)
| op_tanh             (* 'tanh' *)
| op_exp.             (* 'exp' *)

Record Value : Type := mkValue {
  data : float;
  grad : float;
  _backward : closure;
  _prev : list ident;     (* a set: no duplicates, in its iteration order *)
  _op : op_tag;
  label : String.string
}.

Definition heap : Type := list Value.

Definition data_of (h : heap) (v : ident) : float :=
  match nth_error h v with Some x => data x | None => 0%float end.

Definition grad_of (h : heap) (v : ident) : float :=
  match nth_error h v with Some x => grad x | None => 0%float end.

Definition prev_of (h : heap) (v : ident) : list ident :=
  match nth_error h v with Some x => _prev x | None => [] end.

Definition backward_of (h : heap) (v : ident) : closure :=
  match nth_error h v with Some x => _backward x | None => no_backward end.

Fixpoint update (v : ident) (f : Value -> Value) (h : heap) : heap :=
  match h, v with
  | [], _ => []
  | x :: h', O => f x :: h'
  | x :: h', S v' => x :: update v' f h'
  end.

Definition with_grad (g : float) (x : Value) : Value :=
  mkValue (data x) g (_backward x) (_prev x) (_op x) (label x).

Definition with_backward (c : closure) (x : Value) : Value :=
  mkValue (data x) (grad x) c (_prev x) (_op x) (label x).

Definition with_data (d : float) (x : Value) : Value :=
  mkValue d (grad x) (_backward x) (_prev x) (_op x) (label x).

(** [v.grad = g] *)
Definition set_grad (v : ident) (g : float) (h : heap) : heap :=
  update v (with_grad g) h.

(** [v.grad += d] *)
Definition add_grad (v : ident) (d : float) (h : heap) : heap :=
  set_grad v (grad_of h v + d)%float h.

(** ** The monad of store and exceptions *)

Definition M (A : Type) : Type := heap -> heap * result A.

Definition ret {A} (a : A) : M A := fun h => (h, Ok a).

Definition raise {A} (e : exn) : M A := fun h => (h, Raise e).

Definition bind {A B} (c : M A) (k : A -> M B) : M B :=
  fun h =>
    match c h with
    | (h', Ok a) => k a h'
    | (h', Raise e) => (h', Raise e)
    end.

Definition lift {A} (r : result A) : M A := fun h => (h, r).

Definition read {A} (f : heap -> A) : M A := fun h => (h, Ok (f h)).

Definition modify (f : heap -> heap) : M unit := fun h => (f h, Ok tt).

Declare Scope py_scope.
Delimit Scope py_scope with py.
Notation "x <- c ;; k" := (bind c (fun x => k))
  (at level 61, c at next level, right associativity) : py_scope.
Notation "c ;; k" := (bind c (fun _ => k))
  (at level 61, right associativity) : py_scope.
Local Open Scope py_scope.

(** What [other] may be bound to when a method is called: a plain number or
    a [Value] object. *)
Inductive pyobj : Type :=
| Num (x : float)
| Ref (v : ident).

Section Engine.

Variable rt : PyRuntime.

Local Open Scope float_scope.

(** [Value(data, _children, _op)]: a new object, [grad] 0.0, the no-op
    [_backward], the children as a set. *)
Definition Value_init (d : float) (children : list ident) (op : op_tag)
  : M ident :=
  fun h =>
    let v := length h in
    (h ++ [mkValue d 0 no_backward (pyset (iter_swap rt v) children) op
                String.EmptyString],
     Ok v).

(** [out._backward = _backward] *)
Definition set_backward (out : ident) (c : closure) : M unit :=
  modify (update out (with_backward c)).

(** [other if isinstance(other, Value) else Value(other)] *)
Definition as_Value (other : pyobj) : M ident :=
  match other with
  | Ref v => ret v
  | Num x => Value_init x [] op_leaf
  end.

Definition __add__ (self : ident) (other : pyobj) : M ident :=
  other <- as_Value other ;;
  a <- read (fun h => data_of h self) ;;
  b <- read (fun h => data_of h other) ;;
  out <- Value_init (a + b) [self; other] op_add ;;
  set_backward out (add_backward self other out) ;;
  ret out.

Definition __radd__ (self : ident) (other : pyobj) : M ident :=
  __add__ self other.

Definition __mul__ (self : ident) (other : pyobj) : M ident :=
  other <- as_Value other ;;
  a <- read (fun h => data_of h self) ;;
  b <- read (fun h => data_of h other) ;;
  out <- Value_init (a * b) [self; other] op_mul ;;
  set_backward out (mul_backward self other out) ;;
  ret out.

Definition __rmul__ (self : ident) (other : pyobj) : M ident :=
  __mul__ self other.

Definition __pow__ (self : ident) (other : pyobj) : M ident :=
  match other with
  | Ref _ => raise AssertionError
  | Num k =>
      a <- read (fun h => data_of h self) ;;
      d <- lift (PyFloat.pow rt a k) ;;
      out <- Value_init d [self] (op_pow k) ;;
      set_backward out (pow_backward self k out) ;;
      ret out
  end.

Definition __neg__ (self : ident) : M ident :=
  __mul__ self (Num (-1)).

(** [self + (-other)]: the minus is the number's own when [other] is one. *)
Definition __sub__ (self : ident) (other : pyobj) : M ident :=
  match other with
  | Num x => __add__ self (Num (- x))
  | Ref o => n <- __neg__ o ;; __add__ self (Ref n)
  end.

(** [other + (-self)], [other] a number: the sum falls back on
    [(-self).__radd__(other)]. *)
Definition __rsub__ (self : ident) (other : float) : M ident :=
  n <- __neg__ self ;; __radd__ n (Num other).

(** [self * other**-1] *)
Definition __truediv__ (self : ident) (other : pyobj) : M ident :=
  match other with
  | Num x => p <- lift (PyFloat.pow rt x (-1)) ;; __mul__ self (Num p)
  | Ref o => p <- __pow__ o (Num (-1)) ;; __mul__ self (Ref p)
  end.

(** [other * self**-1], [other] a number: the product falls back on
    [(self**-1).__rmul__(other)]. *)
Definition __rtruediv__ (self : ident) (other : float) : M ident :=
  p <- __pow__ self (Num (-1)) ;; __rmul__ p (Num other).

Definition tanh (self : ident) : M ident :=
  val <- read (fun h => data_of h self) ;;
  e1 <- lift (PyFloat.math_exp rt (2 * val)) ;;
  e2 <- lift (PyFloat.math_exp rt (2 * val)) ;;
  t <- lift (PyFloat.truediv (e1 - 1) (e2 + 1)) ;;
  out <- Value_init t [self] op_tanh ;;
  set_backward out (tanh_backward self t out) ;;
  ret out.

Definition exp (self : ident) : M ident :=
  x <- read (fun h => data_of h self) ;;
  e <- lift (PyFloat.math_exp rt x) ;;
  out <- Value_init e [self] op_exp ;;
  set_backward out (exp_backward self out) ;;
  ret out.

(** The infix operators with a number on the left: Python tries the
    number's method, which declines a [Value], and then the reflected
    method of the right operand. *)
Definition number_plus (c : float) (a : ident) : M ident := __radd__ a (Num c).
Definition number_times (c : float) (a : ident) : M ident := __rmul__ a (Num c).
Definition number_minus (c : float) (a : ident) : M ident := __rsub__ a c.
Definition number_over (c : float) (a : ident) : M ident := __rtruediv__ a c.

(** Calling a stored closure.  Each [x.grad += e] reads the store as the
    statements before it left it. *)
Definition call (c : closure) : M unit :=
  match c with
  | no_backward => ret tt
  | add_backward self other out =>
      modify (fun h => add_grad self (grad_of h out) h) ;;
      modify (fun h => add_grad other (grad_of h out) h)
  | mul_backward self other out =>
      modify (fun h => add_grad self (data_of h other * grad_of h out) h) ;;
      modify (fun h => add_grad other (data_of h self * grad_of h out) h)
  | pow_backward self other out =>
      a <- read (fun h => data_of h self) ;;
      p <- lift (PyFloat.pow rt a (other - 1)) ;;
      modify (fun h => add_grad self ((other * p) * grad_of h out) h)
  | tanh_backward self t out =>
      t2 <- lift (PyFloat.pow rt t 2) ;;
      modify (fun h => add_grad self ((1 - t2) * grad_of h out) h)
  | exp_backward self out =>
      modify (fun h => add_grad self (data_of h out * grad_of h out) h)
  end.

(** [build_topo(v)], with [visited] and [topo] of the enclosing call as
    state.  [depth] bounds the nesting of the recursion; [None] is a
    recursion deeper than that.  (The interpreter's own limit on the depth
    of recursion, a setting of the process, is not part of the model.) *)
Fixpoint build_topo (depth : nat) (h : heap) (v : ident)
    (st : list ident * list ident) : option (list ident * list ident) :=
  match depth with
  | O => None
  | S depth' =>
      let '(visited, topo) := st in
      if existsb (Nat.eqb v) visited then Some st
      else
        match
          fold_left
            (fun acc child =>
               match acc with
               | Some s => build_topo depth' h child s
               | None => None
               end)
            (prev_of h v) (Some (v :: visited, topo))
        with
        | Some (visited', topo') => Some (visited', topo' ++ [v])
        | None => None
        end
  end.

(** [for v in order: v._backward()] *)
Fixpoint replay (order : list ident) : M unit :=
  match order with
  | [] => ret tt
  | v :: rest =>
      c <- read (fun h => backward_of h v) ;;
      call c ;;
      replay rest
  end.

(** [self.backward()].  A traversal visits an object once, so it never
    nests deeper than there are objects, plus one. *)
Definition backward (self : ident) : M unit :=
  fun h =>
    match build_topo (S (length h)) h self ([], []) with
    | None => (h, Raise RecursionError)
    | Some (_, topo) =>
        (modify (set_grad self 1) ;; replay (rev topo)) h
    end.

(** The order [backward] replays, for statements about it. *)
Definition topo_order (h : heap) (self : ident) : list ident :=
  match build_topo (S (length h)) h self ([], []) with
  | Some (_, topo) => topo
  | None => []
  end.

End Engine.

(** ** Graphs: operands, reachability, orders

    An operation makes a new object out of objects that exist, so an operand
    is older than the object it is an operand of: the operand relation has no
    cycle.  The closure of an object captured its operands and the object
    itself. *)

(** The objects a closure adds to: [self], and [other] when it is one. *)
Definition closure_operands (c : closure) : list ident :=
  match c with
  | no_backward => []
  | add_backward self other _ => [self; other]
  | mul_backward self other _ => [self; other]
  | pow_backward self _ _ => [self]
  | tanh_backward self _ _ => [self]
  | exp_backward self _ => [self]
  end.

(** The object a closure reads [grad] from: [out]. *)
Definition closure_out (c : closure) : option ident :=
  match c with
  | no_backward => None
  | add_backward _ _ out => Some out
  | mul_backward _ _ out => Some out
  | pow_backward _ _ out => Some out
  | tanh_backward _ _ out => Some out
  | exp_backward _ out => Some out
  end.

(** The object [x] with identity [v] is as an operation leaves it: its
    operands are older, [_prev] is a set and holds the operands of its
    closure, whose [out] is the object itself. *)
Record wf_Value (v : ident) (x : Value) : Prop := {
  wf_older : forall c, In c (_prev x) -> c < v;
  wf_set : NoDup (_prev x);
  wf_operands : forall c, In c (closure_operands (_backward x)) -> In c (_prev x);
  wf_out : forall o, closure_out (_backward x) = Some o -> o = v
}.

Definition wf_heap (h : heap) : Prop :=
  forall v x, nth_error h v = Some x -> wf_Value v x.

(** [w] is [v] or an operand of [v], or an operand of one, and so on. *)
Inductive reachable (h : heap) : ident -> ident -> Prop :=
| reach_self v : reachable h v v
| reach_step v c w :
    In c (prev_of h v) -> reachable h c w -> reachable h v w.

(** Every operand of an element of the order stands before it. *)
Definition operands_first (h : heap) (order : list ident) : Prop :=
  forall l1 v l2, order = l1 ++ v :: l2 ->
  forall c, In c (prev_of h v) -> In c l1.

(** The loop [for child in v._prev: build_topo(child)]. *)
Definition visit_children (h : heap) (depth : nat) (children : list ident)
    (st : option (list ident * list ident)) :=
  fold_left
    (fun acc child =>
       match acc with
       | Some s => build_topo depth h child s
       | None => None
       end)
    children st.

(** What one call of [build_topo] does to [visited] and [topo]: both get
    the same new objects, [topo] at its end; the new ones are reachable
    from [v], none of them in [topo] before. *)
Definition grows (h : heap) (v : ident) (visited topo visited' topo' : list ident)
  : Prop :=
  exists new,
    topo' = topo ++ new /\
    (forall x, In x visited' <-> In x visited \/ In x new) /\
    (forall x, In x new -> x <= v /\ reachable h v x /\ ~ In x topo).

(** Below [b], the visited objects are the emitted ones: none is still in
    progress. *)
Definition agree (b : nat) (visited topo : list ident) : Prop :=
  forall x, x < b -> (In x visited <-> In x topo).

(** [h'] is [h] but for the [grad] fields. *)
Definition same_graph (h h' : heap) : Prop :=
  length h' = length h /\
  forall v, data_of h' v = data_of h v /\
            prev_of h' v = prev_of h v /\
            backward_of h' v = backward_of h v.

(** An order in which no object is an operand of itself or of an object
    replayed after it: when its closure is called, its [grad] is final. *)
Fixpoint consumers_first (h : heap) (order : list ident) : Prop :=
  match order with
  | [] => True
  | u :: rest =>
      (forall w, In w (u :: rest) ->
                 ~ In u (closure_operands (backward_of h w))) /\
      consumers_first h rest
  end.

(** The number an operand stands for. *)
Definition value_of (h : heap) (o : pyobj) : float :=
  match o with Num x => x | Ref v => data_of h v end.

(** ** Gradients: what a closure adds *)

Section Gradients.

Variable rt : PyRuntime.

Local Open Scope float_scope.

(** What a call of the closure [c] adds to [v.grad], one float for each
    [+=] that hits [v], in the order of the statements. *)
Definition contributions (h : heap) (c : closure) (v : ident) : list float :=
  match c with
  | no_backward => []
  | add_backward self other out =>
      (if Nat.eqb self v then [grad_of h out] else []) ++
      (if Nat.eqb other v then [grad_of h out] else [])
  | mul_backward self other out =>
      (if Nat.eqb self v then [data_of h other * grad_of h out] else []) ++
      (if Nat.eqb other v then [data_of h self * grad_of h out] else [])
  | pow_backward self other out =>
      match PyFloat.pow rt (data_of h self) (other - 1) with
      | Ok p => if Nat.eqb self v then [(other * p) * grad_of h out] else []
      | Raise _ => []
      end
  | tanh_backward self t out =>
      match PyFloat.pow rt t 2 with
      | Ok t2 => if Nat.eqb self v then [(1 - t2) * grad_of h out] else []
      | Raise _ => []
      end
  | exp_backward self out =>
      if Nat.eqb self v then [data_of h out * grad_of h out] else []
  end.

(** The powers a closure computes when called have a value. *)
Definition closure_defined (h : heap) (c : closure) : Prop :=
  match c with
  | pow_backward self other _ =>
      exists p, PyFloat.pow rt (data_of h self) (other - 1) = Ok p
  | tanh_backward _ t _ => exists t2, PyFloat.pow rt t 2 = Ok t2
  | _ => True
  end.

(** What a replay of [order] adds to [v.grad], call after call. *)
Definition replay_contributions (h : heap) (order : list ident) (v : ident)
  : list float :=
  flat_map (fun u => contributions h (backward_of h u) v) order.

(** The objects whose closures [backward] calls have defined powers. *)
Definition closures_defined (h : heap) (t : ident) : Prop :=
  forall u, reachable h t u -> closure_defined h (backward_of h u).

End Gradients.

(** ** Clients: the actions of a program *)

Section Clients.

Variable rt : PyRuntime.

Local Open Scope float_scope.

(** The object [Value(d, children, op)] allocated with identity [v], with
    the closure the operation then stores in it. *)
Definition fresh (v : ident) (d : float) (children : list ident)
    (op : op_tag) (c : closure) : Value :=
  mkValue d 0 c (pyset (iter_swap rt v) children) op String.EmptyString.

(** What a client does to the store: it makes a leaf, calls an operation
    on objects it holds, runs [backward], or assigns [data] or [grad]. *)
Inductive action : Type :=
| new_leaf (d : float)
| do_add (self : ident) (other : pyobj)
| do_mul (self : ident) (other : pyobj)
| do_pow (self : ident) (other : pyobj)
| do_neg (self : ident)
| do_sub (self : ident) (other : pyobj)
| do_rsub (self : ident) (other : float)
| do_truediv (self : ident) (other : pyobj)
| do_rtruediv (self : ident) (other : float)
| do_tanh (self : ident)
| do_exp (self : ident)
| do_backward (self : ident)
| assign_grad (v : ident) (g : float)
| assign_data (v : ident) (d : float).

(** The store an action leaves, whether it returns or raises. *)
Definition perform (a : action) (h : heap) : heap :=
  match a with
  | new_leaf d => fst (Value_init rt d [] op_leaf h)
  | do_add self other => fst (__add__ rt self other h)
  | do_mul self other => fst (__mul__ rt self other h)
  | do_pow self other => fst (__pow__ rt self other h)
  | do_neg self => fst (__neg__ rt self h)
  | do_sub self other => fst (__sub__ rt self other h)
  | do_rsub self other => fst (__rsub__ rt self other h)
  | do_truediv self other => fst (__truediv__ rt self other h)
  | do_rtruediv self other => fst (__rtruediv__ rt self other h)
  | do_tanh self => fst (tanh rt self h)
  | do_exp self => fst (exp rt self h)
  | do_backward self => fst (backward rt self h)
  | assign_grad v g => set_grad v g h
  | assign_data v d => update v (with_data d) h
  end.

(** A reference is to an object of the store. *)
Definition holds (h : heap) (o : pyobj) : Prop :=
  match o with Num _ => True | Ref v => v < length h end.

(** The objects an action names exist. *)
Definition possible (h : heap) (a : action) : Prop :=
  match a with
  | new_leaf _ => True
  | do_add self other | do_mul self other | do_pow self other
  | do_sub self other | do_truediv self other =>
      self < length h /\ holds h other
  | do_neg self | do_rsub self _ | do_rtruediv self _
  | do_tanh self | do_exp self | do_backward self => self < length h
  | assign_grad v _ | assign_data v _ => v < length h
  end.

(** The stores a program can reach from the empty one. *)
Inductive built : heap -> Prop :=
| built_nil : built []
| built_step h a : built h -> possible h a -> built (perform a h).





(** [Value(c) - a] *)
Definition explicit_minus (c : float) (a : ident) : M ident :=
  vc <- Value_init rt c [] op_leaf ;; __sub__ rt vc (Ref a).

(** [Value(c) / a] *)
Definition explicit_over (c : float) (a : ident) : M ident :=
  vc <- Value_init rt c [] op_leaf ;; __truediv__ rt vc (Ref a).

End Clients.

(** ** Scenarios *)

Section Scenarios.

Variable rt : PyRuntime.

Local Open Scope float_scope.

(** [a = Value(3.0); b = a * a; b.backward()] *)
Definition square_scenario : M (list ident) :=
  a <- Value_init rt 3 [] op_leaf ;;
  b <- __mul__ rt a (Ref a) ;;
  backward rt b ;;
  ret [a; b].

(** [a = Value(2.0); b = Value(-3.0); c = Value(10.0); d = a*b; e = d+c;
    f = Value(-2.0); L = e*f; L.backward()] *)
Definition affine_scenario : M (list ident) :=
  a <- Value_init rt 2 [] op_leaf ;;
  b <- Value_init rt (-3) [] op_leaf ;;
  c <- Value_init rt 10 [] op_leaf ;;
  d <- __mul__ rt a (Ref b) ;;
  e <- __add__ rt d (Ref c) ;;
  f <- Value_init rt (-2) [] op_leaf ;;
  L <- __mul__ rt e (Ref f) ;;
  backward rt L ;;
  ret [a; b; c; d; e; f; L].

(** [x = Value(2.0); y = x + x; z = y * y; z.backward()] *)
Definition diamond_scenario : M (list ident) :=
  x <- Value_init rt 2 [] op_leaf ;;
  y <- __add__ rt x (Ref x) ;;
  z <- __mul__ rt y (Ref y) ;;
  backward rt z ;;
  ret [x; y; z].

(** [t.backward()], [calls] times in succession. *)
Fixpoint backward_times (calls : nat) (t : ident) : M unit :=
  match calls with
  | O => ret tt
  | S n => backward rt t ;; backward_times n t
  end.

(** [x = Value(1.0); y = x * 2.0; z = y * 3.0], then [z.backward()]
    [calls] times in succession. *)
Definition chain_scenario (calls : nat) : M (list ident) :=
  x <- Value_init rt 1 [] op_leaf ;;
  y <- __mul__ rt x (Num 2) ;;
  z <- __mul__ rt y (Num 3) ;;
  backward_times calls z ;;
  ret [x; y; z].

(** [a = Value(2.0); b = Value(-3.0); d = a * b], then [d.backward()]
    [calls] times in succession. *)
Definition product_scenario (calls : nat) : M (list ident) :=
  a <- Value_init rt 2 [] op_leaf ;;
  b <- Value_init rt (-3) [] op_leaf ;;
  d <- __mul__ rt a (Ref b) ;;
  backward_times calls d ;;
  ret [a; b; d].

End Scenarios.

(** [a = Value(2.0); r = 5.0 - a; r.backward()] and
    [a = Value(2.0); r = Value(5.0) - a; r.backward()] *)
Definition number_minus_scenario (rt : PyRuntime) : M ident :=
  a <- Value_init rt 2 [] op_leaf ;;
  r <- number_minus rt 5 a ;;
  backward rt r ;;
  ret r.

Definition explicit_minus_scenario (rt : PyRuntime) : M ident :=
  a <- Value_init rt 2 [] op_leaf ;;
  r <- explicit_minus rt 5 a ;;
  backward rt r ;;
  ret r.

(** The store a client's actions leave, from the empty store. *)
Definition run (rt : PyRuntime) (program : list action) : heap :=
  fold_left (fun h a => perform rt a h) program [].

(** Each action of the program names objects that exist when it runs. *)
Fixpoint all_possible (rt : PyRuntime) (program : list action) (h : heap)
  : Prop :=
  match program with
  | [] => True
  | a :: rest => possible h a /\ all_possible rt rest (perform rt a h)
  end.

(** No closure of the store computes a power. *)
Definition power_free (h : heap) : bool :=
  forallb
    (fun x =>
       match _backward x with
       | pow_backward _ _ _ | tanh_backward _ _ _ => false
       | _ => true
       end)
    h.

(** A runtime for closed examples: sets iterate in insertion order; [pow] is
    repeated multiplication for an integer exponent (exact where the power
    is a float, as [2.0 ** -1] is) and [exp] knows [exp(0)]. *)
Module Example.

Local Open Scope float_scope.

Fixpoint pow_pos (x : float) (n : nat) : float :=
  match n with
  | O => 1
  | S n' => x * pow_pos x n'
  end.

Definition pow (x y : float) : float :=
  match PyFloat.to_integer y with
  | Some (Zpos p) => pow_pos x (Pos.to_nat p)
  | Some (Zneg p) => 1 / pow_pos x (Pos.to_nat p)
  | Some Z0 => 1
  | None => nan
  end.

Definition exp (x : float) : float := if x =? 0 then 1 else nan.

Definition runtime : PyRuntime :=
  {| iter_swap := fun _ => false; libm_pow := pow; libm_exp := exp |}.

End Example.

(** Leaves and stores for closed examples. *)
Definition zero_leaf : Value :=
  mkValue 0 0 no_backward [] op_leaf String.EmptyString.

Definition one_leaf : Value :=
  mkValue 1 0 no_backward [] op_leaf String.EmptyString.

Definition two_leaf : Value :=
  mkValue 2 0 no_backward [] op_leaf String.EmptyString.

Definition ten_leaf : Value :=
  mkValue 10 0 no_backward [] op_leaf String.EmptyString.

Definition square_store : heap :=
  run Example.runtime [new_leaf 3; do_mul 0 (Ref 0)].

Definition affine_store : heap :=
  run Example.runtime
      [new_leaf 2; new_leaf (-3); new_leaf 10; do_mul 0 (Ref 1);
       do_add 3 (Ref 2); new_leaf (-2); do_mul 4 (Ref 5)].

Definition product_store : heap :=
  run Example.runtime [new_leaf 2; new_leaf (-3); do_mul 0 (Ref 1)].

Definition twin_store : heap :=
  run Example.runtime [new_leaf 1; new_leaf 1].

(** ** [core/visualization.py]: the graph under an object

    [trace(root)] collects the objects and the edges of the graph under
    [root] in two sets.  An object is hashed and compared by identity, a
    pair of objects by the identities of its components.  A set is a list
    without repetition here; the order of the list is not the order in
    which Python would iterate the set, and no statement depends on it. *)

Module Visualization.

Definition edge_eq_dec (e1 e2 : ident * ident) : {e1 = e2} + {e1 <> e2}.
Proof. decide equality; apply Nat.eq_dec. Defined.

(** [build(v)], with [nodes] and [edges] of the enclosing call as state;
    [depth] bounds the nesting of the recursion, as in [build_topo]. *)
Fixpoint build (depth : nat) (h : heap) (v : ident)
    (st : list ident * list (ident * ident))
  : option (list ident * list (ident * ident)) :=
  match depth with
  | O => None
  | S depth' =>
      let '(nodes, edges) := st in
      if ListSet.set_mem Nat.eq_dec v nodes then Some st
      else
        fold_left
          (fun acc child =>
             match acc with
             | Some (nodes', edges') =>
                 build depth' h child
                       (nodes', ListSet.set_add edge_eq_dec (child, v) edges')
             | None => None
             end)
          (prev_of h v) (Some (ListSet.set_add Nat.eq_dec v nodes, edges))
  end.

(** [trace(root)] *)
Definition trace (root : ident) : M (list ident * list (ident * ident)) :=
  fun h =>
    match build (S (length h)) h root ([], []) with
    | Some st => (h, Ok st)
    | None => (h, Raise RecursionError)
    end.

(** The loop [for child in v._prev: edges.add((child, v)); build(child)]. *)
Definition add_children (h : heap) (depth : nat) (v : ident)
    (children : list ident)
    (st : option (list ident * list (ident * ident))) :=
  fold_left
    (fun acc child =>
       match acc with
       | Some (nodes', edges') =>
           build depth h child
                 (nodes', ListSet.set_add edge_eq_dec (child, v) edges')
       | None => None
       end)
    children st.

End Visualization.

(** ** [core/neuron.py], [core/layer.py], [core/mlp.py]: networks

    A [Neuron] holds its weights and its bias, a [Layer] its neurons, an
    [MLP] its layers: lists that are made once and never assigned again, so
    each is the list of the identities it holds.  A network is made with
    numbers from [random.uniform(-1, 1)], and called on a list of numbers
    and [Value]s or, by the layer after a layer of one neuron, on a single
    [Value]. *)

Module Net.

(** [TypeError] is the one exception these classes meet that [Value] does
    not: [zip] on what is not iterable. *)
Inductive failure : Type :=
| Raised (e : exn)
| TypeError.

Inductive outcome (A : Type) : Type :=
| Returned (a : A)
| Failed (f : failure).
Arguments Returned {A} a.
Arguments Failed {A} f.

(** The store, and how many numbers [random] has given so far. *)
Definition world : Type := (heap * nat)%type.

Definition N (A : Type) : Type := world -> world * outcome A.

Definition returns {A} (a : A) : N A := fun s => (s, Returned a).

Definition fails {A} (f : failure) : N A := fun s => (s, Failed f).

Definition and_then {A B} (c : N A) (k : A -> N B) : N B :=
  fun s =>
    match c s with
    | (s', Returned a) => k a s'
    | (s', Failed f) => (s', Failed f)
    end.

(** A method of [Value], called from these classes. *)
Definition value_op {A} (c : M A) : N A :=
  fun s =>
    match c (fst s) with
    | (h', Ok a) => ((h', snd s), Returned a)
    | (h', Raise e) => ((h', snd s), Failed (Raised e))
    end.

Declare Scope net_scope.
Notation "x <- c ;; k" := (and_then c (fun x => k))
  (at level 61, c at next level, right associativity) : net_scope.
Local Open Scope net_scope.

(** A list comprehension, [[f(a) for a in l]]. *)
Fixpoint for_each {A B} (f : A -> N B) (l : list A) : N (list B) :=
  match l with
  | [] => returns []
  | a :: rest =>
      b <- f a ;;
      bs <- for_each f rest ;;
      returns (b :: bs)
  end.

Record Neuron : Type := { w : list ident; b : ident }.

Record Layer : Type := { neurons : list Neuron }.

Record MLP : Type := { layers : list Layer }.

(** What a network is called on. *)
Inductive arg : Type :=
| One (o : pyobj)
| Many (l : list pyobj).

Section Classes.

Variable rt : PyRuntime.

(** [uniform k]: the number the [k]-th call of [random.uniform(-1, 1)] of
    the run returns, counting from 0. *)
Variable uniform : nat -> float.

Definition random_uniform : N float :=
  fun s => ((fst s, S (snd s)), Returned (uniform (snd s))).

(** [Value(random.uniform(-1, 1))] *)
Definition random_Value : N ident :=
  x <- random_uniform ;;
  value_op (Value_init rt x [] op_leaf).

(** [Neuron(nin)]; [range] of a length, so [nin] is a [nat]. *)
Definition Neuron_init (nin : nat) : N Neuron :=
  w <- for_each (fun _ => random_Value) (seq 0 nin) ;;
  b <- random_Value ;;
  returns {| w := w; b := b |}.

(** [sum(items, start)] where the items are the products [wi * xi] of a
    generator: the next product is made, then added to the sum so far. *)
Fixpoint sum_products (pairs : list (ident * pyobj)) (start : ident)
  : M ident :=
  match pairs with
  | [] => ret start
  | (wi, xi) :: rest =>
      (item <- __mul__ rt wi xi ;;
       result <- __add__ rt start (Ref item) ;;
       sum_products rest result)%py
  end.

(** [neuron(x)].  [zip(self.w, x)] is evaluated first; it pairs the
    weights with the elements of a list up to the end of the shorter. *)
Definition Neuron_call (n : Neuron) (x : arg) : N ident :=
  match x with
  | One _ => fails TypeError
  | Many xs =>
      activation <- value_op (sum_products (combine (w n) xs) (b n)) ;;
      value_op (tanh rt activation)
  end.

Definition Neuron_parameters (n : Neuron) : list ident := w n ++ [b n].

(** [Layer(nin, nout)] *)
Definition Layer_init (nin nout : nat) : N Layer :=
  ns <- for_each (fun _ => Neuron_init nin) (seq 0 nout) ;;
  returns {| neurons := ns |}.

(** [layer(x)] *)
Definition Layer_call (l : Layer) (x : arg) : N arg :=
  outs <- for_each (fun n => Neuron_call n x) (neurons l) ;;
  returns (if Nat.eqb (length outs) 1 then One (Ref (nth 0 outs 0))
           else Many (map Ref outs)).

Definition Layer_parameters (l : Layer) : list ident :=
  flat_map Neuron_parameters (neurons l).

(** The neurons [ns], called on [x] one after the other from [s], each in
    the world the one before it left, return [outs] and leave [s']. *)
Fixpoint called_in_turn (ns : list Neuron) (x : arg) (s : world)
    (outs : list ident) (s' : world) : Prop :=
  match ns, outs with
  | [], [] => s' = s
  | n :: ns', o :: outs' =>
      exists s1,
        Neuron_call n x s = (s1, Returned o) /\
        called_in_turn ns' x s1 outs' s'
  | _, _ => False
  end.

(** [MLP(nin, nouts)] *)
Definition MLP_init (nin : nat) (nouts : list nat) : N MLP :=
  let sizes := nin :: nouts in
  ls <- for_each (fun i => Layer_init (nth i sizes 0) (nth (i + 1) sizes 0))
                 (seq 0 (length nouts)) ;;
  returns {| layers := ls |}.

(** [for layer in layers: x = layer(x)] *)
Fixpoint feed (ls : list Layer) (x : arg) : N arg :=
  match ls with
  | [] => returns x
  | l :: rest =>
      x' <- Layer_call l x ;;
      feed rest x'
  end.

(** [mlp(x)] *)
Definition MLP_call (m : MLP) (x : arg) : N arg := feed (layers m) x.

Definition MLP_parameters (m : MLP) : list ident :=
  flat_map Layer_parameters (layers m).

(** The [n] leaves that [n] calls of [Value(random.uniform(-1, 1))] add to
    a store of [v] objects after [k] draws. *)
Definition random_leaves (v k n : nat) : list Value :=
  map (fun i => fresh rt (v + i) (uniform (k + i)) [] op_leaf no_backward)
      (seq 0 n).

End Classes.

(** The number of [Value]s [MLP(nin, nouts)] makes: for each layer, one
    weight for each input and one bias for each of its neurons. *)
Fixpoint parameter_count (nin : nat) (nouts : list nat) : nat :=
  match nouts with
  | [] => 0
  | nout :: rest => nout * (nin + 1) + parameter_count nout rest
  end.

(** The objects a network and its argument name exist. *)
Definition Neuron_in (h : heap) (n : Neuron) : Prop :=
  forall v, In v (Neuron_parameters n) -> v < length h.

Definition Layer_in (h : heap) (l : Layer) : Prop :=
  forall n, In n (neurons l) -> Neuron_in h n.

Definition MLP_in (h : heap) (m : MLP) : Prop :=
  forall l, In l (layers m) -> Layer_in h l.

Definition arg_in (h : heap) (x : arg) : Prop :=
  match x with
  | One o => holds h o
  | Many xs => forall o, In o xs -> holds h o
  end.

(** The number a neuron's sum comes to on the inputs [xs]: from the bias,
    one product after the other. *)
Definition activation_of (h : heap) (n : Neuron) (xs : list pyobj) : float :=
  fold_left (fun a p => (a + data_of h (fst p) * value_of h (snd p))%float)
            (combine (w n) xs) (data_of h (b n)).

End Net.

(** More stores, a runtime whose [exp] overflows, and a small network, for
    closed examples. *)
Definition pair_store : heap :=
  run Example.runtime [new_leaf 2; new_leaf 3].

Definition two_store : heap := run Example.runtime [new_leaf 2].

Definition zero_store : heap := run Example.runtime [new_leaf 0].

Definition zeros_store : heap :=
  run Example.runtime [new_leaf 0; new_leaf 0; new_leaf 0; new_leaf 0].

Definition overflowing_runtime : PyRuntime :=
  {| iter_swap := fun _ => false;
     libm_pow := Example.pow;
     libm_exp := fun x => if (710 <? x)%float then infinity
                          else Example.exp x |}.

Definition large_store : heap := run overflowing_runtime [new_leaf 400].

Definition huge_store : heap :=
  run overflowing_runtime [new_leaf 0x1p+1023].

Definition first_neuron : Net.Neuron := {| Net.w := [0]; Net.b := 1 |}.

Definition second_neuron : Net.Neuron := {| Net.w := [2]; Net.b := 3 |}.

Definition first_layer : Net.Layer := {| Net.neurons := [first_neuron] |}.

Definition second_layer : Net.Layer := {| Net.neurons := [second_neuron] |}.

(** * Theorems *)

(** ** Floats: the facts the operations rest on *)

Module FloatFacts.

Local Open Scope float_scope.

Lemma Prim2SF_inj x y : Prim2SF x = Prim2SF y -> x = y.
Proof.
  intros E. rewrite <- (SF2Prim_Prim2SF x), <- (SF2Prim_Prim2SF y).
  now rewrite E.
Qed.

(** [x == 0.0] holds of the two zeros only. *)
Lemma zero_cases x : (x =? 0) = true -> x = 0 \/ x = -0.
Proof.
  rewrite FloatAxioms.eqb_spec. intros E.
  destruct (Prim2SF x) as [s|s| |s m e] eqn:Ex.
  - destruct s; [right|left]; apply Prim2SF_inj; rewrite Ex; reflexivity.
  - destruct s; discriminate.
  - discriminate.
  - destruct s; discriminate.
Qed.

Lemma SFadd_comm x y : SF64add x y = SF64add y x.
Proof.
  unfold SF64add, SFadd.
  destruct x as [sx|sx| |sx mx ex], y as [sy|sy| |sy my ey]; try reflexivity.
  - destruct sx, sy; reflexivity.
  - destruct sx, sy; reflexivity.
  - cbv zeta. rewrite Z.min_comm. f_equal. apply Z.add_comm.
Qed.

Lemma add_comm x y : x + y = y + x.
Proof. apply Prim2SF_inj. rewrite !FloatAxioms.add_spec. apply SFadd_comm. Qed.

Lemma SFmul_comm x y : SF64mul x y = SF64mul y x.
Proof.
  unfold SF64mul, SFmul.
  destruct x as [sx|sx| |sx mx ex], y as [sy|sy| |sy my ey]; try reflexivity;
    rewrite (xorb_comm sx sy); try reflexivity.
  now rewrite Pos.mul_comm, Z.add_comm.
Qed.

Lemma mul_comm x y : x * y = y * x.
Proof. apply Prim2SF_inj. rewrite !FloatAxioms.mul_spec. apply SFmul_comm. Qed.

Lemma cond_Zopp_negb s z : cond_Zopp (negb s) z = (- cond_Zopp s z)%Z.
Proof. destruct s; simpl; lia. Qed.

Lemma SFsub_add_opp x y : SF64sub x y = SF64add x (SFopp y).
Proof.
  unfold SF64sub, SFsub, SF64add, SFadd, SFopp.
  destruct x as [sx|sx| |sx mx ex], y as [sy|sy| |sy my ey]; try reflexivity.
  - destruct sx, sy; reflexivity.
  - destruct sx, sy; reflexivity.
  - cbv zeta. rewrite cond_Zopp_negb. reflexivity.
Qed.

Lemma sub_add_opp x y : x - y = x + - y.
Proof.
  apply Prim2SF_inj.
  rewrite FloatAxioms.sub_spec, FloatAxioms.add_spec, FloatAxioms.opp_spec.
  apply SFsub_add_opp.
Qed.

Lemma digits2_pos_shift52 m :
  Z.pos (digits2_pos (4503599627370496 * m)) = (Z.pos (digits2_pos m) + 52)%Z.
Proof. cbn [Pos.mul digits2_pos]. rewrite !Pos2Z.inj_succ. lia. Qed.

Lemma iter_shr_52 m :
  SpecFloat.iter_pos shr_1 52
    {| shr_m := Z.pos (4503599627370496 * m); shr_r := false; shr_s := false |}
  = {| shr_m := Z.pos m; shr_r := false; shr_s := false |}.
Proof. reflexivity. Qed.

(** The product with -1.0 is exact: the mantissa comes back as it was. *)
Lemma SFmul_neg1 s :
  valid_binary s = true ->
  SF64mul s (S754_finite true 4503599627370496 (-52)) = SFopp s.
Proof.
  intros Hv. destruct s as [sx|sx| |sx mx ex]; simpl.
  - now rewrite xorb_true_r.
  - now rewrite xorb_true_r.
  - reflexivity.
  - simpl in Hv. unfold bounded, canonical_mantissa in Hv.
    apply andb_prop in Hv as [Hc He]. apply Z.eqb_eq in Hc.
    rewrite xorb_true_r.
    unfold binary_round_aux, shr_fexp, Zdigits2.
    rewrite (Pos.mul_comm mx), digits2_pos_shift52.
    replace (Z.pos (digits2_pos mx) + 52 + (ex + -52))%Z
      with (Z.pos (digits2_pos mx) + ex)%Z by lia.
    rewrite Hc.
    replace (ex - (ex + -52))%Z with 52%Z by lia.
    unfold shr at 1. unfold shr_record_of_loc.
    rewrite iter_shr_52.
    cbn [shr_m loc_of_shr_record shr_r shr_s round_nearest_even].
    replace (ex + -52 + 52)%Z with ex by lia.
    unfold Zdigits2. rewrite Hc, Z.sub_diag.
    cbn [shr shr_record_of_loc shr_m].
    now rewrite He.
Qed.

Lemma mul_neg1 x : x * -1 = - x.
Proof.
  apply Prim2SF_inj. rewrite FloatAxioms.mul_spec, FloatAxioms.opp_spec.
  apply SFmul_neg1, Prim2SF_valid.
Qed.

(** [a * -1 + c], what [c - a] computes on [Value]s, is the float [c - a]. *)
Lemma neg_plus_is_minus a c : a * -1 + c = c - a.
Proof. now rewrite mul_neg1, add_comm, sub_add_opp. Qed.

Lemma plus_neg_is_minus a c : c + a * -1 = c - a.
Proof. now rewrite mul_neg1, sub_add_opp. Qed.

(** A zero to the power -1: [ZeroDivisionError]. *)
Lemma pow_zero_neg1 rt x :
  (x =? 0) = true -> PyFloat.pow rt x (-1) = Raise ZeroDivisionError.
Proof. intros E. apply zero_cases in E as [->| ->]; reflexivity. Qed.

Lemma iter_shr_51 m :
  SpecFloat.iter_pos shr_1 51
    {| shr_m := Z.pos (4503599627370496 * m); shr_r := false; shr_s := false |}
  = {| shr_m := Z.pos m~0; shr_r := false; shr_s := false |}.
Proof. reflexivity. Qed.

Lemma cond_Zopp_double s m :
  (cond_Zopp s (Z.pos m) + cond_Zopp s (Z.pos m))%Z = cond_Zopp s (Z.pos m~0).
Proof. destruct s; simpl; lia. Qed.

(** Rounding the mantissa doubled and rounding the product with 2.0 shift
    by the same amount: one place more when the mantissa is full. *)
Lemma round_aux_double sx mx ex :
  fexp prec emax (Z.pos (digits2_pos mx) + ex) = ex ->
  (ex <=? emax - prec)%Z = true ->
  binary_round_aux prec emax sx (Z.pos mx~0) ex loc_Exact =
  binary_round_aux prec emax sx (Z.pos (4503599627370496 * mx)) (-51 + ex)
                   loc_Exact.
Proof.
  intros Hc He.
  set (d := Z.pos (digits2_pos mx)) in *.
  set (F := fexp prec emax (d + 1 + ex)).
  assert (HF : F = ex \/ F = (ex + 1)%Z).
  { unfold F, fexp, SpecFloat.emin, prec, emax in *. lia. }
  unfold binary_round_aux, shr_fexp, Zdigits2.
  rewrite digits2_pos_shift52.
  cbn [digits2_pos]. rewrite Pos2Z.inj_succ. fold d.
  replace (Z.succ d + ex)%Z with (d + 1 + ex)%Z by lia.
  replace (d + 52 + (-51 + ex))%Z with (d + 1 + ex)%Z by lia.
  fold F. unfold shr_record_of_loc.
  destruct HF as [HF|HF]; rewrite HF.
  - rewrite Z.sub_diag.
    replace (ex - (-51 + ex))%Z with 51%Z by lia.
    unfold shr at 1 3. rewrite iter_shr_51.
    cbn [shr_m loc_of_shr_record shr_r shr_s round_nearest_even].
    replace (-51 + ex + 51)%Z with ex by lia.
    reflexivity.
  - replace (ex + 1 - ex)%Z with 1%Z by lia.
    replace (ex + 1 - (-51 + ex))%Z with 52%Z by lia.
    unfold shr at 1 3. rewrite iter_shr_52.
    cbn [SpecFloat.iter_pos shr_1 shr_m loc_of_shr_record shr_r shr_s
         round_nearest_even orb].
    replace (-51 + ex + 52)%Z with (ex + 1)%Z by lia.
    reflexivity.
Qed.

Lemma SFadd_self s :
  valid_binary s = true ->
  SF64add s s = SF64mul (S754_finite false 4503599627370496 (-51)) s.
Proof.
  intros Hv. destruct s as [sx|sx| |sx mx ex].
  - destruct sx; reflexivity.
  - destruct sx; reflexivity.
  - reflexivity.
  - simpl in Hv. unfold bounded, canonical_mantissa in Hv.
    apply andb_prop in Hv as [Hc He]. apply Z.eqb_eq in Hc.
    unfold SF64add, SFadd, SF64mul, SFmul. cbv zeta. cbn [xorb].
    rewrite <- (@round_aux_double sx mx ex Hc He).
    rewrite Z.min_id. unfold shl_align at 1 2. rewrite Z.sub_diag.
    cbn [fst]. rewrite cond_Zopp_double.
    assert (Hr : binary_round prec emax sx mx~0 ex
                 = binary_round_aux prec emax sx (Z.pos mx~0) ex loc_Exact).
    { unfold binary_round, shl_align.
      set (F := fexp prec emax (Z.pos (digits2_pos mx~0) + ex)).
      assert (HF : (0 <= F - ex)%Z).
      { unfold F, fexp, SpecFloat.emin, prec, emax in *.
        cbn [digits2_pos]. rewrite Pos2Z.inj_succ. lia. }
      destruct (F - ex)%Z; try reflexivity. lia. }
    destruct sx; simpl; exact Hr.
Qed.

(** A float added to itself is two times the float, exactly. *)
Lemma add_self x : x + x = 2 * x.
Proof.
  apply Prim2SF_inj. rewrite FloatAxioms.add_spec, FloatAxioms.mul_spec.
  apply SFadd_self, Prim2SF_valid.
Qed.

(** [0.0 + c] is [c], but for the negative zero. *)
Lemma zero_plus c : 0 + c = c \/ c = -0.
Proof.
  destruct (Prim2SF c) as [s|s| |s m e] eqn:Ec.
  - destruct s.
    + right. apply Prim2SF_inj. now rewrite Ec.
    + left. apply Prim2SF_inj. now rewrite FloatAxioms.add_spec, Ec.
  - left. apply Prim2SF_inj. now rewrite FloatAxioms.add_spec, Ec.
  - left. apply Prim2SF_inj. now rewrite FloatAxioms.add_spec, Ec.
  - left. apply Prim2SF_inj. now rewrite FloatAxioms.add_spec, Ec.
Qed.

(** From 0.0, a contribution added twice is two times it added once. *)
Lemma added_twice c : 0 + c + c = 2 * (0 + c).
Proof.
  destruct (zero_plus c) as [E| ->]; [|reflexivity].
  rewrite E. apply add_self.
Qed.

End FloatFacts.

(** ** The store: reading after writing *)

Section Store.

Lemma length_update v f (h : heap) : length (update v f h) = length h.
Proof.
  revert v; induction h as [|x h IH]; intros [|v]; simpl; auto.
Qed.

Lemma nth_error_update_eq v f (h : heap) :
  nth_error (update v f h) v = option_map f (nth_error h v).
Proof.
  revert v; induction h as [|x h IH]; intros [|v]; simpl; auto.
Qed.

Lemma nth_error_update_ne v w f (h : heap) :
  v <> w -> nth_error (update v f h) w = nth_error h w.
Proof.
  revert v w; induction h as [|x h IH]; intros [|v] [|w] Hne; simpl; auto.
  congruence.
Qed.

Lemma update_app_r f (h l : heap) k :
  update (length h + k) f (h ++ l) = h ++ update k f l.
Proof.
  induction h as [|x h IH]; simpl; [destruct l; reflexivity|].
  now rewrite IH.
Qed.

Lemma update_last f (h : heap) x :
  update (length h) f (h ++ [x]) = h ++ [f x].
Proof.
  rewrite <- (Nat.add_0_r (length h)) at 1. now rewrite update_app_r.
Qed.

Lemma length_set_grad v g h : length (set_grad v g h) = length h.
Proof. apply length_update. Qed.

Lemma length_add_grad v d h : length (add_grad v d h) = length h.
Proof. apply length_update. Qed.

Lemma data_of_set_grad v g h w : data_of (set_grad v g h) w = data_of h w.
Proof.
  unfold data_of, set_grad. destruct (Nat.eq_dec v w) as [->|Hne].
  - rewrite nth_error_update_eq. now destruct (nth_error h w).
  - now rewrite nth_error_update_ne.
Qed.

Lemma prev_of_set_grad v g h w : prev_of (set_grad v g h) w = prev_of h w.
Proof.
  unfold prev_of, set_grad. destruct (Nat.eq_dec v w) as [->|Hne].
  - rewrite nth_error_update_eq. now destruct (nth_error h w).
  - now rewrite nth_error_update_ne.
Qed.

Lemma backward_of_set_grad v g h w :
  backward_of (set_grad v g h) w = backward_of h w.
Proof.
  unfold backward_of, set_grad. destruct (Nat.eq_dec v w) as [->|Hne].
  - rewrite nth_error_update_eq. now destruct (nth_error h w).
  - now rewrite nth_error_update_ne.
Qed.

Lemma grad_of_set_grad_eq v g h :
  v < length h -> grad_of (set_grad v g h) v = g.
Proof.
  intros Hv. unfold grad_of, set_grad. rewrite nth_error_update_eq.
  destruct (nth_error h v) eqn:E; [reflexivity|].
  apply nth_error_None in E. lia.
Qed.

Lemma grad_of_set_grad_ne v g h w :
  v <> w -> grad_of (set_grad v g h) w = grad_of h w.
Proof.
  intros Hne. unfold grad_of, set_grad. now rewrite nth_error_update_ne.
Qed.

Lemma data_of_add_grad v d h w : data_of (add_grad v d h) w = data_of h w.
Proof. apply data_of_set_grad. Qed.

Lemma prev_of_add_grad v d h w : prev_of (add_grad v d h) w = prev_of h w.
Proof. apply prev_of_set_grad. Qed.

Lemma backward_of_add_grad v d h w :
  backward_of (add_grad v d h) w = backward_of h w.
Proof. apply backward_of_set_grad. Qed.

Lemma grad_of_add_grad_eq v d h :
  v < length h -> grad_of (add_grad v d h) v = (grad_of h v + d)%float.
Proof. apply grad_of_set_grad_eq. Qed.

Lemma grad_of_add_grad_ne v d h w :
  v <> w -> grad_of (add_grad v d h) w = grad_of h w.
Proof. apply grad_of_set_grad_ne. Qed.

Lemma nth_error_app_old (h l : heap) v :
  v < length h -> nth_error (h ++ l) v = nth_error h v.
Proof. intros Hv. now apply nth_error_app1. Qed.

Lemma nth_error_app_new (h l : heap) k :
  nth_error (h ++ l) (length h + k) = nth_error l k.
Proof.
  rewrite nth_error_app2 by lia. f_equal. lia.
Qed.

End Store.

(** ** The traversal *)

Section Topo.

Variable h : heap.
Hypothesis Hwf : wf_heap h.

Lemma prev_older v c : In c (prev_of h v) -> c < v.
Proof.
  unfold prev_of. destruct (nth_error h v) as [x|] eqn:E; [|intros []].
  apply (wf_older (Hwf _ E)).
Qed.

Lemma reachable_le v w : reachable h v w -> w <= v.
Proof.
  induction 1 as [|v c w Hc _ IH]; [lia|].
  apply prev_older in Hc. lia.
Qed.

Lemma operands_first_nil : operands_first h [].
Proof. intros [|? ?] v l2 E; discriminate. Qed.

Lemma operands_first_snoc l v :
  operands_first h l ->
  (forall c, In c (prev_of h v) -> In c l) ->
  operands_first h (l ++ [v]).
Proof.
  intros Hl Hv l1 x l2 E c Hc.
  destruct l2 as [|y l2 _] using rev_ind.
  - apply app_inj_tail in E as [-> ->]. auto.
  - rewrite app_comm_cons, app_assoc in E.
    apply app_inj_tail in E as [-> _]. eapply Hl; eauto.
Qed.

Lemma operands_first_closed l v c :
  operands_first h l -> In v l -> In c (prev_of h v) -> In c l.
Proof.
  intros Hl Hv Hc. apply in_split in Hv as (l1 & l2 & ->).
  apply in_or_app. left. eapply Hl; eauto.
Qed.

Lemma build_topo_unfold depth v visited topo :
  build_topo (S depth) h v (visited, topo) =
  if existsb (Nat.eqb v) visited then Some (visited, topo)
  else match visit_children h depth (prev_of h v) (Some (v :: visited, topo)) with
       | Some (visited', topo') => Some (visited', topo' ++ [v])
       | None => None
       end.
Proof. reflexivity. Qed.

Lemma existsb_eqb_In v l : existsb (Nat.eqb v) l = true <-> In v l.
Proof.
  rewrite existsb_exists. split.
  - intros (x & Hx & E). apply Nat.eqb_eq in E. now subst.
  - intros Hv. exists v. split; [assumption | apply Nat.eqb_refl].
Qed.

Lemma grows_agree v b visited topo visited' topo' :
  grows h v visited topo visited' topo' ->
  agree b visited topo -> agree b visited' topo'.
Proof.
  intros (new & -> & Hvis & _) Hag x Hx.
  rewrite Hvis, in_app_iff, (Hag x Hx). tauto.
Qed.

Lemma build_topo_spec depth :
  forall v b visited topo,
    v < depth -> v < b ->
    agree b visited topo -> NoDup topo -> operands_first h topo ->
    exists visited' topo',
      build_topo depth h v (visited, topo) = Some (visited', topo') /\
      grows h v visited topo visited' topo' /\
      NoDup topo' /\ operands_first h topo' /\ In v topo'.
Proof.
  induction depth as [|depth IH]; intros v b visited topo Hd Hb Hag Hnd Hof;
    [lia|].
  rewrite build_topo_unfold.
  destruct (existsb (Nat.eqb v) visited) eqn:Hvis.
  - apply existsb_eqb_In in Hvis.
    exists visited, topo.
    split; [reflexivity|]. split; [|split; [|split]]; auto.
    + exists []. rewrite app_nil_r. split; [reflexivity|].
      split; [intros x; simpl; tauto | intros x []].
    + now apply (Hag v Hb).
  - assert (Hnv : ~ In v visited).
    { intros Hin. apply existsb_eqb_In in Hin. congruence. }
    assert (Hnt : ~ In v topo).
    { intros Hin. apply Hnv. now apply (Hag v Hb). }
    assert (Hloop : forall cs visited1 topo1,
               (forall c, In c cs -> In c (prev_of h v)) ->
               agree v visited1 topo1 -> NoDup topo1 ->
               operands_first h topo1 ->
               exists visited' new,
                 visit_children h depth cs (Some (visited1, topo1))
                 = Some (visited', topo1 ++ new) /\
                 (forall x, In x visited' <-> In x visited1 \/ In x new) /\
                 (forall x, In x new ->
                            x < v /\ reachable h v x /\ ~ In x topo1) /\
                 NoDup (topo1 ++ new) /\ operands_first h (topo1 ++ new) /\
                 (forall c, In c cs -> In c (topo1 ++ new))).
    { induction cs as [|c cs IHcs]; intros visited1 topo1 Hcs Hag1 Hnd1 Hof1.
      - exists visited1, []. rewrite app_nil_r. simpl.
        repeat split; auto; try tauto; intros x [].
      - assert (Hc : c < v) by (apply prev_older, Hcs; now left).
        destruct (IH c v visited1 topo1) as
          (visited2 & topo2 & E2 & Hg2 & Hnd2 & Hof2 & Hin2);
          auto; [lia|].
        pose proof (grows_agree Hg2 Hag1) as Hag2.
        destruct Hg2 as (new1 & -> & Hvis2 & Hnew1).
        destruct (IHcs visited2 (topo1 ++ new1)) as
          (visited3 & new2 & E3 & Hvis3 & Hnew2 & Hnd3 & Hof3 & Hin3);
          auto; [intros; apply Hcs; now right|].
        exists visited3, (new1 ++ new2).
        rewrite app_assoc. simpl. unfold visit_children in E3.
        rewrite E2. repeat split; auto.
        + rewrite Hvis3, Hvis2, in_app_iff. tauto.
        + rewrite Hvis3, Hvis2, in_app_iff. tauto.
        + apply in_app_or in H as [Hx|Hx].
          * apply Hnew1 in Hx. lia.
          * now apply Hnew2 in Hx.
        + apply in_app_or in H as [Hx|Hx].
          * apply Hnew1 in Hx as (_ & Hr & _).
            eapply reach_step; [apply Hcs; now left | exact Hr].
          * now apply Hnew2 in Hx.
        + intros Hx1. apply in_app_or in H as [Hx|Hx].
          * now apply Hnew1 in Hx.
          * apply Hnew2 in Hx as (_ & _ & Hn). apply Hn.
            apply in_or_app. now left.
        + intros c' [<-|Hc'].
          * apply in_or_app. now left.
          * now apply Hin3. }
    destruct (Hloop (prev_of h v) (v :: visited) topo) as
      (visited' & new & E & Hvis' & Hnew & Hnd' & Hof' & Hin'); auto.
    { intros x Hx. simpl. rewrite <- (Hag x) by lia.
      split; [intros [->|?]; [lia|assumption] | tauto]. }
    rewrite E. exists visited', ((topo ++ new) ++ [v]).
    split; [reflexivity|]. split; [|split; [|split]].
    + exists (new ++ [v]). rewrite app_assoc. split; [reflexivity|].
      split.
      * intros x. rewrite Hvis', in_app_iff. simpl. tauto.
      * intros x Hx. apply in_app_or in Hx as [Hx|[<-|[]]].
        -- apply Hnew in Hx. repeat split; try tauto; lia.
        -- split; [lia|]. split; [apply reach_self | assumption].
    + apply NoDup_app; [assumption | repeat constructor; intros [] |].
      intros x Hx [<-|[]]. apply in_app_or in Hx as [Hx|Hx]; [tauto|].
      apply Hnew in Hx. lia.
    + apply operands_first_snoc; auto.
    + apply in_or_app. right. now left.
Qed.

End Topo.

(** The traversal [backward] starts with: it ends, and its order holds the
    objects reachable from the terminal, each once, operands first. *)
Lemma topo_order_spec h t :
  wf_heap h -> t < length h ->
  exists visited,
    build_topo (S (length h)) h t ([], []) = Some (visited, topo_order h t) /\
    NoDup (topo_order h t) /\
    operands_first h (topo_order h t) /\
    (forall v, In v (topo_order h t) <-> reachable h t v).
Proof.
  intros Hwf Ht.
  destruct (@build_topo_spec h Hwf (S (length h)) t (S t) [] []) as
    (visited & topo & E & (new & Enew & _ & Hnew) & Hnd & Hof & Hin);
    try lia.
  - intros x _. tauto.
  - constructor.
  - apply operands_first_nil.
  - exists visited. unfold topo_order. rewrite E.
    split; [reflexivity|]. split; [assumption|]. split; [assumption|].
    intros v. split.
    + intros Hv. simpl in Enew. subst topo. now apply Hnew in Hv.
    + intros Hr.
      assert (Hclosed : forall a b, reachable h a b -> In a topo -> In b topo).
      { induction 1 as [|a c b Hc _ IH]; auto.
        intros Ha. apply IH. eapply operands_first_closed; eauto. }
      eauto.
Qed.

Lemma strictly_before (l1 l2 : list ident) v c :
  NoDup (l1 ++ v :: l2) -> In c l1 -> ~ In c (v :: l2).
Proof.
  intros Hnd Hc Hin.
  induction l1 as [|x l1 IH]; [destruct Hc|].
  simpl in Hnd. inversion Hnd as [|? ? Hx Hnd']; subst.
  destruct Hc as [->|Hc]; [|auto].
  apply Hx. apply in_or_app. now right.
Qed.

(** ** Replaying the closures *)

Section Replay.

Variable rt : PyRuntime.

Local Open Scope float_scope.

Lemma same_graph_refl h : same_graph h h.
Proof. split; auto. Qed.

Lemma same_graph_trans h1 h2 h3 :
  same_graph h1 h2 -> same_graph h2 h3 -> same_graph h1 h3.
Proof.
  intros [L1 F1] [L2 F2]. split; [congruence|].
  intros v. destruct (F1 v) as (? & ? & ?), (F2 v) as (? & ? & ?).
  repeat split; congruence.
Qed.

Lemma same_graph_set_grad v g h : same_graph h (set_grad v g h).
Proof.
  split; [apply length_set_grad|]. intros w.
  now rewrite data_of_set_grad, prev_of_set_grad, backward_of_set_grad.
Qed.

Lemma same_graph_add_grad v d h : same_graph h (add_grad v d h).
Proof. apply same_graph_set_grad. Qed.

Lemma contributions_not_operand h c v :
  ~ In v (closure_operands c) -> contributions rt h c v = [].
Proof.
  destruct c as [|s o out|s o out|s k out|s t out|s out]; simpl; intros Hn;
    try reflexivity.
  - destruct (Nat.eqb_spec s v), (Nat.eqb_spec o v); tauto.
  - destruct (Nat.eqb_spec s v), (Nat.eqb_spec o v); tauto.
  - destruct (PyFloat.pow rt _ _); [|reflexivity].
    destruct (Nat.eqb_spec s v); tauto.
  - destruct (PyFloat.pow rt _ _); [|reflexivity].
    destruct (Nat.eqb_spec s v); tauto.
  - destruct (Nat.eqb_spec s v); tauto.
Qed.

Lemma contributions_ext h h' c v :
  (forall w, data_of h' w = data_of h w) ->
  (forall o, closure_out c = Some o -> grad_of h' o = grad_of h o) ->
  contributions rt h' c v = contributions rt h c v.
Proof.
  intros Hd Hg.
  destruct c as [|s o out|s o out|s k out|s t out|s out]; simpl in *;
    rewrite ?Hd, ?(Hg out eq_refl); reflexivity.
Qed.

(** One call: it returns when its powers have a value, touches [grad]
    fields only, and adds its contributions to each. *)
Lemma call_spec h c :
  closure_defined rt h c ->
  (forall o, closure_out c = Some o -> ~ In o (closure_operands c)) ->
  (forall s, In s (closure_operands c) -> s < length h) ->
  exists h',
    call rt c h = (h', Ok tt) /\ same_graph h h' /\
    forall v, grad_of h' v = fold_left add (contributions rt h c v) (grad_of h v).
Proof.
  intros Hdef Hout Hrange.
  destruct c as [|s o out|s o out|s k out|s t out|s out]; simpl in *.
  - exists h. repeat split; auto.
  - eexists. split; [reflexivity|]. split.
    { eapply same_graph_trans; apply same_graph_add_grad. }
    assert (Hs : s <> out) by (intros ->; apply (Hout out); auto).
    assert (Ho : o <> out) by (intros ->; apply (Hout out); auto).
    intros v. rewrite (grad_of_add_grad_ne _ _ Hs).
    destruct (Nat.eqb_spec o v) as [->|Hov], (Nat.eqb_spec s v) as [->|Hsv];
      simpl;
      rewrite ?grad_of_add_grad_eq, ?grad_of_add_grad_ne,
              ?grad_of_add_grad_eq
        by (rewrite ?length_add_grad; auto); auto;
      try now (rewrite grad_of_add_grad_ne by auto;
               rewrite ?grad_of_add_grad_eq, ?grad_of_add_grad_ne by auto).
  - eexists. split; [reflexivity|]. split.
    { eapply same_graph_trans; apply same_graph_add_grad. }
    assert (Hs : s <> out) by (intros ->; apply (Hout out); auto).
    assert (Ho : o <> out) by (intros ->; apply (Hout out); auto).
    intros v. rewrite (grad_of_add_grad_ne _ _ Hs), data_of_add_grad.
    destruct (Nat.eqb_spec o v) as [->|Hov], (Nat.eqb_spec s v) as [->|Hsv];
      simpl;
      rewrite ?grad_of_add_grad_eq, ?grad_of_add_grad_ne,
              ?grad_of_add_grad_eq
        by (rewrite ?length_add_grad; auto); auto;
      try now (rewrite grad_of_add_grad_ne by auto;
               rewrite ?grad_of_add_grad_eq, ?grad_of_add_grad_ne by auto).
  - destruct Hdef as [p Hp]. unfold bind, read, lift, modify. rewrite Hp.
    eexists. split; [reflexivity|]. split; [apply same_graph_add_grad|].
    intros v. destruct (Nat.eqb_spec s v) as [->|Hsv]; simpl.
    + now rewrite grad_of_add_grad_eq by auto.
    + now rewrite grad_of_add_grad_ne.
  - destruct Hdef as [p Hp]. unfold bind, read, lift, modify. rewrite Hp.
    eexists. split; [reflexivity|]. split; [apply same_graph_add_grad|].
    intros v. destruct (Nat.eqb_spec s v) as [->|Hsv]; simpl.
    + now rewrite grad_of_add_grad_eq by auto.
    + now rewrite grad_of_add_grad_ne.
  - eexists. split; [reflexivity|]. split; [apply same_graph_add_grad|].
    intros v. destruct (Nat.eqb_spec s v) as [->|Hsv]; simpl.
    + now rewrite grad_of_add_grad_eq by auto.
    + now rewrite grad_of_add_grad_ne.
Qed.

Lemma replay_contributions_none h order v :
  (forall w, In w order -> ~ In v (closure_operands (backward_of h w))) ->
  replay_contributions rt h order v = [].
Proof.
  unfold replay_contributions.
  induction order as [|u rest IH]; intros Hn; simpl; [reflexivity|].
  rewrite contributions_not_operand by (apply Hn; now left).
  apply IH. intros w Hw. apply Hn. now right.
Qed.

Lemma same_graph_consumers_first h h' order :
  same_graph h h' -> consumers_first h order -> consumers_first h' order.
Proof.
  intros [_ Hf]. induction order as [|u rest IH]; simpl; [auto|].
  intros [Hu Hrest]. split; [|auto].
  intros w Hw. destruct (Hf w) as (_ & _ & ->). auto.
Qed.

Lemma same_graph_closure_defined h h' c :
  same_graph h h' -> closure_defined rt h c -> closure_defined rt h' c.
Proof.
  intros [_ Hf]. destruct c; simpl; auto.
  destruct (Hf self) as (-> & _). auto.
Qed.

Lemma wf_heap_same_graph h h' :
  same_graph h h' -> wf_heap h -> wf_heap h'.
Proof.
  intros [Hl Hf] Hwf v x E. destruct (Hf v) as (_ & Hp & Hb).
  unfold prev_of, backward_of in Hp, Hb. rewrite E in Hp, Hb.
  destruct (nth_error h v) as [y|] eqn:Ey.
  - destruct (Hwf _ _ Ey) as [W1 W2 W3 W4].
    constructor; rewrite ?Hp, ?Hb; auto.
  - apply nth_error_None in Ey.
    assert (v < length h') by (apply nth_error_Some; congruence). lia.
Qed.

Lemma replay_spec order :
  forall h,
    wf_heap h ->
    (forall u, In u order -> closure_defined rt h (backward_of h u)) ->
    consumers_first h order ->
    exists h',
      replay rt order h = (h', Ok tt) /\ same_graph h h' /\
      forall v, grad_of h' v =
                fold_left add (replay_contributions rt h' order v) (grad_of h v).
Proof.
  induction order as [|u rest IH]; intros h Hwf Hdef Hcf.
  - exists h. repeat split; auto.
  - destruct Hcf as [Hu Hrest].
    assert (Hc : forall s, In s (closure_operands (backward_of h u)) ->
                           s < u /\ u < length h).
    { unfold backward_of. intros s.
      destruct (nth_error h u) as [x|] eqn:E; [|intros []].
      intros Hs. split.
      - apply (wf_older (Hwf _ _ E)), (wf_operands (Hwf _ _ E)), Hs.
      - apply nth_error_Some. congruence. }
    assert (Ho : forall o, closure_out (backward_of h u) = Some o -> o = u).
    { unfold backward_of. intros o.
      destruct (nth_error h u) as [x|] eqn:E; [|discriminate].
      apply (wf_out (Hwf _ _ E)). }
    destruct (@call_spec h (backward_of h u)) as (h1 & E1 & Hsg1 & Hg1).
    { apply Hdef. now left. }
    { intros o Eo Hin. apply Ho in Eo. subst o. apply Hc in Hin. lia. }
    { intros s Hs. apply Hc in Hs. lia. }
    assert (Hwf1 : wf_heap h1) by (eapply wf_heap_same_graph; eauto).
    destruct (IH h1 Hwf1) as (h' & E' & Hsg' & Hg').
    { intros w Hw. destruct (proj2 Hsg1 w) as (_ & _ & ->).
      eapply same_graph_closure_defined; eauto. apply Hdef. now right. }
    { eapply same_graph_consumers_first; eauto. }
    exists h'. split; [|split].
    + simpl. unfold bind at 1, read. unfold bind at 1. rewrite E1. exact E'.
    + eapply same_graph_trans; eauto.
    + intros v. rewrite Hg', Hg1. unfold replay_contributions. simpl.
      rewrite fold_left_app. f_equal.
      assert (Hsg : same_graph h h') by (eapply same_graph_trans; eauto).
      destruct (proj2 Hsg u) as (_ & _ & ->).
      f_equal. symmetry. apply contributions_ext.
      * intros w. apply (proj2 Hsg w).
      * intros o Eo. apply Ho in Eo. subst o.
        rewrite Hg', Hg1.
        rewrite replay_contributions_none.
        -- rewrite contributions_not_operand; [reflexivity|].
           apply Hu. now left.
        -- intros w Hw. destruct (proj2 Hsg w) as (_ & _ & ->).
           apply Hu. now right.
Qed.

Lemma operands_first_prefix h l l' :
  operands_first h (l ++ l') -> operands_first h l.
Proof.
  intros Hof l1 v l2 E c Hc.
  apply (Hof l1 v (l2 ++ l')); [|assumption].
  subst l. now rewrite <- app_assoc.
Qed.

(** [backward] replays the reverse of an order with operands first. *)
Lemma rev_consumers_first h topo :
  wf_heap h -> NoDup topo -> operands_first h topo ->
  consumers_first h (rev topo).
Proof.
  intros Hwf. induction topo as [|u l IH] using rev_ind; intros Hnd Hof.
  - exact I.
  - rewrite rev_app_distr. simpl.
    assert (Hul : ~ In u l).
    { apply NoDup_remove_2 in Hnd. now rewrite app_nil_r in Hnd. }
    split.
    + intros w Hw Hin.
      assert (Hp : In u (prev_of h w)).
      { unfold backward_of in Hin. unfold prev_of.
        destruct (nth_error h w) as [x|] eqn:E; [|destruct Hin].
        now apply (wf_operands (Hwf _ _ E)). }
      destruct Hw as [<-|Hw].
      * apply Hul. apply (Hof l u []); auto.
      * apply in_rev in Hw. apply Hul.
        apply in_split in Hw as (l1 & l2 & ->).
        apply in_or_app. left.
        apply (Hof l1 w (l2 ++ [u])); auto.
        now rewrite <- app_assoc.
    + apply IH.
      * now apply NoDup_app_remove_r in Hnd.
      * eapply operands_first_prefix; eauto.
Qed.

Lemma backward_unfold h t :
  wf_heap h -> t < length h ->
  backward rt t h = replay rt (rev (topo_order h t)) (set_grad t 1 h).
Proof.
  intros Hwf Ht. destruct (topo_order_spec Hwf Ht) as (visited & E & _).
  unfold backward. now rewrite E.
Qed.

Lemma same_graph_reachable h h' a b :
  same_graph h h' -> reachable h a b -> reachable h' a b.
Proof.
  intros [_ Hf]. induction 1 as [|v c w Hc _ IH]; [constructor|].
  apply reach_step with c; [|assumption].
  destruct (Hf v) as (_ & -> & _). assumption.
Qed.

(** [backward] returns; it changes [grad] fields only; the terminal's is
    1.0 and any other object's is what it was, plus the contributions of
    the closures in the order of their calls, each computed from the final
    [grad] of the closure's own object. *)
Lemma backward_spec h t :
  wf_heap h -> t < length h -> closures_defined rt h t ->
  exists h',
    backward rt t h = (h', Ok tt) /\ same_graph h h' /\
    grad_of h' t = 1 /\
    forall v, v <> t ->
      grad_of h' v =
      fold_left add (replay_contributions rt h' (rev (topo_order h t)) v)
                (grad_of h v).
Proof.
  intros Hwf Ht Hdef.
  destruct (topo_order_spec Hwf Ht) as (visited & E & Hnd & Hof & Hreach).
  pose proof (same_graph_set_grad t 1 h) as Hsg0.
  destruct (@replay_spec (rev (topo_order h t)) (set_grad t 1 h))
    as (h' & E' & Hsg' & Hg').
  - eapply wf_heap_same_graph; eauto.
  - intros u Hu. apply in_rev, Hreach in Hu.
    rewrite backward_of_set_grad.
    eapply same_graph_closure_defined; eauto.
  - eapply same_graph_consumers_first; eauto.
    now apply rev_consumers_first.
  - exists h'. rewrite backward_unfold by assumption.
    split; [assumption|]. split; [eapply same_graph_trans; eauto|].
    split.
    + rewrite Hg', replay_contributions_none.
      * simpl. now apply grad_of_set_grad_eq.
      * intros w Hw Hin. apply in_rev, Hreach in Hw.
        pose proof (same_graph_trans Hsg0 Hsg') as Hsg.
        destruct (proj2 Hsg w) as (_ & _ & Hb). rewrite Hb in Hin.
        assert (Hlt : t < w).
        { unfold backward_of in Hin.
          destruct (nth_error h w) as [x|] eqn:Ex; [|destruct Hin].
          apply (wf_older (Hwf _ _ Ex)), (wf_operands (Hwf _ _ Ex)), Hin. }
        apply (reachable_le Hwf) in Hw. lia.
    + intros v Hv. rewrite Hg'. now rewrite grad_of_set_grad_ne by auto.
Qed.

End Replay.

(** ** What each operation leaves in the store *)

Section Operations.

Variable rt : PyRuntime.

Local Open Scope float_scope.

Lemma data_of_old (h l : heap) v :
  v < length h -> data_of (h ++ l) v = data_of h v.
Proof. intros Hv. unfold data_of. now rewrite nth_error_app_old. Qed.

Lemma grad_of_old (h l : heap) v :
  v < length h -> grad_of (h ++ l) v = grad_of h v.
Proof. intros Hv. unfold grad_of. now rewrite nth_error_app_old. Qed.

Lemma prev_of_old (h l : heap) v :
  v < length h -> prev_of (h ++ l) v = prev_of h v.
Proof. intros Hv. unfold prev_of. now rewrite nth_error_app_old. Qed.

Lemma backward_of_old (h l : heap) v :
  v < length h -> backward_of (h ++ l) v = backward_of h v.
Proof. intros Hv. unfold backward_of. now rewrite nth_error_app_old. Qed.

Lemma data_of_new (h l : heap) k :
  data_of (h ++ l) (length h + k) = data_of l k.
Proof. unfold data_of. now rewrite nth_error_app_new. Qed.

Lemma data_of_new0 (h l : heap) :
  data_of (h ++ l) (length h) = data_of l 0.
Proof. rewrite <- (Nat.add_0_r (length h)) at 1. apply data_of_new. Qed.

Lemma new_object d children op c (h : heap) :
  (out <- Value_init rt d children op ;;
   set_backward out (c out) ;;
   ret out) h
  = (h ++ [fresh rt (length h) d children op (c (length h))], Ok (length h)).
Proof.
  unfold bind, Value_init, set_backward, modify, ret.
  now rewrite update_last.
Qed.

Lemma Value_init_spec d h :
  Value_init rt d [] op_leaf h =
  (h ++ [fresh rt (length h) d [] op_leaf no_backward], Ok (length h)).
Proof. reflexivity. Qed.

Lemma add_Ref_spec self o h :
  __add__ rt self (Ref o) h =
  (h ++ [fresh rt (length h) (data_of h self + data_of h o) [self; o] op_add
               (add_backward self o (length h))],
   Ok (length h)).
Proof.
  unfold __add__, as_Value. unfold bind at 1, ret at 1.
  unfold bind at 1, read at 1. unfold bind at 1, read at 1.
  apply (new_object _ _ _ (add_backward self o)).
Qed.

Lemma mul_Ref_spec self o h :
  __mul__ rt self (Ref o) h =
  (h ++ [fresh rt (length h) (data_of h self * data_of h o) [self; o] op_mul
               (mul_backward self o (length h))],
   Ok (length h)).
Proof.
  unfold __mul__, as_Value. unfold bind at 1, ret at 1.
  unfold bind at 1, read at 1. unfold bind at 1, read at 1.
  apply (new_object _ _ _ (mul_backward self o)).
Qed.

Lemma as_Value_Num_spec x h :
  as_Value rt (Num x) h =
  (h ++ [fresh rt (length h) x [] op_leaf no_backward], Ok (length h)).
Proof. reflexivity. Qed.

Lemma pow_Num_spec self k h :
  __pow__ rt self (Num k) h =
  match PyFloat.pow rt (data_of h self) k with
  | Ok d => (h ++ [fresh rt (length h) d [self] (op_pow k)
                         (pow_backward self k (length h))],
             Ok (length h))
  | Raise e => (h, Raise e)
  end.
Proof.
  unfold __pow__. unfold bind at 1, read at 1. unfold bind at 1, lift at 1.
  destruct (PyFloat.pow rt (data_of h self) k); [|reflexivity].
  apply (new_object _ _ _ (pow_backward self k)).
Qed.

Lemma exp_spec self h :
  exp rt self h =
  match PyFloat.math_exp rt (data_of h self) with
  | Ok e => (h ++ [fresh rt (length h) e [self] op_exp
                         (exp_backward self (length h))],
             Ok (length h))
  | Raise e => (h, Raise e)
  end.
Proof.
  unfold exp. unfold bind at 1, read at 1. unfold bind at 1, lift at 1.
  destruct (PyFloat.math_exp rt (data_of h self)); [|reflexivity].
  apply (new_object _ _ _ (exp_backward self)).
Qed.

Lemma tanh_spec self h :
  tanh rt self h =
  match PyFloat.math_exp rt (2 * data_of h self) with
  | Ok e =>
      match PyFloat.truediv (e - 1) (e + 1) with
      | Ok t => (h ++ [fresh rt (length h) t [self] op_tanh
                             (tanh_backward self t (length h))],
                 Ok (length h))
      | Raise x => (h, Raise x)
      end
  | Raise x => (h, Raise x)
  end.
Proof.
  unfold tanh. unfold bind at 1, read at 1. unfold bind at 1, lift at 1.
  destruct (PyFloat.math_exp rt (2 * data_of h self)) as [e|x];
    [|reflexivity].
  unfold bind at 1, lift at 1. unfold bind at 1, lift at 1.
  destruct (PyFloat.truediv (e - 1) (e + 1)); [|reflexivity].
  apply (new_object _ _ _ (tanh_backward self a)).
Qed.

End Operations.

(** Stores of the shape [h ++ new]: one list of new objects, identities
    counted from [length h]. *)
Ltac heap_norm :=
  cbv zeta;
  repeat rewrite <- app_assoc;
  cbn [app];
  repeat rewrite length_app;
  cbn [length];
  repeat first
    [ rewrite data_of_old by (assumption || lia)
    | rewrite data_of_new
    | rewrite data_of_new0 ];
  cbn [data_of nth_error data fresh];
  repeat rewrite <- Nat.add_assoc;
  cbn [Nat.add].

Section Sugar.

Variable rt : PyRuntime.

Local Open Scope float_scope.

Lemma add_Num_spec self x h :
  self < length h ->
  let n := length h in
  __add__ rt self (Num x) h =
  (h ++ [fresh rt n x [] op_leaf no_backward;
         fresh rt (n + 1) (data_of h self + x) [self; n] op_add
               (add_backward self n (n + 1))],
   Ok (n + 1)%nat).
Proof.
  intros Hs n. subst n. unfold __add__. unfold bind at 1.
  rewrite as_Value_Num_spec.
  unfold bind at 1, read at 1. unfold bind at 1, read at 1.
  rewrite (new_object _ _ _ _ (add_backward self (length h))).
  heap_norm. reflexivity.
Qed.

Lemma mul_Num_spec self x h :
  self < length h ->
  let n := length h in
  __mul__ rt self (Num x) h =
  (h ++ [fresh rt n x [] op_leaf no_backward;
         fresh rt (n + 1) (data_of h self * x) [self; n] op_mul
               (mul_backward self n (n + 1))],
   Ok (n + 1)%nat).
Proof.
  intros Hs n. subst n. unfold __mul__. unfold bind at 1.
  rewrite as_Value_Num_spec.
  unfold bind at 1, read at 1. unfold bind at 1, read at 1.
  rewrite (new_object _ _ _ _ (mul_backward self (length h))).
  heap_norm. reflexivity.
Qed.

(** [-a]: the constant and the product. *)
Lemma neg_spec self h :
  self < length h ->
  let n := length h in
  __neg__ rt self h =
  (h ++ [fresh rt n (-1) [] op_leaf no_backward;
         fresh rt (n + 1) (data_of h self * -1) [self; n] op_mul
               (mul_backward self n (n + 1))],
   Ok (n + 1)%nat).
Proof. apply mul_Num_spec. Qed.

(** [a - b]: the constant, the product, the sum. *)
Lemma sub_Ref_spec self o h :
  self < length h -> o < length h ->
  let n := length h in
  __sub__ rt self (Ref o) h =
  (h ++ [fresh rt n (-1) [] op_leaf no_backward;
         fresh rt (n + 1) (data_of h o * -1) [o; n] op_mul
               (mul_backward o n (n + 1));
         fresh rt (n + 2) (data_of h self + data_of h o * -1)
               [self; (n + 1)%nat] op_add
               (add_backward self (n + 1) (n + 2))],
   Ok (n + 2)%nat).
Proof.
  intros Hs Ho n. subst n. unfold __sub__. unfold bind at 1.
  rewrite neg_spec by assumption.
  rewrite add_Ref_spec. heap_norm. reflexivity.
Qed.

(** [a - x], [x] a number: the constant [-x] and the sum. *)
Lemma sub_Num_spec self x h :
  self < length h ->
  let n := length h in
  __sub__ rt self (Num x) h =
  (h ++ [fresh rt n (- x) [] op_leaf no_backward;
         fresh rt (n + 1) (data_of h self + - x) [self; n] op_add
               (add_backward self n (n + 1))],
   Ok (n + 1)%nat).
Proof. apply add_Num_spec. Qed.

(** [x - a], [x] a number: the constant -1, the product, the constant
    [x], the sum. *)
Lemma rsub_spec self x h :
  self < length h ->
  let n := length h in
  __rsub__ rt self x h =
  (h ++ [fresh rt n (-1) [] op_leaf no_backward;
         fresh rt (n + 1) (data_of h self * -1) [self; n] op_mul
               (mul_backward self n (n + 1));
         fresh rt (n + 2) x [] op_leaf no_backward;
         fresh rt (n + 3) (data_of h self * -1 + x)
               [(n + 1)%nat; (n + 2)%nat] op_add
               (add_backward (n + 1) (n + 2) (n + 3))],
   Ok (n + 3)%nat).
Proof.
  intros Hs n. subst n. unfold __rsub__, __radd__. unfold bind at 1.
  rewrite neg_spec by assumption.
  rewrite add_Num_spec by (rewrite length_app; simpl; lia).
  heap_norm. reflexivity.
Qed.

(** [a / b]: the power and the product, when the power has a value. *)
Lemma truediv_Ref_spec self o h :
  self < length h ->
  let n := length h in
  __truediv__ rt self (Ref o) h =
  match PyFloat.pow rt (data_of h o) (-1) with
  | Ok p =>
      (h ++ [fresh rt n p [o] (op_pow (-1)) (pow_backward o (-1) n);
             fresh rt (n + 1) (data_of h self * p) [self; n] op_mul
                   (mul_backward self n (n + 1))],
       Ok (n + 1)%nat)
  | Raise e => (h, Raise e)
  end.
Proof.
  intros Hs n. subst n. unfold __truediv__. unfold bind at 1.
  rewrite pow_Num_spec.
  destruct (PyFloat.pow rt (data_of h o) (-1)); [|reflexivity].
  rewrite mul_Ref_spec. heap_norm. reflexivity.
Qed.

(** [a / x], [x] a number. *)
Lemma truediv_Num_spec self x h :
  self < length h ->
  let n := length h in
  __truediv__ rt self (Num x) h =
  match PyFloat.pow rt x (-1) with
  | Ok p =>
      (h ++ [fresh rt n p [] op_leaf no_backward;
             fresh rt (n + 1) (data_of h self * p) [self; n] op_mul
                   (mul_backward self n (n + 1))],
       Ok (n + 1)%nat)
  | Raise e => (h, Raise e)
  end.
Proof.
  intros Hs n. subst n. unfold __truediv__. unfold bind at 1, lift at 1.
  destruct (PyFloat.pow rt x (-1)); [|reflexivity].
  now apply mul_Num_spec.
Qed.

(** [x / a], [x] a number: the power, the constant [x], the product. *)
Lemma rtruediv_spec self x h :
  let n := length h in
  __rtruediv__ rt self x h =
  match PyFloat.pow rt (data_of h self) (-1) with
  | Ok p =>
      (h ++ [fresh rt n p [self] (op_pow (-1)) (pow_backward self (-1) n);
             fresh rt (n + 1) x [] op_leaf no_backward;
             fresh rt (n + 2) (p * x) [n; (n + 1)%nat] op_mul
                   (mul_backward n (n + 1) (n + 2))],
       Ok (n + 2)%nat)
  | Raise e => (h, Raise e)
  end.
Proof.
  intros n. subst n. unfold __rtruediv__, __rmul__. unfold bind at 1.
  rewrite pow_Num_spec.
  destruct (PyFloat.pow rt (data_of h self) (-1)); [|reflexivity].
  rewrite mul_Num_spec by (rewrite length_app; simpl; lia).
  heap_norm. reflexivity.
Qed.

End Sugar.

(** ** Programs: every store a client can reach is an acyclic graph *)

Section Programs.

Variable rt : PyRuntime.

Local Open Scope float_scope.

Lemma In_pyset swap children c : In c (pyset swap children) <-> In c children.
Proof.
  unfold pyset. destruct swap; rewrite <- ?in_rev; apply nodup_In.
Qed.

Lemma NoDup_pyset swap children : NoDup (pyset swap children).
Proof.
  unfold pyset. destruct swap; [apply NoDup_rev|]; apply NoDup_nodup.
Qed.

Lemma wf_fresh v d children op c :
  (forall x, In x children -> x < v) ->
  (forall x, In x (closure_operands c) -> In x children) ->
  (forall o, closure_out c = Some o -> o = v) ->
  wf_Value v (fresh rt v d children op c).
Proof.
  intros H1 H2 H3. constructor; simpl.
  - intros x Hx. apply In_pyset in Hx. auto.
  - apply NoDup_pyset.
  - intros x Hx. apply In_pyset. auto.
  - assumption.
Qed.

Lemma wf_heap_app h l :
  wf_heap h ->
  (forall k x, nth_error l k = Some x -> wf_Value (length h + k) x) ->
  wf_heap (h ++ l).
Proof.
  intros Hh Hl v x E. destruct (Nat.lt_ge_cases v (length h)) as [Hv|Hv].
  - rewrite nth_error_app1 in E by assumption. eauto.
  - rewrite nth_error_app2 in E by assumption.
    apply Hl in E. now replace (length h + (v - length h))%nat with v in E by lia.
Qed.

Lemma wf_heap_nil : wf_heap [].
Proof. intros [|v] x E; discriminate. Qed.

(** A call of a closure, and a replay, touch [grad] fields only, whether
    they return or raise. *)
Lemma call_same_graph c h : same_graph h (fst (call rt c h)).
Proof.
  destruct c as [|s o out|s o out|s k out|s t out|s out]; simpl.
  - apply same_graph_refl.
  - eapply same_graph_trans; apply same_graph_add_grad.
  - eapply same_graph_trans; apply same_graph_add_grad.
  - unfold bind, read, lift, modify.
    destruct (PyFloat.pow rt (data_of h s) (k - 1)); simpl.
    + apply same_graph_add_grad.
    + apply same_graph_refl.
  - unfold bind, lift, modify.
    destruct (PyFloat.pow rt t 2); simpl.
    + apply same_graph_add_grad.
    + apply same_graph_refl.
  - apply same_graph_add_grad.
Qed.

Lemma replay_same_graph order : forall h, same_graph h (fst (replay rt order h)).
Proof.
  induction order as [|u rest IH]; intros h; simpl.
  - apply same_graph_refl.
  - unfold bind at 1, read at 1. unfold bind at 1.
    pose proof (call_same_graph (backward_of h u) h) as Hc.
    destruct (call rt (backward_of h u) h) as [h1 [[]|e]]; simpl in *.
    + eapply same_graph_trans; [exact Hc | apply IH].
    + exact Hc.
Qed.

Lemma backward_same_graph t h : same_graph h (fst (backward rt t h)).
Proof.
  unfold backward.
  destruct (build_topo (S (length h)) h t ([], [])) as [[visited topo]|].
  - unfold bind, modify.
    eapply same_graph_trans;
      [apply (same_graph_set_grad t 1) | apply replay_same_graph].
  - apply same_graph_refl.
Qed.

Ltac new_objects :=
  apply wf_heap_app; [assumption|];
  let k := fresh "k" in let x := fresh "x" in let E := fresh "E" in
  intros k x E;
  repeat (destruct k as [|k]; [injection E as <-|]);
  [ .. | destruct k; discriminate E ];
  rewrite ?Nat.add_0_r; apply wf_fresh; simpl;
  repeat match goal with
         | |- forall _, _ -> _ => intros ? ?
         | H : _ \/ _ |- _ => destruct H
         | H : False |- _ => destruct H
         | H : Some _ = Some _ |- _ => injection H as <-
         | H : None = Some _ |- _ => discriminate H
         end; subst; auto; try lia.

Lemma perform_wf a h : wf_heap h -> possible h a -> wf_heap (perform rt a h).
Proof.
  intros Hwf Hp. destruct a; cbn [perform possible] in *.
  - rewrite Value_init_spec. simpl. new_objects.
  - destruct Hp as [Hs Ho]. destruct other as [x|o]; simpl in Ho.
    + rewrite add_Num_spec by assumption. simpl. new_objects.
    + rewrite add_Ref_spec. simpl. new_objects.
  - destruct Hp as [Hs Ho]. destruct other as [x|o]; simpl in Ho.
    + rewrite mul_Num_spec by assumption. simpl. new_objects.
    + rewrite mul_Ref_spec. simpl. new_objects.
  - destruct Hp as [Hs Ho]. destruct other as [x|o]; simpl in Ho.
    + rewrite pow_Num_spec.
      destruct (PyFloat.pow rt (data_of h self) x); simpl; [|assumption].
      new_objects.
    + assumption.
  - rewrite neg_spec by assumption. simpl. new_objects.
  - destruct Hp as [Hs Ho]. destruct other as [x|o]; simpl in Ho.
    + rewrite sub_Num_spec by assumption. simpl. new_objects.
    + rewrite sub_Ref_spec by assumption. simpl. new_objects.
  - rewrite rsub_spec by assumption. simpl. new_objects.
  - destruct Hp as [Hs Ho]. destruct other as [x|o]; simpl in Ho.
    + rewrite truediv_Num_spec by assumption.
      destruct (PyFloat.pow rt x (-1)); simpl; [|assumption].
      new_objects.
    + rewrite truediv_Ref_spec by assumption.
      destruct (PyFloat.pow rt (data_of h o) (-1)); simpl; [|assumption].
      new_objects.
  - rewrite rtruediv_spec.
    destruct (PyFloat.pow rt (data_of h self) (-1)); simpl; [|assumption].
    new_objects.
  - rewrite tanh_spec.
    destruct (PyFloat.math_exp rt (2 * data_of h self)); simpl; [|assumption].
    destruct (PyFloat.truediv (a - 1) (a + 1)); simpl; [|assumption].
    new_objects.
  - rewrite exp_spec.
    destruct (PyFloat.math_exp rt (data_of h self)); simpl; [|assumption].
    new_objects.
  - eapply wf_heap_same_graph; [apply backward_same_graph | assumption].
  - eapply wf_heap_same_graph; [apply same_graph_set_grad | assumption].
  - intros w x E. destruct (Nat.eq_dec v w) as [->|Hne].
    + rewrite nth_error_update_eq in E.
      destruct (nth_error h w) as [y|] eqn:Ey; [|discriminate].
      injection E as <-. destruct (Hwf _ _ Ey). constructor; assumption.
    + rewrite nth_error_update_ne in E by assumption. eauto.
Qed.

(** The stores programs build are acyclic graphs. *)
Lemma built_wf h : built rt h -> wf_heap h.
Proof.
  induction 1 as [|h a _ IH Hp]; [apply wf_heap_nil | now apply perform_wf].
Qed.

End Programs.

Ltac either_set_order :=
  repeat match goal with
         | |- context [iter_swap ?r ?n] => destruct (iter_swap r n)
         end.

(** ** The traversal order *)

(** C2: for every graph built from the public operations, the traversal of
    [backward] ends, the order it builds holds every object reachable from
    the terminal exactly once and nothing else, every operand of an object
    stands strictly before the object, and [backward] replays this order
    reversed. *)
Theorem topological_order rt h t :
  built rt h -> t < length h ->
  (exists visited,
     build_topo (S (length h)) h t ([], []) = Some (visited, topo_order h t)) /\
  (forall v, reachable h t v -> count_occ Nat.eq_dec (topo_order h t) v = 1) /\
  (forall v, In v (topo_order h t) -> reachable h t v) /\
  (forall l1 v l2 c,
     topo_order h t = l1 ++ v :: l2 -> In c (prev_of h v) ->
     In c l1 /\ ~ In c (v :: l2)) /\
  backward rt t h = replay rt (rev (topo_order h t)) (set_grad t 1 h).
Proof.
  intros Hb Ht. pose proof (built_wf Hb) as Hwf.
  destruct (topo_order_spec Hwf Ht) as (visited & E & Hnd & Hof & Hreach).
  split; [now exists visited|]. split; [|split; [|split]].
  - intros v Hv. apply NoDup_count_occ'; [assumption | now apply Hreach].
  - intros v Hv. now apply Hreach.
  - intros l1 v l2 c El Hc.
    assert (Hin : In c l1) by exact (Hof l1 v l2 El c Hc).
    split; [assumption|]. rewrite El in Hnd. eapply strictly_before; eassumption.
  - now apply backward_unfold.
Qed.

(** ** Accumulation *)

Section Accumulation.

Variable rt : PyRuntime.

Local Open Scope float_scope.

Lemma flat_map_nil (f : nat -> list float) order :
  (forall u, In u order -> f u = []) -> flat_map f order = [].
Proof.
  induction order as [|u rest IH]; intros Hf; [reflexivity|].
  simpl. rewrite (Hf u) by now left.
  apply IH. intros w Hw. apply Hf. now right.
Qed.

Lemma flat_map_only (f : nat -> list float) order t :
  NoDup order -> In t order ->
  (forall u, In u order -> u <> t -> f u = []) ->
  flat_map f order = f t.
Proof.
  induction order as [|u rest IH]; intros Hnd Hin Hf; [destruct Hin|].
  inversion Hnd as [|? ? Hu Hnd']; subst. simpl.
  destruct Hin as [->|Hin].
  - rewrite flat_map_nil; [apply app_nil_r|].
    intros w Hw. apply Hf; [now right|]. intros ->. contradiction.
  - rewrite (Hf u); [|now left | intros ->; contradiction].
    simpl. apply IH; auto. intros w Hw. apply Hf. now right.
Qed.

Lemma closures_defined_same_graph h h' t :
  same_graph h h' -> closures_defined rt h t -> closures_defined rt h' t.
Proof.
  intros Hsg Hdef u Hu.
  assert (Hsg' : same_graph h' h).
  { destruct Hsg as [Hl Hf]. split; [congruence|].
    intros v. destruct (Hf v) as (-> & -> & ->). auto. }
  destruct (proj2 Hsg u) as (_ & _ & ->).
  eapply same_graph_closure_defined; eauto.
  apply Hdef. eapply same_graph_reachable; eauto.
Qed.

(** An object whose only consumer is the terminal gets the contributions
    of the terminal's closure, computed from [grad] 1.0, and no other. *)
Lemma backward_direct_operand h t x :
  wf_heap h -> t < length h -> closures_defined rt h t -> x <> t ->
  (forall u, reachable h t u ->
             In x (closure_operands (backward_of h u)) -> u = t) ->
  exists h',
    backward rt t h = (h', Ok tt) /\ same_graph h h' /\
    grad_of h' x =
    fold_left add (contributions rt (set_grad t 1 h) (backward_of h t) x)
              (grad_of h x).
Proof.
  intros Hwf Ht Hdef Hx Honly.
  destruct (backward_spec Hwf Ht Hdef) as (h' & E & Hsg & Ht1 & Hg).
  exists h'. split; [assumption|]. split; [assumption|].
  rewrite (Hg x Hx). f_equal.
  destruct (topo_order_spec Hwf Ht) as (_ & _ & Hnd & _ & Hreach).
  unfold replay_contributions.
  rewrite flat_map_only with (t := t).
  - destruct (proj2 Hsg t) as (_ & _ & ->).
    apply contributions_ext.
    + intros w. rewrite data_of_set_grad. apply (proj2 Hsg w).
    + intros o Eo.
      assert (o = t) as ->.
      { unfold backward_of in Eo.
        destruct (nth_error h t) as [y|] eqn:Ey; [|discriminate].
        apply (wf_out (Hwf _ _ Ey)), Eo. }
      now rewrite grad_of_set_grad_eq by assumption.
  - now apply NoDup_rev.
  - apply in_rev. rewrite rev_involutive. apply Hreach. constructor.
  - intros u Hu Hne. apply contributions_not_operand.
    intros Hin. apply Hne. apply Honly.
    + apply Hreach. now apply in_rev.
    + destruct (proj2 Hsg u) as (_ & _ & Hb). now rewrite <- Hb.
Qed.

(** Only the consumers of [v] matter to what a replay adds to [v.grad]. *)
Lemma flat_map_filter (f : nat -> list float) (p : nat -> bool) order :
  (forall u, In u order -> p u = false -> f u = []) ->
  flat_map f order = flat_map f (filter p order).
Proof.
  induction order as [|u rest IH]; intros Hf; simpl; [reflexivity|].
  rewrite IH by (intros w Hw; apply Hf; now right).
  destruct (p u) eqn:E; simpl; [reflexivity|].
  rewrite (Hf u); [reflexivity | now left | assumption].
Qed.

(** A closure that returns adds to each of its operands. *)
Lemma contributions_operand h c v :
  In v (closure_operands c) -> closure_defined rt h c ->
  contributions rt h c v <> [].
Proof.
  destruct c as [|s o out|s o out|s k out|s t out|s out]; simpl;
    intros Hin Hdef.
  - destruct Hin.
  - destruct Hin as [ -> | [ -> | [] ] ]; rewrite Nat.eqb_refl;
      [discriminate|]. now destruct (Nat.eqb s v).
  - destruct Hin as [ -> | [ -> | [] ] ]; rewrite Nat.eqb_refl;
      [discriminate|]. now destruct (Nat.eqb s v).
  - destruct Hdef as (p & ->). destruct Hin as [ -> | [] ].
    rewrite Nat.eqb_refl. discriminate.
  - destruct Hdef as (t2 & ->). destruct Hin as [ -> | [] ].
    rewrite Nat.eqb_refl. discriminate.
  - destruct Hin as [ -> | [] ]. rewrite Nat.eqb_refl. discriminate.
Qed.

(** The consumers of [v] under [t], in the order [backward] calls them. *)
Lemma backward_consumers h t :
  wf_heap h -> t < length h -> closures_defined rt h t ->
  exists h',
    backward rt t h = (h', Ok tt) /\ same_graph h h' /\
    grad_of h' t = 1 /\
    forall v, v <> t ->
      exists consumers,
        NoDup consumers /\
        (forall u, In u consumers <->
                   reachable h t u /\
                   In v (closure_operands (backward_of h u))) /\
        (forall u, In u consumers ->
                   contributions rt h' (backward_of h u) v <> []) /\
        grad_of h' v =
        fold_left add
          (flat_map (fun u => contributions rt h' (backward_of h u) v)
                    consumers)
          (grad_of h v).
Proof.
  intros Hwf Ht Hdef.
  destruct (backward_spec Hwf Ht Hdef) as (h' & E & Hsg & Ht1 & Hg).
  destruct (topo_order_spec Hwf Ht) as (_ & _ & Hnd & _ & Hreach).
  exists h'. split; [assumption|]. split; [assumption|].
  split; [assumption|]. intros v Hv.
  set (uses := fun u =>
         existsb (Nat.eqb v) (closure_operands (backward_of h u))).
  assert (Huses : forall u, uses u = true <->
                            In v (closure_operands (backward_of h u))).
  { intros u. unfold uses. rewrite existsb_exists. split.
    - intros (x & Hx & Ex). apply Nat.eqb_eq in Ex. now subst.
    - intros Hin. exists v. split; [assumption | apply Nat.eqb_refl]. }
  exists (filter uses (rev (topo_order h t))).
  split; [apply NoDup_filter; now apply NoDup_rev|]. split.
  { intros u. rewrite filter_In, <- in_rev, Hreach, Huses. tauto. }
  split.
  { intros u Hu. apply filter_In in Hu as [Hu Hin].
    apply in_rev, Hreach in Hu. apply Huses in Hin.
    apply contributions_operand; [assumption|].
    eapply same_graph_closure_defined; eauto. }
  rewrite (Hg v Hv). f_equal. unfold replay_contributions.
  rewrite (flat_map_filter _ uses).
  - apply flat_map_ext. intros u.
    destruct (proj2 Hsg u) as (_ & _ & ->). reflexivity.
  - intros u _ Hno. apply contributions_not_operand.
    destruct (proj2 Hsg u) as (_ & _ & ->).
    intros Hin. apply Huses in Hin. congruence.
Qed.

End Accumulation.

(** C1: in every graph built from the public operations, [backward] from a
    terminal returns (when the powers its closures compute have a value),
    seeds the terminal's [grad] with 1.0 and leaves in the [grad] of every
    other object [v] what was there before, plus, added one after the other,
    what its consumers add.  The consumers are the objects under the
    terminal whose closure has [v] as an operand, each of them once and
    none of them left out, whatever the traversal did; each adds something,
    computed from its own final [grad]: a sum over all of them, not the
    last of them.  For [a = Value(3.0); b = a * a], [backward] from [b]
    leaves [a.grad == 6.0], which is not 3.0. *)
Theorem shared_operand_accumulates rt :
  (forall h t,
     built rt h -> t < length h -> closures_defined rt h t ->
     exists h',
       backward rt t h = (h', Ok tt) /\ same_graph h h' /\
       grad_of h' t = 1%float /\
       forall v, v <> t ->
         exists consumers,
           NoDup consumers /\
           (forall u, In u consumers <->
                      reachable h t u /\
                      In v (closure_operands (backward_of h u))) /\
           (forall u, In u consumers ->
                      contributions rt h' (backward_of h u) v <> []) /\
           grad_of h' v =
           fold_left PrimFloat.add
             (flat_map (fun u => contributions rt h' (backward_of h u) v)
                       consumers)
             (grad_of h v)) /\
  (snd (square_scenario rt []) = Ok [0; 1] /\
   map data (fst (square_scenario rt [])) = [3; 9]%float /\
   map grad (fst (square_scenario rt [])) = [6; 1]%float /\
   PrimFloat.eqb 6 3 = false).
Proof.
  split.
  - intros h t Hb Ht Hdef.
    apply backward_consumers; [exact (built_wf Hb) | assumption | assumption].
  - cbv -[backward iter_swap]. either_set_order.
    all: vm_compute; repeat split; reflexivity.
Qed.

(** ** The literal scenarios *)

(** C3 as stated fails: [L.data] is -8.0, and -8.0 is not 4.0. *)
Lemma affine_L_data_is_not_4 :
  (forall rt, data_of (fst (affine_scenario rt [])) 6 = (-8)%float) /\
  PrimFloat.eqb (-8) 4 = false.
Proof.
  split; [|reflexivity]. intros rt.
  cbv -[backward iter_swap]. either_set_order. all: reflexivity.
Qed.

(** C3, amended: in the affine scenario the forward values are [d = -6.0],
    [e = 4.0], [L = -8.0], and after [L.backward()] the gradients are
    [a.grad == 6.0], [b.grad == -4.0], [c.grad == -2.0], [d.grad == -2.0],
    [e.grad == -2.0], [f.grad == 4.0] (and [L.grad == 1.0]). *)
Theorem affine_scenario_values rt :
  snd (affine_scenario rt []) = Ok [0; 1; 2; 3; 4; 5; 6] /\
  map data (fst (affine_scenario rt [])) = [2; -3; 10; -6; 4; -2; -8]%float /\
  map grad (fst (affine_scenario rt [])) = [6; -4; -2; -2; -2; 4; 1]%float.
Proof.
  cbv -[backward iter_swap]. either_set_order.
  all: vm_compute; repeat split; reflexivity.
Qed.

(** C4 as stated fails: [x.grad] is 16.0, and 16.0 is not 32.0. *)
Lemma diamond_x_grad_is_not_32 :
  (forall rt, grad_of (fst (diamond_scenario rt [])) 0 = 16%float) /\
  PrimFloat.eqb 16 32 = false.
Proof.
  split; [|reflexivity]. intros rt.
  cbv -[backward iter_swap]. either_set_order. all: reflexivity.
Qed.

(** C4, amended: in the diamond graph [x = Value(2.0); y = x + x;
    z = y * y], [backward] from [z] gives [x.grad == 16.0]: [y.grad] is 8.0,
    the two contributions 4.0 of [z], and [x.grad] the two contributions 8.0
    of [y]. *)
Theorem diamond_scenario_values rt :
  snd (diamond_scenario rt []) = Ok [0; 1; 2] /\
  map data (fst (diamond_scenario rt [])) = [2; 4; 16]%float /\
  map grad (fst (diamond_scenario rt [])) = [16; 8; 1]%float.
Proof.
  cbv -[backward iter_swap]. either_set_order.
  all: vm_compute; repeat split; reflexivity.
Qed.

(** ** Calling [backward] again *)

(** C5 as stated fails: for [x = Value(1.0); z = (x * 2.0) * 3.0], [x.grad]
    is 6.0 after one [z.backward()] and 18.0 after two, and 18.0 is not
    two times 6.0. *)
Lemma chain_gradient_is_not_doubled :
  (forall rt, grad_of (fst (chain_scenario rt 1 [])) 0 = 6%float) /\
  (forall rt, grad_of (fst (chain_scenario rt 2 [])) 0 = 18%float) /\
  PrimFloat.eqb 18 (2 * 6) = false.
Proof.
  split; [|split; [|reflexivity]]; intros rt.
  - cbv -[backward iter_swap]. either_set_order. all: reflexivity.
  - cbv -[backward iter_swap]. either_set_order. all: reflexivity.
Qed.

(** C5, amended: [backward] does not reset gradients before it runs; a
    second call in succession seeds the terminal's [grad] with 1.0 again and
    adds its contributions to what the first call left.  For an object whose
    only consumer is the terminal, the second call adds the very
    contributions the first added; when that is one contribution and the
    [grad] was 0.0 at first, the [grad] after two calls is 2 times the
    [grad] after one call.  For [a = Value(2.0); b = Value(-3.0); d = a * b],
    [a.grad] is -3.0 and then -6.0, [b.grad] is 2.0 and then 4.0.  (Objects
    behind other objects get more than that, their consumers' [grad] having
    grown too.) *)
Theorem repeated_backward_accumulates rt :
  (forall h t x,
     built rt h -> t < length h -> closures_defined rt h t -> x <> t ->
     (forall u, reachable h t u ->
                In x (closure_operands (backward_of h u)) -> u = t) ->
     let added := contributions rt (set_grad t 1 h) (backward_of h t) x in
     exists h1 h2,
       backward rt t h = (h1, Ok tt) /\
       backward rt t h1 = (h2, Ok tt) /\
       grad_of h1 x = fold_left PrimFloat.add added (grad_of h x) /\
       grad_of h2 x = fold_left PrimFloat.add added (grad_of h1 x) /\
       grad_of h1 t = 1%float /\ grad_of h2 t = 1%float /\
       (forall c, added = [c] -> grad_of h x = 0%float ->
                  grad_of h2 x = (2 * grad_of h1 x)%float)) /\
  (map grad (fst (product_scenario rt 1 [])) = [-3; 2; 1]%float /\
   map grad (fst (product_scenario rt 2 [])) = [-6; 4; 1]%float).
Proof.
  split.
  - intros h t x Hb Ht Hdef Hx Honly added.
    pose proof (built_wf Hb) as Hwf.
    destruct (backward_direct_operand Hwf Ht Hdef Hx Honly)
      as (h1 & E1 & Hsg1 & Hg1).
    assert (Hwf1 : wf_heap h1) by (eapply wf_heap_same_graph; eauto).
    assert (Ht1 : t < length h1) by (rewrite (proj1 Hsg1); exact Ht).
    assert (Hdef1 : closures_defined rt h1 t)
      by (eapply closures_defined_same_graph; eauto).
    assert (Hsg1' : same_graph h1 h).
    { destruct Hsg1 as [Hl Hf]. split; [congruence|].
      intros v. destruct (Hf v) as (-> & -> & ->). auto. }
    assert (Honly1 : forall u, reachable h1 t u ->
               In x (closure_operands (backward_of h1 u)) -> u = t).
    { intros u Hu Hin. apply Honly.
      - eapply same_graph_reachable; eauto.
      - destruct (proj2 Hsg1 u) as (_ & _ & Hbw). now rewrite <- Hbw. }
    destruct (backward_direct_operand Hwf1 Ht1 Hdef1 Hx Honly1)
      as (h2 & E2 & Hsg2 & Hg2).
    assert (Hg2' : grad_of h2 x = fold_left PrimFloat.add added (grad_of h1 x)).
    { rewrite Hg2. f_equal. unfold added.
      destruct (proj2 Hsg1 t) as (_ & _ & ->).
      apply contributions_ext.
      * intros w. rewrite !data_of_set_grad. apply (proj2 Hsg1 w).
      * intros o Eo.
        assert (o = t) as ->.
        { unfold backward_of in Eo.
          destruct (nth_error h t) as [y|] eqn:Ey; [|discriminate].
          apply (wf_out (Hwf _ _ Ey)), Eo. }
        now rewrite !grad_of_set_grad_eq by assumption. }
    exists h1, h2. split; [assumption|]. split; [assumption|].
    split; [exact Hg1|]. split; [exact Hg2'|]. split; [|split].
    + destruct (backward_spec Hwf Ht Hdef) as (h1' & E1' & _ & G1 & _).
      congruence.
    + destruct (backward_spec Hwf1 Ht1 Hdef1) as (h2' & E2' & _ & G2 & _).
      congruence.
    + intros c Ec E0. rewrite Hg2', Hg1. fold added. rewrite Ec, E0. simpl.
      apply FloatFacts.added_twice.
  - split.
    + cbv -[backward iter_swap]. either_set_order. all: reflexivity.
    + cbv -[backward iter_swap]. either_set_order. all: reflexivity.
Qed.


(** ** Identity, not value *)

Section Identity.

Variable rt : PyRuntime.

Local Open Scope float_scope.

Lemma leaf_closure h v :
  wf_heap h -> prev_of h v = [] -> backward_of h v = no_backward.
Proof.
  intros Hwf Hp. unfold prev_of in Hp. unfold backward_of.
  destruct (nth_error h v) as [x|] eqn:E; [|reflexivity].
  pose proof (wf_operands (Hwf _ _ E)) as Ho. rewrite Hp in Ho.
  destruct (_backward x); simpl in Ho; try reflexivity;
    exfalso; apply (Ho self); now left.
Qed.

Lemma leaf_reaches_itself h v w :
  prev_of h v = [] -> reachable h v w -> w = v.
Proof.
  intros Hp Hr. inversion Hr as [|? c ? Hc _]; subst; [reflexivity|].
  rewrite Hp in Hc. destruct Hc.
Qed.

Lemma nth_error_last (h : heap) x : nth_error (h ++ [x]) (length h) = Some x.
Proof. rewrite nth_error_app2, Nat.sub_diag by lia. reflexivity. Qed.

End Identity.

(** C6: two distinct leaves with equal [data] are two operands of their sum
    and two vertices of its traversal, and each gets its own gradient: from
    [grad] 0.0, [a.grad == 1.0] and [b.grad == 1.0] after [backward] on
    [a + b]. *)
Theorem equal_data_distinct_objects rt h a b :
  built rt h -> a < length h -> b < length h -> a <> b ->
  prev_of h a = [] -> prev_of h b = [] ->
  data_of h a = data_of h b ->
  grad_of h a = 0%float -> grad_of h b = 0%float ->
  exists h1 h2,
    __add__ rt a (Ref b) h = (h1, Ok (length h)) /\
    In a (prev_of h1 (length h)) /\ In b (prev_of h1 (length h)) /\
    length (prev_of h1 (length h)) = 2 /\
    count_occ Nat.eq_dec (topo_order h1 (length h)) a = 1 /\
    count_occ Nat.eq_dec (topo_order h1 (length h)) b = 1 /\
    backward rt (length h) h1 = (h2, Ok tt) /\
    grad_of h2 a = 1%float /\ grad_of h2 b = 1%float.
Proof.
  intros Hb Ha Hbb Hab Hpa Hpb Hd Hga Hgb.
  pose proof (built_wf Hb) as Hwf.
  set (s := length h).
  set (x := fresh rt s (data_of h a + data_of h b)%float [a; b] op_add
                  (add_backward a b s)).
  set (h1 := h ++ [x]).
  assert (E1 : __add__ rt a (Ref b) h = (h1, Ok s)) by apply add_Ref_spec.
  assert (Hwf1 : wf_heap h1).
  { change h1 with (fst (h1, @Ok nat s)). rewrite <- E1.
    apply (@perform_wf rt (do_add a (Ref b)) h Hwf). simpl. auto. }
  assert (Hs : s < length h1) by (unfold h1; rewrite length_app; simpl; lia).
  assert (Hps : prev_of h1 s = pyset (iter_swap rt s) [a; b]).
  { unfold prev_of, h1, s. now rewrite nth_error_last. }
  assert (Hbs : backward_of h1 s = add_backward a b s).
  { unfold backward_of, h1, s. now rewrite nth_error_last. }
  assert (Hpa1 : prev_of h1 a = []) by (unfold h1; now rewrite prev_of_old).
  assert (Hpb1 : prev_of h1 b = []) by (unfold h1; now rewrite prev_of_old).
  assert (Hina : In a (prev_of h1 s)).
  { rewrite Hps. apply In_pyset. now left. }
  assert (Hinb : In b (prev_of h1 s)).
  { rewrite Hps. apply In_pyset. right. now left. }
  assert (Hreach : forall u, reachable h1 s u -> u = s \/ u = a \/ u = b).
  { intros u Hu. inversion Hu as [|? c ? Hc Hr]; subst; [now left|].
    rewrite Hps in Hc. apply In_pyset in Hc. destruct Hc as [ <- | [ <- | [] ] ].
    - right. left. eapply leaf_reaches_itself; eauto.
    - right. right. eapply leaf_reaches_itself; eauto. }
  assert (Hdef : closures_defined rt h1 s).
  { intros u Hu. apply Hreach in Hu. destruct Hu as [ -> | [ -> | -> ] ].
    - rewrite Hbs. exact I.
    - rewrite (leaf_closure _ Hwf1 Hpa1). exact I.
    - rewrite (leaf_closure _ Hwf1 Hpb1). exact I. }
  assert (Honly : forall y, (y = a \/ y = b) -> forall u, reachable h1 s u ->
             In y (closure_operands (backward_of h1 u)) -> u = s).
  { intros y Hy u Hu Hin. apply Hreach in Hu. destruct Hu as [ -> | [ -> | -> ] ].
    - reflexivity.
    - rewrite (leaf_closure _ Hwf1 Hpa1) in Hin. destruct Hin.
    - rewrite (leaf_closure _ Hwf1 Hpb1) in Hin. destruct Hin. }
  assert (Has : a <> s) by (unfold s; lia).
  assert (Hbs' : b <> s) by (unfold s; lia).
  destruct (backward_direct_operand Hwf1 Hs Hdef Has (Honly a (or_introl eq_refl)))
    as (h2 & E2 & Hsg2 & Hg2a).
  destruct (backward_direct_operand Hwf1 Hs Hdef Hbs' (Honly b (or_intror eq_refl)))
    as (h2' & E2' & _ & Hg2b).
  assert (h2' = h2) by congruence. subst h2'.
  destruct (topo_order_spec Hwf1 Hs) as (_ & _ & Hnd & _ & Htopo).
  exists h1, h2. split; [exact E1|].
  split; [assumption|]. split; [assumption|]. split.
  { rewrite Hps. unfold pyset. simpl.
    destruct (Nat.eq_dec a b) as [->|_]; [contradiction|].
    destruct (Nat.eq_dec b a) as [->|_]; [contradiction|].
    simpl. now destruct (iter_swap rt s). }
  split.
  { apply NoDup_count_occ'; [assumption|]. apply Htopo.
    eapply reach_step; [exact Hina | constructor]. }
  split.
  { apply NoDup_count_occ'; [assumption|]. apply Htopo.
    eapply reach_step; [exact Hinb | constructor]. }
  split; [exact E2|].
  rewrite Hbs in Hg2a, Hg2b. simpl in Hg2a, Hg2b.
  rewrite Nat.eqb_refl in Hg2a, Hg2b.
  destruct (Nat.eqb_spec b a) as [->|_]; [contradiction|].
  destruct (Nat.eqb_spec a b) as [->|_]; [contradiction|].
  simpl in Hg2a, Hg2b.
  rewrite grad_of_set_grad_eq in Hg2a, Hg2b by assumption.
  unfold h1 in Hg2a, Hg2b.
  rewrite grad_of_old in Hg2a, Hg2b by assumption.
  rewrite Hga in Hg2a. rewrite Hgb in Hg2b.
  split; assumption.
Qed.

(** ** Power and division *)




(** C8 as stated fails: [a / b] with [b.data] 0.0 (or -0.0) raises
    [ZeroDivisionError]; there is no result, non-finite or other. *)
Lemma divide_by_zero_raises_here :
  (forall rt,
     __truediv__ rt 0 (Ref 1) [one_leaf; zero_leaf]
     = ([one_leaf; zero_leaf], Raise ZeroDivisionError)) /\
  (forall rt,
     __truediv__ rt 0 (Num (-0)) [one_leaf]
     = ([one_leaf], Raise ZeroDivisionError)).
Proof. split; intros rt; reflexivity. Qed.

(** C8, amended: [a / b] with [b] a zero ([b.data == 0], or the number 0)
    raises [ZeroDivisionError] from the power [b ** -1], at construction
    time: the store is left as it was, with no new object and no non-finite
    value in it. *)
Theorem divide_by_zero_raises rt h a b :
  PrimFloat.eqb (value_of h b) 0 = true ->
  __truediv__ rt a b h = (h, Raise ZeroDivisionError).
Proof.
  intros E. destruct b as [x|o]; simpl in E; unfold __truediv__.
  - unfold bind, lift. now rewrite (FloatFacts.pow_zero_neg1 rt E).
  - unfold bind. rewrite pow_Num_spec.
    now rewrite (FloatFacts.pow_zero_neg1 rt E).
Qed.

(** ** What an operation allocates *)

Section Allocation.

Variable rt : PyRuntime.

Local Open Scope float_scope.


End Allocation.



(** ** A number on the left of [-] and [/] *)

Section Reflected.

Variable rt : PyRuntime.

Local Open Scope float_scope.

(** The closures of a sum and of a product do the same to every [grad]
    whichever operand is [self] and whichever is [other]. *)
Lemma add_backward_swap s o out h v :
  s <> out -> o <> out -> s < length h -> o < length h ->
  grad_of (fst (call rt (add_backward s o out) h)) v =
  grad_of (fst (call rt (add_backward o s out) h)) v.
Proof.
  intros Hs Ho Hsl Hol.
  destruct (@call_spec rt h (add_backward s o out)) as (h1 & E1 & _ & G1);
    [exact I | | |].
  { intros x [= <-] [?|[?|[]]]; congruence. }
  { intros x [<-|[<-|[]]]; assumption. }
  destruct (@call_spec rt h (add_backward o s out)) as (h2 & E2 & _ & G2);
    [exact I | | |].
  { intros x [= <-] [?|[?|[]]]; congruence. }
  { intros x [<-|[<-|[]]]; assumption. }
  rewrite E1, E2, G1, G2. simpl.
  destruct (Nat.eqb_spec s v), (Nat.eqb_spec o v); reflexivity.
Qed.

Lemma mul_backward_swap s o out h v :
  s <> out -> o <> out -> s < length h -> o < length h ->
  grad_of (fst (call rt (mul_backward s o out) h)) v =
  grad_of (fst (call rt (mul_backward o s out) h)) v.
Proof.
  intros Hs Ho Hsl Hol.
  destruct (@call_spec rt h (mul_backward s o out)) as (h1 & E1 & _ & G1);
    [exact I | | |].
  { intros x [= <-] [?|[?|[]]]; congruence. }
  { intros x [<-|[<-|[]]]; assumption. }
  destruct (@call_spec rt h (mul_backward o s out)) as (h2 & E2 & _ & G2);
    [exact I | | |].
  { intros x [= <-] [?|[?|[]]]; congruence. }
  { intros x [<-|[<-|[]]]; assumption. }
  rewrite E1, E2, G1, G2. simpl.
  destruct (Nat.eqb_spec s v), (Nat.eqb_spec o v); subst; reflexivity.
Qed.

Lemma number_minus_spec c a h :
  a < length h ->
  let n := length h in
  number_minus rt c a h =
  (h ++ [fresh rt n (-1) [] op_leaf no_backward;
         fresh rt (n + 1) (- data_of h a) [a; n] op_mul
               (mul_backward a n (n + 1));
         fresh rt (n + 2) c [] op_leaf no_backward;
         fresh rt (n + 3) (c - data_of h a) [(n + 1)%nat; (n + 2)%nat]
               op_add (add_backward (n + 1) (n + 2) (n + 3))],
   Ok (n + 3)%nat).
Proof.
  intros Ha n. unfold number_minus. rewrite rsub_spec by assumption.
  cbv zeta. now rewrite FloatFacts.neg_plus_is_minus, FloatFacts.mul_neg1.
Qed.

Lemma explicit_minus_spec c a h :
  a < length h ->
  let n := length h in
  explicit_minus rt c a h =
  (h ++ [fresh rt n c [] op_leaf no_backward;
         fresh rt (n + 1) (-1) [] op_leaf no_backward;
         fresh rt (n + 2) (- data_of h a) [a; (n + 1)%nat] op_mul
               (mul_backward a (n + 1) (n + 2));
         fresh rt (n + 3) (c - data_of h a) [n; (n + 2)%nat]
               op_add (add_backward n (n + 2) (n + 3))],
   Ok (n + 3)%nat).
Proof.
  intros Ha n. subst n. unfold explicit_minus. unfold bind at 1.
  rewrite Value_init_spec.
  rewrite sub_Ref_spec by (rewrite length_app; simpl; lia).
  heap_norm.
  now rewrite FloatFacts.plus_neg_is_minus, FloatFacts.mul_neg1.
Qed.

Lemma number_over_spec c a h :
  let n := length h in
  number_over rt c a h =
  match PyFloat.pow rt (data_of h a) (-1) with
  | Ok p =>
      (h ++ [fresh rt n p [a] (op_pow (-1)) (pow_backward a (-1) n);
             fresh rt (n + 1) c [] op_leaf no_backward;
             fresh rt (n + 2) (c * p) [n; (n + 1)%nat] op_mul
                   (mul_backward n (n + 1) (n + 2))],
       Ok (n + 2)%nat)
  | Raise e => (h, Raise e)
  end.
Proof.
  intros n. unfold number_over. rewrite rtruediv_spec. cbv zeta.
  destruct (PyFloat.pow rt (data_of h a) (-1)); [|reflexivity].
  now rewrite (FloatFacts.mul_comm a0 c).
Qed.

Lemma explicit_over_spec c a h :
  a < length h ->
  let n := length h in
  explicit_over rt c a h =
  match PyFloat.pow rt (data_of h a) (-1) with
  | Ok p =>
      (h ++ [fresh rt n c [] op_leaf no_backward;
             fresh rt (n + 1) p [a] (op_pow (-1))
                   (pow_backward a (-1) (n + 1));
             fresh rt (n + 2) (c * p) [n; (n + 1)%nat] op_mul
                   (mul_backward n (n + 1) (n + 2))],
       Ok (n + 2)%nat)
  | Raise e => (h ++ [fresh rt n c [] op_leaf no_backward], Raise e)
  end.
Proof.
  intros Ha n. subst n. unfold explicit_over. unfold bind at 1.
  rewrite Value_init_spec.
  rewrite truediv_Ref_spec by (rewrite length_app; simpl; lia).
  heap_norm.
  destruct (PyFloat.pow rt (data_of h a) (-1)); [|reflexivity].
  heap_norm. reflexivity.
Qed.

End Reflected.

(** C10 as stated fails: [c / a] is not accepted for every [a], it raises
    [ZeroDivisionError] when [a.data] is a zero; and where it returns, its
    [data] is the product [c * a.data**-1], which is not always the float
    [c / a.data]: with [10.0 ** -1] the float nearest to 1/10,
    [3.0 / Value(10.0)] has [data] [3.0 * 0.1], and that is not
    [3.0 / 10.0]. *)
Lemma number_over_is_not_float_division :
  (forall rt c,
     number_over rt c 0 [zero_leaf] = ([zero_leaf], Raise ZeroDivisionError)) /\
  (forall rt,
     libm_pow rt 10 (-1) = (1 / 10)%float ->
     snd (number_over rt 3 0 [ten_leaf]) = Ok 3 /\
     data_of (fst (number_over rt 3 0 [ten_leaf])) 3 = (3 * (1 / 10))%float) /\
  PrimFloat.eqb (3 * (1 / 10)) (3 / 10) = false.
Proof.
  split; [|split; [|reflexivity]].
  - intros rt c. reflexivity.
  - intros rt E. rewrite number_over_spec. cbv zeta.
    assert (Ep : PyFloat.pow rt (data_of [ten_leaf] 0) (-1) = Ok (1 / 10)%float).
    { vm_compute. destruct rt as [sw lp le]. simpl in E. rewrite E.
      reflexivity. }
    rewrite Ep. split; reflexivity.
Qed.

(** C10, amended: with a number [c] on the left, [c - a] is accepted for
    every [a], wraps [c] as a fresh leaf and returns an object with [data]
    [c - a.data], the sum of the negation of [a] and of that leaf; [c / a]
    is accepted when [a.data ** -1] has a value [p] (it raises what the
    power raises otherwise, [ZeroDivisionError] at a zero), wraps [c] as a
    fresh leaf and returns an object with [data] [c * p], the product of the
    power and of that leaf.  [Value(c) - a] and [Value(c) / a] make the same
    objects with the same [data] and the same closures, but for the order
    of allocation and for which operand of the sum or the product is [self]
    and which is [other], which the closures of sums and products do not
    tell apart.  For [a = Value(2.0)], [backward] from [5.0 - a] and from
    [Value(5.0) - a] both leave [a.grad == -1.0]. *)
Theorem number_on_the_left rt h a c :
  a < length h ->
  let n := length h in
  number_minus rt c a h =
    (h ++ [fresh rt n (-1) [] op_leaf no_backward;
           fresh rt (n + 1) (- data_of h a) [a; n] op_mul
                 (mul_backward a n (n + 1));
           fresh rt (n + 2) c [] op_leaf no_backward;
           fresh rt (n + 3) (c - data_of h a) [n + 1; n + 2]
                 op_add (add_backward (n + 1) (n + 2) (n + 3))],
     Ok (n + 3)) /\
  explicit_minus rt c a h =
    (h ++ [fresh rt n c [] op_leaf no_backward;
           fresh rt (n + 1) (-1) [] op_leaf no_backward;
           fresh rt (n + 2) (- data_of h a) [a; n + 1] op_mul
                 (mul_backward a (n + 1) (n + 2));
           fresh rt (n + 3) (c - data_of h a) [n; n + 2]
                 op_add (add_backward n (n + 2) (n + 3))],
     Ok (n + 3)) /\
  number_over rt c a h =
    match PyFloat.pow rt (data_of h a) (-1) with
    | Ok p =>
        (h ++ [fresh rt n p [a] (op_pow (-1)) (pow_backward a (-1) n);
               fresh rt (n + 1) c [] op_leaf no_backward;
               fresh rt (n + 2) (c * p) [n; n + 1] op_mul
                     (mul_backward n (n + 1) (n + 2))],
         Ok (n + 2))
    | Raise e => (h, Raise e)
    end /\
  explicit_over rt c a h =
    match PyFloat.pow rt (data_of h a) (-1) with
    | Ok p =>
        (h ++ [fresh rt n c [] op_leaf no_backward;
               fresh rt (n + 1) p [a] (op_pow (-1))
                     (pow_backward a (-1) (n + 1));
               fresh rt (n + 2) (c * p) [n; n + 1] op_mul
                     (mul_backward n (n + 1) (n + 2))],
         Ok (n + 2))
    | Raise e => (h ++ [fresh rt n c [] op_leaf no_backward], Raise e)
    end /\
  (forall s o out g v,
     s <> out -> o <> out -> s < length g -> o < length g ->
     grad_of (fst (call rt (add_backward s o out) g)) v =
     grad_of (fst (call rt (add_backward o s out) g)) v /\
     grad_of (fst (call rt (mul_backward s o out) g)) v =
     grad_of (fst (call rt (mul_backward o s out) g)) v) /\
  (map data (fst (number_minus_scenario rt [])) = [2; -1; -2; 5; 3]%float /\
   map grad (fst (number_minus_scenario rt [])) = [-1; 2; 1; 1; 1]%float /\
   map data (fst (explicit_minus_scenario rt [])) = [2; 5; -1; -2; 3]%float /\
   map grad (fst (explicit_minus_scenario rt [])) = [-1; 1; 2; 1; 1]%float).
Proof.
  intros Ha n.
  split; [now apply number_minus_spec|].
  split; [now apply explicit_minus_spec|].
  split; [apply number_over_spec|].
  split; [now apply explicit_over_spec|].
  split.
  - intros s o out g v Hs Ho Hsl Hol.
    split; [now apply add_backward_swap | now apply mul_backward_swap].
  - cbv -[backward iter_swap]. either_set_order.
    all: vm_compute; repeat split; reflexivity.
Qed.

(** ** The theorems at concrete programs *)

(** The store a possible program leaves is one a program built. *)
Lemma run_built rt program :
  all_possible rt program [] -> built rt (run rt program).
Proof.
  unfold run. generalize (built_nil rt). generalize (@nil Value).
  induction program as [|a rest IH]; intros h Hb Hp; simpl in *.
  - exact Hb.
  - destruct Hp as [Hp Hrest]. apply IH; [|exact Hrest].
    now apply built_step.
Defined.

(** Without powers, every closure call returns. *)
Lemma power_free_defined rt h t : power_free h = true -> closures_defined rt h t.
Proof.
  intros Hpf u _. unfold backward_of.
  destruct (nth_error h u) as [x|] eqn:E; [|exact I].
  apply nth_error_In in E.
  unfold power_free in Hpf. rewrite forallb_forall in Hpf.
  specialize (Hpf x E). destruct (_backward x); try exact I; discriminate.
Defined.

(** Accumulation, at the store of [a = Value(3.0); b = a * a]. *)
Lemma shared_operand_accumulates_witness :
  built Example.runtime square_store /\
  1 < length square_store /\
  closures_defined Example.runtime square_store 1 /\
  exists h',
    backward Example.runtime 1 square_store = (h', Ok tt) /\
    same_graph square_store h' /\
    grad_of h' 1 = 1%float /\
    forall v, v <> 1 ->
      exists consumers,
        NoDup consumers /\
        (forall u, In u consumers <->
                   reachable square_store 1 u /\
                   In v (closure_operands (backward_of square_store u))) /\
        (forall u, In u consumers ->
                   contributions Example.runtime h'
                                 (backward_of square_store u) v <> []) /\
        grad_of h' v =
        fold_left PrimFloat.add
          (flat_map (fun u => contributions Example.runtime h'
                                            (backward_of square_store u) v)
                    consumers)
          (grad_of square_store v).
Proof.
  assert (Hb : built Example.runtime square_store).
  { apply run_built. simpl. repeat split; lia. }
  assert (Ht : 1 < length square_store) by (simpl; lia).
  assert (Hd : closures_defined Example.runtime square_store 1).
  { apply power_free_defined. reflexivity. }
  split; [exact Hb|]. split; [exact Ht|]. split; [exact Hd|].
  exact (proj1 (shared_operand_accumulates Example.runtime)
               square_store 1 Hb Ht Hd).
Defined.

(** The order of the affine scenario, operands first. *)
Lemma topological_order_witness :
  built Example.runtime affine_store /\
  6 < length affine_store /\
  (forall v, reachable affine_store 6 v ->
             count_occ Nat.eq_dec (topo_order affine_store 6) v = 1) /\
  topo_order affine_store 6 = [0; 1; 3; 2; 4; 5; 6].
Proof.
  assert (Hb : built Example.runtime affine_store).
  { apply run_built. simpl. repeat split; lia. }
  assert (Ht : 6 < length affine_store) by (simpl; lia).
  split; [exact Hb|]. split; [exact Ht|]. split; [|reflexivity].
  exact (proj1 (proj2 (topological_order Hb Ht))).
Defined.

(** Two calls of [backward] on [d = a * b], seen from [a]. *)
Lemma repeated_backward_accumulates_witness :
  built Example.runtime product_store /\
  exists h1 h2,
    backward Example.runtime 2 product_store = (h1, Ok tt) /\
    backward Example.runtime 2 h1 = (h2, Ok tt) /\
    grad_of h1 0 = fold_left PrimFloat.add [(-3 * 1)%float] (grad_of product_store 0) /\
    grad_of h2 0 = fold_left PrimFloat.add [(-3 * 1)%float] (grad_of h1 0) /\
    grad_of h1 2 = 1%float /\ grad_of h2 2 = 1%float /\
    (forall c, [(-3 * 1)%float] = [c] -> grad_of product_store 0 = 0%float ->
               grad_of h2 0 = (2 * grad_of h1 0)%float).
Proof.
  assert (Hb : built Example.runtime product_store).
  { apply run_built. simpl. repeat split; lia. }
  assert (Ht : 2 < length product_store) by (simpl; lia).
  assert (Hd : closures_defined Example.runtime product_store 2).
  { apply power_free_defined. reflexivity. }
  assert (Hx : 0 <> 2) by discriminate.
  assert (Honly : forall u, reachable product_store 2 u ->
            In 0 (closure_operands (backward_of product_store u)) -> u = 2).
  { intros u _. destruct u as [|[|[|u]]]; simpl; try tauto.
    destruct u; simpl; tauto. }
  split; [exact Hb|].
  exact (proj1 (repeated_backward_accumulates Example.runtime)
               product_store 2 0 Hb Ht Hd Hx Honly).
Defined.

(** Two leaves that are both 1.0. *)
Lemma equal_data_distinct_objects_witness :
  built Example.runtime twin_store /\
  data_of twin_store 0 = data_of twin_store 1 /\
  exists h1 h2,
    __add__ Example.runtime 0 (Ref 1) twin_store = (h1, Ok 2) /\
    In 0 (prev_of h1 2) /\ In 1 (prev_of h1 2) /\
    length (prev_of h1 2) = 2 /\
    count_occ Nat.eq_dec (topo_order h1 2) 0 = 1 /\
    count_occ Nat.eq_dec (topo_order h1 2) 1 = 1 /\
    backward Example.runtime 2 h1 = (h2, Ok tt) /\
    grad_of h2 0 = 1%float /\ grad_of h2 1 = 1%float.
Proof.
  assert (Hb : built Example.runtime twin_store).
  { apply run_built. simpl. repeat split; lia. }
  split; [exact Hb|]. split; [reflexivity|].
  apply (@equal_data_distinct_objects Example.runtime twin_store 0 1 Hb);
    try reflexivity; simpl; try lia.
Defined.


(** [Value(1.0) / Value(0.0)] *)
Lemma divide_by_zero_raises_witness :
  PrimFloat.eqb (value_of [one_leaf; zero_leaf] (Ref 1)) 0 = true /\
  __truediv__ Example.runtime 0 (Ref 1) [one_leaf; zero_leaf]
  = ([one_leaf; zero_leaf], Raise ZeroDivisionError).
Proof.
  split; [reflexivity|].
  apply (@divide_by_zero_raises Example.runtime [one_leaf; zero_leaf] 0 (Ref 1)).
  reflexivity.
Defined.


(** [5.0 - Value(2.0)] *)
Lemma number_on_the_left_witness :
  0 < length [two_leaf] /\
  number_minus Example.runtime 5 0 [two_leaf] =
    ([two_leaf] ++
       [fresh Example.runtime 1 (-1) [] op_leaf no_backward;
        fresh Example.runtime 2 (- data_of [two_leaf] 0) [0; 1] op_mul
              (mul_backward 0 1 2);
        fresh Example.runtime 3 5 [] op_leaf no_backward;
        fresh Example.runtime 4 (5 - data_of [two_leaf] 0) [2; 3] op_add
              (add_backward 2 3 4)],
     Ok 4).
Proof.
  assert (Ha : 0 < length [two_leaf]) by (simpl; lia).
  split; [exact Ha|].
  exact (proj1 (@number_on_the_left Example.runtime [two_leaf] 0 5%float Ha)).
Defined.


(** ** [backward]: what it leaves alone *)

Section Frame.

Variable rt : PyRuntime.

(** A call writes the [grad] of the closure's operands and nothing else,
    whether it returns or raises. *)
Lemma call_frame c h v :
  ~ In v (closure_operands c) ->
  nth_error (fst (call rt c h)) v = nth_error h v.
Proof.
  intros Hn.
  destruct c as [|s o out|s o out|s k out|s t out|s out]; simpl in *.
  - reflexivity.
  - unfold add_grad, set_grad.
    rewrite !nth_error_update_ne by tauto. reflexivity.
  - unfold add_grad, set_grad.
    rewrite !nth_error_update_ne by tauto. reflexivity.
  - unfold bind, read, lift, modify.
    destruct (PyFloat.pow rt (data_of h s) (k - 1)); simpl; [|reflexivity].
    unfold add_grad, set_grad. now rewrite nth_error_update_ne by tauto.
  - unfold bind, lift, modify.
    destruct (PyFloat.pow rt t 2); simpl; [|reflexivity].
    unfold add_grad, set_grad. now rewrite nth_error_update_ne by tauto.
  - unfold add_grad, set_grad. now rewrite nth_error_update_ne by tauto.
Qed.

Lemma replay_frame order :
  forall h v,
    (forall u, In u order -> ~ In v (closure_operands (backward_of h u))) ->
    nth_error (fst (replay rt order h)) v = nth_error h v.
Proof.
  induction order as [|u rest IH]; intros h v Hn; simpl; [reflexivity|].
  unfold bind at 1, read at 1. unfold bind at 1.
  pose proof (call_same_graph rt (backward_of h u) h) as Hsg.
  pose proof (@call_frame (backward_of h u) h v (Hn u (or_introl eq_refl)))
    as Hc.
  destruct (call rt (backward_of h u) h) as [h1 [[]|e]]; simpl in *.
  - rewrite IH; [exact Hc|].
    intros w Hw. destruct (proj2 Hsg w) as (_ & _ & ->). apply Hn. now right.
  - exact Hc.
Qed.

Lemma operand_reachable h t u v :
  wf_heap h -> reachable h t u ->
  In v (closure_operands (backward_of h u)) -> reachable h t v.
Proof.
  intros Hwf Hu Hin.
  assert (Hp : In v (prev_of h u)).
  { unfold backward_of in Hin. unfold prev_of.
    destruct (nth_error h u) as [x|] eqn:E; [|destruct Hin].
    now apply (wf_operands (Hwf _ _ E)). }
  clear Hin. induction Hu as [u|u c w Hc _ IH].
  - eapply reach_step; [exact Hp | constructor].
  - eapply reach_step; [exact Hc | now apply IH].
Qed.

End Frame.

(** X1: [backward] leaves every object that the terminal does not reach
    exactly as it was, [grad] included, whether it returns or raises. *)
Theorem backward_leaves_unreachable rt h t v :
  built rt h -> t < length h -> ~ reachable h t v ->
  nth_error (fst (backward rt t h)) v = nth_error h v.
Proof.
  intros Hb Ht Hv. pose proof (built_wf Hb) as Hwf.
  rewrite backward_unfold by assumption.
  destruct (topo_order_spec Hwf Ht) as (_ & _ & _ & _ & Hreach).
  assert (Hvt : t <> v) by (intros ->; apply Hv; constructor).
  rewrite replay_frame.
  - unfold set_grad. now rewrite nth_error_update_ne.
  - intros u Hu Hin. apply in_rev, Hreach in Hu.
    rewrite backward_of_set_grad in Hin.
    apply Hv. eapply operand_reachable; eauto.
Qed.

(** X2: [backward] on an object without operands writes 1.0 into its
    [grad], whatever was there, and does nothing else. *)
Theorem backward_on_leaf rt h t :
  built rt h -> prev_of h t = [] ->
  backward rt t h = (set_grad t 1 h, Ok tt).
Proof.
  intros Hb Hp. pose proof (built_wf Hb) as Hwf.
  unfold backward. simpl. rewrite Hp. simpl.
  unfold bind, modify, read.
  rewrite backward_of_set_grad. erewrite leaf_closure by eassumption.
  reflexivity.
Qed.

(** ** An operation and then [backward]: the local derivative *)

Section LocalGradients.

Variable rt : PyRuntime.

Local Open Scope float_scope.

Lemma reachable_inv h v w :
  reachable h v w ->
  w = v \/ exists c, In c (prev_of h v) /\ reachable h c w.
Proof. intros Hr. inversion Hr; subst; eauto. Qed.

Lemma reachable_old h l y u :
  wf_heap h -> (y < length h)%nat ->
  reachable (h ++ l) y u <-> reachable h y u.
Proof.
  intros Hwf Hy. split; intros Hr.
  - induction Hr as [|v c w Hc _ IH]; [constructor|].
    rewrite prev_of_old in Hc by assumption.
    eapply reach_step; [exact Hc|]. apply IH.
    apply (prev_older Hwf) in Hc. lia.
  - induction Hr as [|v c w Hc _ IH]; [constructor|].
    eapply reach_step.
    + rewrite prev_of_old by assumption. exact Hc.
    + apply IH. apply (prev_older Hwf) in Hc. lia.
Qed.

Lemma closure_defined_old h l u :
  wf_heap h -> (u < length h)%nat ->
  closure_defined rt h (backward_of h u) ->
  closure_defined rt (h ++ l) (backward_of h u).
Proof.
  intros Hwf Hu Hd.
  destruct (backward_of h u) as [|s o out|s o out|s k out|s t out|s out] eqn:E;
    simpl in *; try exact I; try exact Hd.
  assert (Hs : (s < u)%nat).
  { apply (prev_older Hwf). unfold backward_of in E. unfold prev_of.
    destruct (nth_error h u) as [x|] eqn:Ex; [|discriminate].
    apply (wf_operands (Hwf _ _ Ex)). rewrite E. now left. }
  rewrite data_of_old by lia. exact Hd.
Qed.

(** The object an operation has just made, as the terminal: an operand that
    none of the other operands reaches gets what the new closure adds, and
    nothing else. *)
Lemma operation_then_backward h d children op c v :
  wf_heap h ->
  (forall y, In y children -> (y < length h)%nat) ->
  (forall y, In y (closure_operands c) -> In y children) ->
  (forall o, closure_out c = Some o -> o = length h) ->
  closure_defined rt (h ++ [fresh rt (length h) d children op c]) c ->
  (forall y, In y children -> closures_defined rt h y) ->
  In v children ->
  (forall y, In y children -> y = v \/ ~ reachable h y v) ->
  exists h2,
    backward rt (length h) (h ++ [fresh rt (length h) d children op c])
    = (h2, Ok tt) /\
    same_graph (h ++ [fresh rt (length h) d children op c]) h2 /\
    grad_of h2 (length h) = 1 /\
    grad_of h2 v =
    fold_left add
      (contributions rt
         (set_grad (length h) 1 (h ++ [fresh rt (length h) d children op c]))
         c v)
      (grad_of h v).
Proof.
  intros Hwf Hch Hops Hout Hdc Hdefs Hv Hfar.
  set (n := length h) in *.
  set (x := fresh rt n d children op c) in *.
  set (h1 := h ++ [x]) in *.
  assert (Hwf1 : wf_heap h1).
  { apply wf_heap_app; [assumption|]. intros k y E.
    destruct k as [|k]; [|destruct k; discriminate].
    injection E as <-. rewrite Nat.add_0_r. now apply wf_fresh. }
  assert (Hn : (n < length h1)%nat).
  { unfold h1. rewrite length_app. simpl. lia. }
  assert (Hpn : prev_of h1 n = pyset (iter_swap rt n) children).
  { unfold prev_of, h1, n. now rewrite nth_error_last. }
  assert (Hbn : backward_of h1 n = c).
  { unfold backward_of, h1, n. now rewrite nth_error_last. }
  assert (Hreach : forall u, reachable h1 n u ->
            u = n \/ exists y, In y children /\ reachable h y u).
  { intros u Hu. destruct (reachable_inv Hu) as [->|(y & Hy & Hr)]; [now left|].
    right. rewrite Hpn in Hy. apply In_pyset in Hy.
    exists y. split; [assumption|].
    apply (reachable_old [x] u Hwf (Hch y Hy)). exact Hr. }
  assert (Hdef : closures_defined rt h1 n).
  { intros u Hu. apply Hreach in Hu. destruct Hu as [->|(y & Hy & Hr)].
    - now rewrite Hbn.
    - assert (Hu : (u < length h)%nat).
      { pose proof (reachable_le Hwf Hr). specialize (Hch y Hy). lia. }
      unfold h1. rewrite backward_of_old by assumption.
      apply closure_defined_old; try assumption.
      now apply (Hdefs y Hy). }
  assert (Hvn : v <> n) by (specialize (Hch v Hv); unfold n; lia).
  assert (Honly : forall u, reachable h1 n u ->
            In v (closure_operands (backward_of h1 u)) -> u = n).
  { intros u Hu Hin. apply Hreach in Hu.
    destruct Hu as [->|(y & Hy & Hr)]; [reflexivity|]. exfalso.
    assert (Hu : (u < length h)%nat).
    { pose proof (reachable_le Hwf Hr). specialize (Hch y Hy). lia. }
    unfold h1 in Hin. rewrite backward_of_old in Hin by assumption.
    assert (Hp : In v (prev_of h u)).
    { unfold backward_of in Hin. unfold prev_of.
      destruct (nth_error h u) as [z|] eqn:E; [|destruct Hin].
      now apply (wf_operands (Hwf _ _ E)). }
    assert (Hyv : reachable h y v) by (eapply operand_reachable; eauto).
    destruct (Hfar y Hy) as [->|Hno]; [|contradiction].
    pose proof (reachable_le Hwf Hr). pose proof (prev_older Hwf _ _ Hp). lia. }
  destruct (backward_direct_operand Hwf1 Hn Hdef Hvn Honly)
    as (h2 & E2 & Hsg & Hg).
  destruct (backward_spec Hwf1 Hn Hdef) as (h2' & E2' & _ & Ht1 & _).
  assert (h2' = h2) by congruence. subst h2'.
  exists h2. split; [exact E2|]. split; [exact Hsg|]. split; [exact Ht1|].
  rewrite Hg, Hbn. unfold h1 at 2. rewrite grad_of_old; [reflexivity|].
  now apply Hch.
Qed.

End LocalGradients.

Ltac seeded_store :=
  rewrite ?data_of_set_grad, ?grad_of_set_grad_eq
    by (rewrite length_app; simpl; lia);
  rewrite ?data_of_old by assumption.

(** X3: [out = a * b; out.backward()], where neither operand is built from
    the other and the closures below them return: [backward] returns,
    [a.grad] grows by [b.data * 1.0] and [b.grad] by [a.data * 1.0]; for
    [a * a], [a.grad] grows by [a.data * 1.0] twice. *)
Theorem product_then_backward rt h a b :
  built rt h -> a < length h -> b < length h ->
  closures_defined rt h a -> closures_defined rt h b ->
  a = b \/ (~ reachable h a b /\ ~ reachable h b a) ->
  exists h1 h2,
    __mul__ rt a (Ref b) h = (h1, Ok (length h)) /\
    backward rt (length h) h1 = (h2, Ok tt) /\
    grad_of h2 (length h) = 1%float /\
    (a <> b ->
     grad_of h2 a = (grad_of h a + data_of h b * 1)%float /\
     grad_of h2 b = (grad_of h b + data_of h a * 1)%float) /\
    (a = b ->
     grad_of h2 a = (grad_of h a + data_of h a * 1 + data_of h a * 1)%float).
Proof.
  intros Hb Ha Hbb Hda Hdb Hfar. pose proof (built_wf Hb) as Hwf.
  set (c := mul_backward a b (length h)).
  set (x := fresh rt (length h) (data_of h a * data_of h b)%float [a; b]
                  op_mul c).
  assert (Hch : forall y, In y [a; b] -> y < length h).
  { intros y [ <- | [ <- | [] ] ]; assumption. }
  assert (Hops : forall y, In y (closure_operands c) -> In y [a; b])
    by (intros y Hy; exact Hy).
  assert (Hout : forall o, closure_out c = Some o -> o = length h)
    by (intros o [= <-]; reflexivity).
  assert (Hdefs : forall y, In y [a; b] -> closures_defined rt h y).
  { intros y [ <- | [ <- | [] ] ]; assumption. }
  destruct (@operation_then_backward rt h (data_of h a * data_of h b)%float
              [a; b] op_mul c a Hwf Hch Hops Hout I Hdefs
              (or_introl eq_refl))
    as (h2 & E2 & _ & Ht & Hga).
  { intros y [ <- | [ <- | [] ] ]; [now left|].
    destruct Hfar as [->|[_ Hn]]; [now left | now right]. }
  destruct (@operation_then_backward rt h (data_of h a * data_of h b)%float
              [a; b] op_mul c b Hwf Hch Hops Hout I Hdefs
              (or_intror (or_introl eq_refl)))
    as (h2' & E2' & _ & _ & Hgb).
  { intros y [ <- | [ <- | [] ] ]; [|now left].
    destruct Hfar as [->|[Hn _]]; [now left | now right]. }
  assert (h2' = h2) by congruence. subst h2'.
  exists (h ++ [x]), h2. split; [apply mul_Ref_spec|].
  split; [exact E2|]. split; [exact Ht|].
  simpl in Hga, Hgb. rewrite Nat.eqb_refl in Hga, Hgb.
  revert Hga Hgb. seeded_store. intros Hga Hgb. split.
  - intros Hne.
    destruct (Nat.eqb_spec b a) as [->|_]; [contradiction|].
    destruct (Nat.eqb_spec a b) as [->|_]; [contradiction|].
    split; assumption.
  - intros <-. rewrite Nat.eqb_refl in Hga. exact Hga.
Qed.

(** X4: [out = a + b; out.backward()], where neither operand is built from
    the other and the closures below them return: [a.grad] and [b.grad]
    each grow by [out.grad], which is 1.0; for [a + a], [a.grad] grows by
    1.0 twice. *)
Theorem sum_then_backward rt h a b :
  built rt h -> a < length h -> b < length h ->
  closures_defined rt h a -> closures_defined rt h b ->
  a = b \/ (~ reachable h a b /\ ~ reachable h b a) ->
  exists h1 h2,
    __add__ rt a (Ref b) h = (h1, Ok (length h)) /\
    backward rt (length h) h1 = (h2, Ok tt) /\
    grad_of h2 (length h) = 1%float /\
    (a <> b ->
     grad_of h2 a = (grad_of h a + 1)%float /\
     grad_of h2 b = (grad_of h b + 1)%float) /\
    (a = b -> grad_of h2 a = (grad_of h a + 1 + 1)%float).
Proof.
  intros Hb Ha Hbb Hda Hdb Hfar. pose proof (built_wf Hb) as Hwf.
  set (c := add_backward a b (length h)).
  set (x := fresh rt (length h) (data_of h a + data_of h b)%float [a; b]
                  op_add c).
  assert (Hch : forall y, In y [a; b] -> y < length h).
  { intros y [ <- | [ <- | [] ] ]; assumption. }
  assert (Hops : forall y, In y (closure_operands c) -> In y [a; b])
    by (intros y Hy; exact Hy).
  assert (Hout : forall o, closure_out c = Some o -> o = length h)
    by (intros o [= <-]; reflexivity).
  assert (Hdefs : forall y, In y [a; b] -> closures_defined rt h y).
  { intros y [ <- | [ <- | [] ] ]; assumption. }
  destruct (@operation_then_backward rt h (data_of h a + data_of h b)%float
              [a; b] op_add c a Hwf Hch Hops Hout I Hdefs
              (or_introl eq_refl))
    as (h2 & E2 & _ & Ht & Hga).
  { intros y [ <- | [ <- | [] ] ]; [now left|].
    destruct Hfar as [->|[_ Hn]]; [now left | now right]. }
  destruct (@operation_then_backward rt h (data_of h a + data_of h b)%float
              [a; b] op_add c b Hwf Hch Hops Hout I Hdefs
              (or_intror (or_introl eq_refl)))
    as (h2' & E2' & _ & _ & Hgb).
  { intros y [ <- | [ <- | [] ] ]; [|now left].
    destruct Hfar as [->|[Hn _]]; [now left | now right]. }
  assert (h2' = h2) by congruence. subst h2'.
  exists (h ++ [x]), h2. split; [apply add_Ref_spec|].
  split; [exact E2|]. split; [exact Ht|].
  simpl in Hga, Hgb. rewrite Nat.eqb_refl in Hga, Hgb.
  revert Hga Hgb. seeded_store. intros Hga Hgb. split.
  - intros Hne.
    destruct (Nat.eqb_spec b a) as [->|_]; [contradiction|].
    destruct (Nat.eqb_spec a b) as [->|_]; [contradiction|].
    split; assumption.
  - intros <-. rewrite Nat.eqb_refl in Hga. exact Hga.
Qed.

(** X5: [out = a ** k; out.backward()], where both [a.data ** k] and
    [a.data ** (k - 1)] are floats and the closures below [a] return:
    [a.grad] grows by [(k * a.data ** (k - 1)) * 1.0]. *)
Theorem power_then_backward rt h a k d p :
  built rt h -> a < length h -> closures_defined rt h a ->
  PyFloat.pow rt (data_of h a) k = Ok d ->
  PyFloat.pow rt (data_of h a) (k - 1) = Ok p ->
  exists h1 h2,
    __pow__ rt a (Num k) h = (h1, Ok (length h)) /\
    data_of h1 (length h) = d /\
    backward rt (length h) h1 = (h2, Ok tt) /\
    grad_of h2 (length h) = 1%float /\
    grad_of h2 a = (grad_of h a + (k * p) * 1)%float.
Proof.
  intros Hb Ha Hda Ed Ep. pose proof (built_wf Hb) as Hwf.
  set (c := pow_backward a k (length h)).
  set (x := fresh rt (length h) d [a] (op_pow k) c).
  assert (Hch : forall y, In y [a] -> y < length h)
    by (intros y [ <- | [] ]; assumption).
  assert (Hdc : closure_defined rt (h ++ [x]) c).
  { exists p. now rewrite data_of_old. }
  destruct (@operation_then_backward rt h d [a] (op_pow k) c a Hwf Hch)
    as (h2 & E2 & _ & Ht & Hga); try assumption.
  - intros y Hy. exact Hy.
  - intros o [= <-]. reflexivity.
  - intros y [ <- | [] ]. assumption.
  - now left.
  - intros y [ <- | [] ]. now left.
  - exists (h ++ [x]), h2. split.
    { rewrite pow_Num_spec, Ed. reflexivity. }
    split; [rewrite data_of_new0; reflexivity|].
    split; [exact E2|]. split; [exact Ht|].
    revert Hga. simpl. seeded_store. rewrite Ep, Nat.eqb_refl. auto.
Qed.

(** X6: [out = a.tanh(); out.backward()], where [exp(2 * a.data)] does not
    overflow, the square of [out.data] is a float and the closures below
    [a] return: [a.grad] grows by [(1 - out.data ** 2) * 1.0]. *)
Theorem tanh_then_backward rt h a e t t2 :
  built rt h -> a < length h -> closures_defined rt h a ->
  PyFloat.math_exp rt (2 * data_of h a) = Ok e ->
  PyFloat.truediv (e - 1) (e + 1) = Ok t ->
  PyFloat.pow rt t 2 = Ok t2 ->
  exists h1 h2,
    tanh rt a h = (h1, Ok (length h)) /\
    data_of h1 (length h) = t /\
    backward rt (length h) h1 = (h2, Ok tt) /\
    grad_of h2 (length h) = 1%float /\
    grad_of h2 a = (grad_of h a + (1 - t2) * 1)%float.
Proof.
  intros Hb Ha Hda Ee Et Et2. pose proof (built_wf Hb) as Hwf.
  set (c := tanh_backward a t (length h)).
  set (x := fresh rt (length h) t [a] op_tanh c).
  assert (Hch : forall y, In y [a] -> y < length h)
    by (intros y [ <- | [] ]; assumption).
  assert (Hdc : closure_defined rt (h ++ [x]) c) by (exists t2; assumption).
  destruct (@operation_then_backward rt h t [a] op_tanh c a Hwf Hch)
    as (h2 & E2 & _ & Ht & Hga); try assumption.
  - intros y Hy. exact Hy.
  - intros o [= <-]. reflexivity.
  - intros y [ <- | [] ]. assumption.
  - now left.
  - intros y [ <- | [] ]. now left.
  - exists (h ++ [x]), h2. split.
    { rewrite tanh_spec, Ee, Et. reflexivity. }
    split; [rewrite data_of_new0; reflexivity|].
    split; [exact E2|]. split; [exact Ht|].
    revert Hga. simpl. seeded_store. rewrite Et2, Nat.eqb_refl. auto.
Qed.

(** X7: [out = a.exp(); out.backward()], where [exp(a.data)] does not
    overflow and the closures below [a] return: [a.grad] grows by
    [out.data * 1.0]. *)
Theorem exp_then_backward rt h a e :
  built rt h -> a < length h -> closures_defined rt h a ->
  PyFloat.math_exp rt (data_of h a) = Ok e ->
  exists h1 h2,
    exp rt a h = (h1, Ok (length h)) /\
    data_of h1 (length h) = e /\
    backward rt (length h) h1 = (h2, Ok tt) /\
    grad_of h2 (length h) = 1%float /\
    grad_of h2 a = (grad_of h a + e * 1)%float.
Proof.
  intros Hb Ha Hda Ee. pose proof (built_wf Hb) as Hwf.
  set (c := exp_backward a (length h)).
  set (x := fresh rt (length h) e [a] op_exp c).
  assert (Hch : forall y, In y [a] -> y < length h)
    by (intros y [ <- | [] ]; assumption).
  destruct (@operation_then_backward rt h e [a] op_exp c a Hwf Hch)
    as (h2 & E2 & _ & Ht & Hga); try assumption.
  - intros y Hy. exact Hy.
  - intros o [= <-]. reflexivity.
  - exact I.
  - intros y [ <- | [] ]. assumption.
  - now left.
  - intros y [ <- | [] ]. now left.
  - exists (h ++ [x]), h2. split.
    { rewrite exp_spec, Ee. reflexivity. }
    split; [rewrite data_of_new0; reflexivity|].
    split; [exact E2|]. split; [exact Ht|].
    revert Hga. simpl. seeded_store. rewrite Nat.eqb_refl.
    rewrite data_of_new0. auto.
Qed.

(** The terminal is the last element of its order, so its closure is the
    first one [backward] calls. *)
Lemma topo_order_last h t :
  wf_heap h -> t < length h -> exists l, topo_order h t = l ++ [t].
Proof.
  intros Hwf Ht. destruct (topo_order_spec Hwf Ht) as (visited & E & _).
  rewrite build_topo_unfold in E. simpl in E.
  destruct (visit_children h (length h) (prev_of h t) (Some ([t], [])))
    as [[visited' topo']|]; [|discriminate].
  injection E as _ <-. now exists topo'.
Qed.

(** X8: a power whose derivative is not defined.  Where [a.data ** k] is a
    float and [a.data ** (k - 1)] raises, [a ** k] returns a new object,
    and [backward] from it raises that exception, having set the [grad] of
    the new object to 1.0 and nothing else. *)
Theorem power_backward_raises rt h a k d e :
  built rt h -> a < length h ->
  PyFloat.pow rt (data_of h a) k = Ok d ->
  PyFloat.pow rt (data_of h a) (k - 1) = Raise e ->
  e <> ComplexResult ->
  exists h1,
    __pow__ rt a (Num k) h = (h1, Ok (length h)) /\
    backward rt (length h) h1 = (set_grad (length h) 1 h1, Raise e).
Proof.
  intros Hb Ha Ed Ee _. pose proof (built_wf Hb) as Hwf.
  set (c := pow_backward a k (length h)).
  set (x := fresh rt (length h) d [a] (op_pow k) c).
  exists (h ++ [x]). split.
  { rewrite pow_Num_spec, Ed. reflexivity. }
  assert (Hwf1 : wf_heap (h ++ [x])).
  { apply wf_heap_app; [assumption|]. intros j y E.
    destruct j as [|j]; [|destruct j; discriminate].
    injection E as <-. rewrite Nat.add_0_r. apply wf_fresh.
    - intros y [ <- | [] ]. assumption.
    - intros y Hy. exact Hy.
    - intros o [= <-]. reflexivity. }
  assert (Hn : length h < length (h ++ [x])).
  { rewrite length_app. simpl. lia. }
  rewrite backward_unfold by assumption.
  destruct (topo_order_last Hwf1 Hn) as (l & ->).
  rewrite rev_app_distr. simpl.
  unfold bind at 1, read at 1. rewrite backward_of_set_grad.
  unfold backward_of. rewrite nth_error_last. simpl.
  unfold bind, read, lift. rewrite data_of_set_grad, data_of_old by assumption.
  rewrite Ee. reflexivity.
Qed.

(** X9: [a.tanh()] where [2 * a.data] is finite and [exp] of it overflows
    raises [OverflowError] and makes no object.  Where [2 * a.data] is
    itself infinite (the double of a large finite [a.data], or of
    infinity) and [exp] of infinity is infinity, nothing is raised: the
    new object has the [data] nan. *)
Theorem tanh_overflows rt h a :
  (is_finite (2 * data_of h a) = true ->
   is_infinity (libm_exp rt (2 * data_of h a)) = true ->
   tanh rt a h = (h, Raise OverflowError)) /\
  ((2 * data_of h a)%float = infinity ->
   libm_exp rt infinity = infinity ->
   exists out,
     tanh rt a h = (h ++ [out], Ok (length h)) /\
     is_nan (data out) = true /\ grad out = 0%float).
Proof.
  split.
  - intros Hf Hi. rewrite tanh_spec. unfold PyFloat.math_exp.
    rewrite Hf, Hi. reflexivity.
  - intros Hd He. rewrite tanh_spec. unfold PyFloat.math_exp.
    rewrite Hd, He. simpl. eexists. split; [reflexivity|].
    split; reflexivity.
Qed.

(** ** [trace]: the objects and edges under the root *)

Section Trace.

Variable h : heap.
Hypothesis Hwf : wf_heap h.

Import Visualization.

Lemma build_unfold depth v nodes edges :
  build (S depth) h v (nodes, edges) =
  if ListSet.set_mem Nat.eq_dec v nodes then Some (nodes, edges)
  else add_children h depth v (prev_of h v)
         (Some (ListSet.set_add Nat.eq_dec v nodes, edges)).
Proof. reflexivity. Qed.

Lemma set_add_new (v : ident) nodes :
  ~ In v nodes -> ListSet.set_add Nat.eq_dec v nodes = nodes ++ [v].
Proof.
  induction nodes as [|x nodes IH]; intros Hn; simpl; [reflexivity|].
  destruct (Nat.eq_dec v x) as [->|_]; [exfalso; apply Hn; now left|].
  rewrite IH; [reflexivity|]. intros Hin. apply Hn. now right.
Qed.

(** What one call of [build] does: the new nodes are under [v], every
    operand of a new node is a node, and the new edges are the pairs of a
    new node and one of its operands. *)
Lemma build_spec depth :
  forall v nodes edges,
    v < depth -> NoDup nodes -> NoDup edges ->
    exists new edges',
      build depth h v (nodes, edges) = Some (nodes ++ new, edges') /\
      NoDup (nodes ++ new) /\ NoDup edges' /\
      In v (nodes ++ new) /\
      (forall x, In x new -> reachable h v x) /\
      (forall x c, In x new -> In c (prev_of h x) -> In c (nodes ++ new)) /\
      (forall e, In e edges' <->
                 In e edges \/ (In (snd e) new /\ In (fst e) (prev_of h (snd e)))).
Proof.
  induction depth as [|depth IH]; intros v nodes edges Hd Hnd Hne; [lia|].
  rewrite build_unfold.
  destruct (ListSet.set_mem Nat.eq_dec v nodes) eqn:Hmem.
  - apply ListSet.set_mem_correct1 in Hmem.
    exists [], edges. rewrite app_nil_r.
    split; [reflexivity|]. split; [assumption|]. split; [assumption|].
    split; [exact Hmem|]. split; [intros x []|]. split; [intros x c []|].
    intros e. split; [tauto|]. intros [He|[[] _]]. exact He.
  - apply ListSet.set_mem_complete1 in Hmem.
    rewrite set_add_new by exact Hmem.
    assert (Hloop : forall cs nodes1 edges1,
               (forall c, In c cs -> In c (prev_of h v)) ->
               NoDup nodes1 -> NoDup edges1 ->
               exists new edges',
                 add_children h depth v cs (Some (nodes1, edges1))
                 = Some (nodes1 ++ new, edges') /\
                 NoDup (nodes1 ++ new) /\ NoDup edges' /\
                 (forall c, In c cs -> In c (nodes1 ++ new)) /\
                 (forall x, In x new -> reachable h v x) /\
                 (forall x c, In x new -> In c (prev_of h x) ->
                              In c (nodes1 ++ new)) /\
                 (forall e, In e edges' <->
                    In e edges1 \/ (In (fst e) cs /\ snd e = v) \/
                    (In (snd e) new /\ In (fst e) (prev_of h (snd e))))).
    { induction cs as [|c cs IHcs]; intros nodes1 edges1 Hcs Hnd1 Hne1.
      - exists [], edges1. rewrite app_nil_r. simpl.
        split; [reflexivity|]. split; [assumption|]. split; [assumption|].
        split; [intros c []|]. split; [intros x []|].
        split; [intros x c []|].
        intros e. split; [tauto|]. intros [He|[[[] _]|[[] _]]]. exact He.
      - assert (Hc : c < v) by (apply (prev_older Hwf), Hcs; now left).
        destruct (IH c nodes1
                     (ListSet.set_add edge_eq_dec (c, v) edges1))
          as (new1 & edges2 & E2 & Hnd2 & Hne2 & Hin2 & Hr2 & Hcl2 & He2);
          [lia | assumption | now apply ListSet.set_add_nodup |].
        destruct (IHcs (nodes1 ++ new1) edges2)
          as (new2 & edges3 & E3 & Hnd3 & Hne3 & Hin3 & Hr3 & Hcl3 & He3);
          [intros; apply Hcs; now right | assumption | assumption |].
        exists (new1 ++ new2), edges3.
        rewrite app_assoc. simpl. unfold add_children in *.
        unfold ListSet.set in *. rewrite E2. split; [exact E3|].
        split; [assumption|]. split; [assumption|]. split.
        { intros c' [ <- |Hc'].
          - rewrite in_app_iff. now left.
          - now apply Hin3. }
        split.
        { intros x Hx. apply in_app_or in Hx as [Hx|Hx].
          - eapply reach_step; [apply Hcs; now left | now apply Hr2].
          - now apply Hr3. }
        split.
        { intros x c' Hx Hc'. apply in_app_or in Hx as [Hx|Hx].
          - rewrite in_app_iff. left. now apply (Hcl2 x).
          - now apply (Hcl3 x). }
        intros e. rewrite He3, He2, ListSet.set_add_iff, in_app_iff.
        destruct e as [e1 e2]. simpl. split.
        + intros [[[[= -> ->]|He]|He]|[He|He]]; tauto.
        + intros [He|[[[ <- |He] ->]|[[He|He] Hp]]]; tauto. }
    destruct (Hloop (prev_of h v) (nodes ++ [v]) edges)
      as (new & edges' & E & Hnd' & Hne' & Hin' & Hr' & Hcl' & He'); auto.
    { apply NoDup_app; [assumption | repeat constructor; intros [] |].
      intros x Hx [ <- |[]]. contradiction. }
    rewrite <- app_assoc in E, Hnd', Hin', Hcl'. simpl in E, Hnd', Hin', Hcl'.
    exists (v :: new), edges'. split; [exact E|].
    split; [assumption|]. split; [assumption|]. split.
    { apply in_or_app. right. now left. }
    split.
    { intros x [ <- |Hx]; [constructor | now apply Hr']. }
    split.
    { intros x c [ <- |Hx] Hc; [now apply Hin' | now apply (Hcl' x)]. }
    intros e. rewrite He'. destruct e as [e1 e2]. simpl. split.
    + intros [He|[[He ->]|[He Hp]]]; tauto.
    + intros [He|[[ <- |He] Hp]]; tauto.
Qed.

End Trace.

(** X10: [trace(root)] on a graph built from the public operations
    returns, without touching the store: [nodes] holds exactly the objects
    [root] reaches (itself included), [edges] exactly the pairs
    [(child, v)] of a reached object [v] and a member [child] of
    [v._prev], and [nodes] holds the same objects as the order [backward]
    replays from [root]. *)
Theorem trace_collects_the_graph rt h t :
  built rt h -> t < length h ->
  exists nodes edges,
    Visualization.trace t h = (h, Ok (nodes, edges)) /\
    NoDup nodes /\ NoDup edges /\
    (forall v, In v nodes <-> reachable h t v) /\
    (forall c v, In (c, v) edges <-> reachable h t v /\ In c (prev_of h v)) /\
    (forall v, In v nodes <-> In v (topo_order h t)) /\
    length nodes = length (topo_order h t).
Proof.
  intros Hb Ht. pose proof (built_wf Hb) as Hwf.
  destruct (@build_spec h Hwf (S (length h)) t [] [])
    as (nodes & edges & E & Hnd & Hne & Hin & Hr & Hcl & He);
    [lia | constructor | constructor |].
  change ([] ++ nodes) with nodes in *.
  assert (Hnodes : forall v, In v nodes <-> reachable h t v).
  { intros v. split; [apply Hr|]. intros Hv.
    assert (Hclosed : forall a b, reachable h a b -> In a nodes -> In b nodes).
    { induction 1 as [|a c b Hc _ IH]; auto.
      intros Ha. apply IH. now apply (Hcl a). }
    eauto. }
  destruct (topo_order_spec Hwf Ht) as (_ & _ & Hndt & _ & Htopo).
  assert (Hsame : forall v, In v nodes <-> In v (topo_order h t)).
  { intros v. now rewrite Hnodes, Htopo. }
  exists nodes, edges. split.
  { unfold Visualization.trace. now rewrite E. }
  split; [assumption|]. split; [assumption|]. split; [assumption|].
  split.
  { intros c v. rewrite He. simpl. rewrite Hnodes. tauto. }
  split; [assumption|].
  apply Nat.le_antisymm; apply NoDup_incl_length; try assumption;
    intros v Hv; now apply Hsame.
Qed.

(** ** Networks: what making one allocates *)

Section Making.

Variable rt : PyRuntime.
Variable uniform : nat -> float.

Import Net.

Lemma random_leaves_S v k n :
  random_leaves rt uniform v k (S n) =
  fresh rt v (uniform k) [] op_leaf no_backward
  :: random_leaves rt uniform (S v) (S k) n.
Proof.
  unfold random_leaves. simpl. rewrite !Nat.add_0_r. f_equal.
  rewrite <- seq_shift, map_map. apply map_ext. intros i.
  now rewrite !Nat.add_succ_r.
Qed.

Lemma random_leaves_app v k n m :
  random_leaves rt uniform v k (n + m) =
  random_leaves rt uniform v k n ++ random_leaves rt uniform (v + n) (k + n) m.
Proof.
  revert v k. induction n as [|n IH]; intros v k.
  - simpl. now rewrite !Nat.add_0_r.
  - simpl Nat.add. rewrite !random_leaves_S, IH. simpl.
    now rewrite !Nat.add_succ_r.
Qed.

Lemma length_random_leaves v k n :
  length (random_leaves rt uniform v k n) = n.
Proof. unfold random_leaves. now rewrite length_map, length_seq. Qed.

Lemma random_Value_spec h k :
  random_Value rt uniform (h, k) =
  ((h ++ random_leaves rt uniform (length h) k 1, S k), Returned (length h)).
Proof.
  unfold random_leaves. simpl. rewrite !Nat.add_0_r. reflexivity.
Qed.

Lemma random_Values_spec n :
  forall s0 h k,
    for_each (fun _ : nat => random_Value rt uniform) (seq s0 n) (h, k) =
    ((h ++ random_leaves rt uniform (length h) k n, k + n),
     Returned (seq (length h) n)).
Proof.
  induction n as [|n IH]; intros s0 h k.
  - simpl. unfold returns, random_leaves. simpl.
    now rewrite app_nil_r, Nat.add_0_r.
  - cbn [seq for_each]. unfold and_then at 1. rewrite random_Value_spec.
    unfold and_then at 1. rewrite IH. unfold returns.
    rewrite !length_app, !length_random_leaves, <- app_assoc.
    replace (S k) with (k + 1) by lia.
    rewrite <- random_leaves_app.
    replace (1 + n) with (S n) by lia.
    replace (k + 1 + n) with (k + S n) by lia.
    replace (length h + 1) with (S (length h)) by lia. reflexivity.
Qed.

Lemma Neuron_init_spec nin h k :
  Neuron_init rt uniform nin (h, k) =
  ((h ++ random_leaves rt uniform (length h) k (nin + 1), k + (nin + 1)),
   Returned {| w := seq (length h) nin; b := length h + nin |}).
Proof.
  unfold Neuron_init. unfold and_then at 1. rewrite random_Values_spec.
  unfold and_then at 1. rewrite random_Value_spec. unfold returns.
  rewrite length_app, length_random_leaves, <- app_assoc,
    <- random_leaves_app.
  replace (S (k + nin)) with (k + (nin + 1)) by lia. reflexivity.
Qed.

Lemma Neurons_init_spec nin nout :
  forall s0 h k,
    exists ns,
      for_each (fun _ : nat => Neuron_init rt uniform nin) (seq s0 nout) (h, k)
      = ((h ++ random_leaves rt uniform (length h) k (nout * (nin + 1)),
          k + nout * (nin + 1)),
         Returned ns) /\
      length ns = nout /\
      (forall n, In n ns -> length (w n) = nin) /\
      flat_map Neuron_parameters ns = seq (length h) (nout * (nin + 1)).
Proof.
  induction nout as [|nout IH]; intros s0 h k.
  - exists []. simpl. unfold returns, random_leaves. simpl.
    rewrite app_nil_r, Nat.add_0_r. repeat split. intros n [].
  - destruct (IH (S s0)
                 (h ++ random_leaves rt uniform (length h) k (nin + 1))
                 (k + (nin + 1)))
      as (ns & E & Hlen & Hw & Hp).
    exists ({| w := seq (length h) nin; b := length h + nin |} :: ns).
    rewrite length_app, length_random_leaves in *.
    split.
    { cbn [seq for_each]. unfold and_then at 1. rewrite Neuron_init_spec.
      cbv beta iota. unfold and_then at 1. unfold heap in *. rewrite E.
      unfold returns.
      rewrite <- app_assoc, <- random_leaves_app.
      replace (S nout * (nin + 1)) with (nin + 1 + nout * (nin + 1)) by lia.
      do 2 f_equal. lia. }
    split; [simpl; now rewrite Hlen|]. split.
    { intros n [ <- |Hn]; [simpl; apply length_seq | now apply Hw]. }
    simpl flat_map. rewrite Hp. unfold Neuron_parameters. simpl w. simpl b.
    replace (S nout * (nin + 1)) with (nin + 1 + nout * (nin + 1)) by lia.
    rewrite (seq_app (nin + 1)), (seq_app nin 1). reflexivity.
Qed.

End Making.

Section MakingLayers.

Variable rt : PyRuntime.
Variable uniform : nat -> float.

Import Net.

Lemma Layer_init_spec nin nout h k :
  exists l,
    Layer_init rt uniform nin nout (h, k)
    = ((h ++ random_leaves rt uniform (length h) k (nout * (nin + 1)),
        k + nout * (nin + 1)),
       Returned l) /\
    length (neurons l) = nout /\
    (forall n, In n (neurons l) -> length (w n) = nin) /\
    Layer_parameters l = seq (length h) (nout * (nin + 1)).
Proof.
  destruct (Neurons_init_spec rt uniform nin nout 0 h k)
    as (ns & E & Hlen & Hw & Hp).
  exists {| neurons := ns |}. split; [|auto].
  unfold Layer_init, and_then. unfold heap in *. now rewrite E.
Qed.

Lemma Layers_init_spec nouts :
  forall pre nin h k,
    exists ls,
      for_each
        (fun i => Layer_init rt uniform (nth i (pre ++ nin :: nouts) 0)
                             (nth (i + 1) (pre ++ nin :: nouts) 0))
        (seq (length pre) (length nouts)) (h, k)
      = ((h ++ random_leaves rt uniform (length h) k
                             (parameter_count nin nouts),
          k + parameter_count nin nouts),
         Returned ls) /\
      map (fun l => length (neurons l)) ls = nouts /\
      flat_map Layer_parameters ls = seq (length h) (parameter_count nin nouts).
Proof.
  induction nouts as [|nout rest IH]; intros pre nin h k.
  - exists []. simpl. unfold returns, random_leaves. simpl.
    rewrite app_nil_r, Nat.add_0_r. auto.
  - destruct (Layer_init_spec nin nout h k) as (l & El & Hlen & _ & Hp).
    destruct (IH (pre ++ [nin]) nout
                 (h ++ random_leaves rt uniform (length h) k
                                     (nout * (nin + 1)))
                 (k + nout * (nin + 1)))
      as (ls & E & Hshape & Hps).
    rewrite length_app, length_random_leaves in *.
    rewrite <- app_assoc in E. simpl in E.
    replace (length pre + 1) with (S (length pre)) in E by lia.
    exists (l :: ls). split.
    { cbn [length seq for_each]. unfold and_then at 1.
      rewrite nth_middle.
      replace (pre ++ nin :: nout :: rest)
        with ((pre ++ [nin]) ++ nout :: rest) at 1
        by (now rewrite <- app_assoc).
      replace (length pre + 1) with (length (pre ++ [nin]))
        by (rewrite length_app; reflexivity).
      rewrite nth_middle. unfold heap in *. rewrite El. cbv beta iota.
      unfold and_then at 1. rewrite E. unfold returns.
      rewrite ?length_app, ?length_random_leaves.
      rewrite <- app_assoc, <- random_leaves_app. simpl parameter_count.
      do 2 f_equal. lia. }
    split; [simpl; now rewrite Hlen, Hshape|].
    simpl. rewrite Hp, Hps. now rewrite <- seq_app.
Qed.

End MakingLayers.

(** X11: [Neuron(nin)] draws [nin + 1] random numbers and adds one leaf
    for each to the store, in the order drawn; its [parameters()] are these
    [nin + 1] new objects, the weights first and the bias last, all
    distinct. *)
Theorem neuron_parameters_are_new rt uniform nin h k :
  exists n,
    Net.Neuron_init rt uniform nin (h, k)
    = ((h ++ Net.random_leaves rt uniform (length h) k (nin + 1),
        k + (nin + 1)),
       Net.Returned n) /\
    Net.Neuron_parameters n = seq (length h) (nin + 1) /\
    length (Net.w n) = nin /\ Net.b n = length h + nin /\
    NoDup (Net.Neuron_parameters n).
Proof.
  eexists. split; [apply Neuron_init_spec|].
  unfold Net.Neuron_parameters. simpl.
  assert (E : seq (length h) nin ++ [length h + nin] = seq (length h) (nin + 1))
    by (now rewrite seq_app).
  rewrite E. repeat split; [apply length_seq | apply seq_NoDup].
Qed.

(** X12: [Layer(nin, nout)] makes [nout] neurons of [nin] weights each;
    its [parameters()] are the [nout * (nin + 1)] objects it added to the
    store, in the order they were made, all distinct. *)
Theorem layer_parameters_are_new rt uniform nin nout h k :
  exists l,
    Net.Layer_init rt uniform nin nout (h, k)
    = ((h ++ Net.random_leaves rt uniform (length h) k (nout * (nin + 1)),
        k + nout * (nin + 1)),
       Net.Returned l) /\
    length (Net.neurons l) = nout /\
    (forall n, In n (Net.neurons l) -> length (Net.w n) = nin) /\
    Net.Layer_parameters l = seq (length h) (nout * (nin + 1)) /\
    NoDup (Net.Layer_parameters l).
Proof.
  destruct (Layer_init_spec rt uniform nin nout h k)
    as (l & E & Hlen & Hw & Hp).
  exists l. rewrite Hp. repeat split; auto. apply seq_NoDup.
Qed.

(** X13: [MLP(nin, nouts)] makes one layer for each element of [nouts],
    the [i]-th of [nouts[i]] neurons; its [parameters()] are the objects it
    added to the store, all distinct, and there are as many as the sum over
    the layers of [nouts[i] * (sizes[i] + 1)], where
    [sizes = [nin] + nouts]. *)
Theorem mlp_parameters_are_new rt uniform nin nouts h k :
  exists m,
    Net.MLP_init rt uniform nin nouts (h, k)
    = ((h ++ Net.random_leaves rt uniform (length h) k
                               (Net.parameter_count nin nouts),
        k + Net.parameter_count nin nouts),
       Net.Returned m) /\
    map (fun l => length (Net.neurons l)) (Net.layers m) = nouts /\
    Net.MLP_parameters m = seq (length h) (Net.parameter_count nin nouts) /\
    length (Net.MLP_parameters m) = Net.parameter_count nin nouts /\
    NoDup (Net.MLP_parameters m) /\
    Net.MLP_in (h ++ Net.random_leaves rt uniform (length h) k
                                       (Net.parameter_count nin nouts)) m.
Proof.
  destruct (Layers_init_spec rt uniform nouts [] nin h k)
    as (ls & E & Hshape & Hp).
  exists {| Net.layers := ls |}. split.
  { unfold Net.MLP_init, Net.and_then. cbn [app length] in E.
    unfold heap in *. now rewrite E. }
  unfold Net.MLP_parameters. simpl. rewrite Hp.
  split; [assumption|]. split; [reflexivity|].
  split; [apply length_seq|]. split; [apply seq_NoDup|].
  intros l Hl n Hn v Hv. simpl in Hl.
  assert (Hin : In v (flat_map Net.Layer_parameters ls)).
  { apply in_flat_map. exists l. split; [assumption|].
    apply in_flat_map. exists n. split; assumption. }
  rewrite Hp in Hin. apply in_seq in Hin.
  rewrite length_app, length_random_leaves. lia.
Qed.

(** ** Networks: the forward pass *)

Section Calling.

Variable rt : PyRuntime.

Import Net.

Local Open Scope float_scope.

Lemma holds_app h new o : holds h o -> holds (h ++ new) o.
Proof.
  destruct o as [x|v]; simpl; [auto|]. rewrite length_app. lia.
Qed.

Lemma value_of_old h new o :
  holds h o -> value_of (h ++ new) o = value_of h o.
Proof.
  destruct o as [x|v]; simpl; [reflexivity|]. apply data_of_old.
Qed.

Lemma arg_in_app h new x : arg_in h x -> arg_in (h ++ new) x.
Proof.
  destruct x as [o|xs]; simpl.
  - apply holds_app.
  - intros Hx o Ho. apply holds_app. now apply Hx.
Qed.

Lemma Neuron_in_app h new n : Neuron_in h n -> Neuron_in (h ++ new) n.
Proof.
  intros Hn v Hv. apply Hn in Hv. rewrite length_app. lia.
Qed.

(** [wi * xi] for a weight and an input. *)
Lemma product_spec wi xi h :
  built rt h -> (wi < length h)%nat -> holds h xi ->
  exists new,
    __mul__ rt wi xi h = (h ++ new, Ok (length h + length new - 1)%nat) /\
    (0 < length new)%nat /\
    built rt (h ++ new) /\
    data_of (h ++ new) (length h + length new - 1)
    = data_of h wi * value_of h xi.
Proof.
  intros Hb Hw Hx.
  assert (Hb' : built rt (fst (__mul__ rt wi xi h))).
  { apply (built_step (do_mul wi xi) Hb). simpl. auto. }
  destruct xi as [x|o].
  - rewrite mul_Num_spec in * by assumption. cbv zeta in *. simpl fst in Hb'.
    eexists. split; [|split; [|split; [exact Hb'|]]].
    + simpl length. do 2 f_equal. lia.
    + simpl. lia.
    + simpl length. replace (length h + 2 - 1)%nat with (length h + 1)%nat by lia.
      rewrite data_of_new. reflexivity.
  - rewrite mul_Ref_spec in *. simpl fst in Hb'.
    eexists. split; [|split; [|split; [exact Hb'|]]].
    + simpl length. do 2 f_equal. lia.
    + simpl. lia.
    + simpl length. replace (length h + 1 - 1)%nat with (length h) by lia.
      rewrite data_of_new0. reflexivity.
Qed.

Lemma fold_left_ext_in (A B : Type) (f g : A -> B -> A) l :
  (forall a b, In b l -> f a b = g a b) ->
  forall a, fold_left f l a = fold_left g l a.
Proof.
  induction l as [|b l IH]; intros Hfg a; simpl; [reflexivity|].
  rewrite Hfg by now left. apply IH. intros a' b' Hb'. apply Hfg. now right.
Qed.

(** The sum of a neuron: it returns, having made the products and the
    sums one after the other. *)
Lemma sum_products_spec pairs :
  forall h start,
    built rt h -> (start < length h)%nat ->
    (forall p, In p pairs -> (fst p < length h)%nat /\ holds h (snd p)) ->
    exists new out,
      sum_products rt pairs start h = (h ++ new, Ok out) /\
      (out < length (h ++ new))%nat /\
      built rt (h ++ new) /\
      data_of (h ++ new) out =
      fold_left (fun a p => a + data_of h (fst p) * value_of h (snd p))
                pairs (data_of h start).
Proof.
  induction pairs as [|[wi xi] rest IH]; intros h start Hb Hs Hp.
  - exists [], start. simpl. rewrite app_nil_r. unfold ret. auto.
  - destruct (Hp (wi, xi) (or_introl eq_refl)) as [Hw Hx]. simpl in Hw, Hx.
    destruct (@product_spec wi xi h Hb Hw Hx) as (new1 & E1 & Hlen1 & Hb1 & Hd1).
    set (h1 := h ++ new1) in *.
    set (item := (length h + length new1 - 1)%nat) in *.
    assert (Hitem : (item < length h1)%nat).
    { unfold h1, item. rewrite length_app. lia. }
    assert (Hs1 : (start < length h1)%nat).
    { unfold h1. rewrite length_app. lia. }
    assert (Hb2 : built rt (fst (__add__ rt start (Ref item) h1))).
    { apply (built_step (do_add start (Ref item)) Hb1). simpl. auto. }
    rewrite add_Ref_spec in Hb2. simpl fst in Hb2.
    set (x2 := fresh rt (length h1) (data_of h1 start + data_of h1 item)
                     [start; item] op_add
                     (add_backward start item (length h1))) in *.
    destruct (IH (h1 ++ [x2]) (length h1) Hb2) as (new3 & out & E3 & Ho & Hb3 & Hd3).
    { rewrite length_app. simpl. lia. }
    { intros p Hin. destruct (Hp p (or_intror Hin)) as [Hpw Hpx].
      unfold h1. rewrite !length_app. split; [lia|].
      rewrite <- app_assoc. now apply holds_app. }
    exists (new1 ++ x2 :: new3), out.
    replace (h ++ new1 ++ x2 :: new3) with ((h1 ++ [x2]) ++ new3)
      by (unfold h1; now rewrite <- !app_assoc).
    split.
    { cbn [sum_products]. unfold bind at 1. rewrite E1.
      unfold bind at 1. rewrite add_Ref_spec. exact E3. }
    split; [assumption|]. split; [assumption|].
    rewrite Hd3. simpl fold_left. rewrite data_of_new0.
    change (data_of [x2] 0) with (data_of h1 start + data_of h1 item).
    rewrite Hd1. unfold h1 at 3. rewrite data_of_old by assumption.
    apply fold_left_ext_in. intros a p Hin.
    destruct (Hp p (or_intror Hin)) as [Hpw Hpx].
    unfold h1. rewrite <- app_assoc.
    rewrite data_of_old by assumption. now rewrite value_of_old.
Qed.

End Calling.

Section Forward.

Variable rt : PyRuntime.

Import Net.

Local Open Scope float_scope.

Lemma pairs_in h n xs :
  Neuron_in h n -> arg_in h (Many xs) ->
  forall p, In p (combine (w n) xs) ->
            (fst p < length h)%nat /\ holds h (snd p).
Proof.
  intros Hn Hx [wi xi] Hin. simpl. split.
  - apply Hn. unfold Neuron_parameters. apply in_or_app. left.
    eapply in_combine_l; eauto.
  - apply Hx. eapply in_combine_r; eauto.
Qed.

Lemma bias_in h n : Neuron_in h n -> (b n < length h)%nat.
Proof.
  intros Hn. apply Hn. unfold Neuron_parameters. apply in_or_app.
  right. now left.
Qed.

(** A call of a neuron, whatever comes of it, adds objects to the store
    and leaves it a store of a program. *)
Lemma Neuron_call_appends n x h k :
  built rt h -> Neuron_in h n -> arg_in h x ->
  exists new r,
    Neuron_call rt n x (h, k) = ((h ++ new, k), r) /\
    built rt (h ++ new) /\
    (forall out, r = Returned out -> (out < length (h ++ new))%nat).
Proof.
  intros Hb Hn Hx. destruct x as [o|xs].
  - exists [], (Failed TypeError). rewrite app_nil_r.
    split; [reflexivity|]. split; [assumption | discriminate].
  - destruct (@sum_products_spec rt (combine (w n) xs) h (b n) Hb
                (bias_in Hn) (pairs_in Hn Hx))
      as (new1 & act & E1 & Ha & Hb1 & _).
    assert (Hb2 : built rt (fst (tanh rt act (h ++ new1)))).
    { apply (built_step (do_tanh act) Hb1). exact Ha. }
    unfold Neuron_call, and_then. unfold value_op at 1. cbn [fst snd].
    rewrite E1. unfold value_op. cbn [fst snd]. rewrite tanh_spec in *.
    destruct (PyFloat.math_exp rt (2 * data_of (h ++ new1) act)) as [e|err].
    + destruct (PyFloat.truediv (e - 1) (e + 1)) as [t|err]; simpl fst in Hb2.
      * eexists (new1 ++ [_]), _. rewrite app_assoc.
        split; [reflexivity|]. split; [exact Hb2|].
        intros out [= <-]. rewrite !length_app. simpl. lia.
      * eexists new1, _. split; [reflexivity|].
        split; [assumption | discriminate].
    + eexists new1, _. split; [reflexivity|].
      split; [assumption | discriminate].
Qed.

Lemma Neurons_call_appends ns :
  forall x h k,
    built rt h -> (forall n, In n ns -> Neuron_in h n) -> arg_in h x ->
    exists new r,
      for_each (fun n => Neuron_call rt n x) ns (h, k) = ((h ++ new, k), r) /\
      built rt (h ++ new) /\
      (forall outs, r = Returned outs ->
                    forall o, In o outs -> (o < length (h ++ new))%nat).
Proof.
  induction ns as [|n ns IH]; intros x h k Hb Hns Hx.
  - exists [], (Returned []). rewrite app_nil_r.
    split; [reflexivity|]. split; [assumption|].
    intros outs [= <-] o [].
  - destruct (@Neuron_call_appends n x h k Hb (Hns n (or_introl eq_refl)) Hx)
      as (new1 & r1 & E1 & Hb1 & Hout1).
    cbn [for_each]. unfold and_then at 1. unfold heap in *. rewrite E1.
    destruct r1 as [out|f].
    + destruct (IH x (h ++ new1) k Hb1) as (new2 & r2 & E2 & Hb2 & Hout2).
      { intros n' Hn'. apply Neuron_in_app. apply Hns. now right. }
      { now apply arg_in_app. }
      unfold and_then at 1. unfold heap in *. rewrite E2.
      rewrite <- app_assoc in *.
      destruct r2 as [outs|f].
      * eexists (new1 ++ new2), _. split; [reflexivity|].
        split; [assumption|].
        intros outs' [= <-] o [ <- |Ho].
        -- specialize (Hout1 out eq_refl).
           rewrite !length_app in *. lia.
        -- now apply (Hout2 outs eq_refl).
      * eexists (new1 ++ new2), _. split; [reflexivity|].
        split; [assumption | discriminate].
    + eexists new1, _. split; [reflexivity|].
      split; [assumption | discriminate].
Qed.

Lemma Layer_call_appends l x h k :
  built rt h -> Layer_in h l -> arg_in h x ->
  exists new r,
    Layer_call rt l x (h, k) = ((h ++ new, k), r) /\
    built rt (h ++ new) /\
    (forall y, r = Returned y -> arg_in (h ++ new) y).
Proof.
  intros Hb Hl Hx.
  destruct (@Neurons_call_appends (neurons l) x h k Hb Hl Hx)
    as (new & r & E & Hb' & Hout).
  unfold Layer_call, and_then. unfold heap in *. rewrite E.
  destruct r as [outs|f].
  - eexists new, _. split; [reflexivity|]. split; [assumption|].
    intros y [= <-]. specialize (Hout outs eq_refl).
    destruct (Nat.eqb_spec (length outs) 1) as [Hone|_]; simpl.
    + apply Hout. destruct outs as [|o outs]; [discriminate|]. now left.
    + intros o Ho. apply in_map_iff in Ho as (v & <- & Hv). simpl.
      now apply Hout.
  - eexists new, _. split; [reflexivity|].
    split; [assumption | discriminate].
Qed.

Lemma feed_appends ls :
  forall x h k,
    built rt h -> (forall l, In l ls -> Layer_in h l) -> arg_in h x ->
    exists new r,
      feed rt ls x (h, k) = ((h ++ new, k), r) /\
      built rt (h ++ new) /\
      (forall y, r = Returned y -> arg_in (h ++ new) y).
Proof.
  induction ls as [|l ls IH]; intros x h k Hb Hls Hx.
  - exists [], (Returned x). rewrite app_nil_r.
    split; [reflexivity|]. split; [assumption|]. now intros y [= <-].
  - destruct (@Layer_call_appends l x h k Hb (Hls l (or_introl eq_refl)) Hx)
      as (new1 & r1 & E1 & Hb1 & Hy1).
    cbn [feed]. unfold and_then at 1. unfold heap in *. rewrite E1.
    destruct r1 as [y|f].
    + destruct (IH y (h ++ new1) k Hb1) as (new2 & r2 & E2 & Hb2 & Hy2).
      { intros l' Hl' n Hn. apply Neuron_in_app. apply (Hls l'); auto.
        now right. }
      { now apply Hy1. }
      unfold heap in *. rewrite E2. rewrite <- app_assoc in *.
      eexists (new1 ++ new2), _. split; [reflexivity|].
      split; assumption.
    + eexists new1, _. split; [reflexivity|].
      split; [assumption | discriminate].
Qed.

Lemma for_each_length (A B : Type) (f : A -> N B) l :
  forall s s' bs,
    for_each f l s = (s', Returned bs) -> length bs = length l.
Proof.
  induction l as [|a l IH]; intros s s' bs E; simpl in E.
  - injection E as _ <-. reflexivity.
  - unfold and_then at 1 in E.
    destruct (f a s) as [s1 [b1|e]]; [|discriminate].
    unfold and_then at 1 in E.
    destruct (for_each f l s1) as [s2 [bs2|e]] eqn:E2; [|discriminate].
    injection E as _ <-. simpl. f_equal. eapply IH; eauto.
Qed.

Lemma for_each_in_turn ns :
  forall x s s' outs,
    for_each (fun n => Neuron_call rt n x) ns s = (s', Returned outs) ->
    called_in_turn rt ns x s outs s'.
Proof.
  induction ns as [|n ns IH]; intros x s s' outs E; simpl in E.
  - injection E as <- <-. reflexivity.
  - unfold and_then at 1 in E.
    destruct (Neuron_call rt n x s) as [s1 [o|f]] eqn:E1; [|discriminate].
    unfold and_then at 1 in E.
    destruct (for_each (fun n0 => Neuron_call rt n0 x) ns s1)
      as [s2 [outs2|f]] eqn:E2; [|discriminate].
    injection E as <- <-. cbn [called_in_turn]. exists s1.
    split; [exact E1|]. now apply IH.
Qed.

Lemma feed_app ls1 ls2 :
  forall x s,
    feed rt (ls1 ++ ls2) x s =
    match feed rt ls1 x s with
    | (s', Returned y) => feed rt ls2 y s'
    | (s', Failed f) => (s', Failed f)
    end.
Proof.
  induction ls1 as [|l ls1 IH]; intros x s; simpl; [reflexivity|].
  unfold and_then. destruct (Layer_call rt l x s) as [s1 [y|f]]; auto.
Qed.

End Forward.

(** X14: [neuron(x)] on a list [x], where [exp] does not overflow on twice
    the sum: the call returns a new object whose [data] is
    [(e - 1) / (e + 1)] for [e = exp(2 * s)], where [s] is the bias plus
    the products [wi.data * xi], added one after the other from the
    bias on.  The store has only grown and no random number was drawn. *)
Theorem neuron_forward rt n xs h k e t :
  built rt h -> Net.Neuron_in h n -> Net.arg_in h (Net.Many xs) ->
  PyFloat.math_exp rt (2 * Net.activation_of h n xs) = Ok e ->
  PyFloat.truediv (e - 1) (e + 1) = Ok t ->
  exists new out,
    Net.Neuron_call rt n (Net.Many xs) (h, k)
    = ((h ++ new, k), Net.Returned out) /\
    length h <= out < length (h ++ new) /\
    built rt (h ++ new) /\
    data_of (h ++ new) out = t /\
    grad_of (h ++ new) out = 0%float.
Proof.
  intros Hb Hn Hx Ee Et.
  destruct (@sum_products_spec rt (combine (Net.w n) xs) h (Net.b n) Hb
              (bias_in Hn) (pairs_in Hn Hx))
    as (new1 & act & E1 & Ha & Hb1 & Hd1).
  assert (Hb2 : built rt (fst (tanh rt act (h ++ new1)))).
  { apply (built_step (do_tanh act) Hb1). exact Ha. }
  fold (Net.activation_of h n xs) in Hd1.
  rewrite tanh_spec, Hd1, Ee, Et in Hb2. simpl fst in Hb2.
  eexists (new1 ++ [_]), (length (h ++ new1)). rewrite app_assoc.
  split.
  { unfold Net.Neuron_call, Net.and_then. unfold Net.value_op at 1.
    cbn [fst snd]. rewrite E1. unfold Net.value_op. cbn [fst snd].
    rewrite tanh_spec, Hd1, Ee, Et. reflexivity. }
  split; [rewrite !length_app; simpl; lia|].
  split; [exact Hb2|].
  split; [rewrite data_of_new0; reflexivity|].
  unfold grad_of. rewrite nth_error_last. reflexivity.
Qed.

(** X15: a neuron pairs its weights with the inputs up to the end of the
    shorter list and raises nothing for the rest: inputs beyond the number
    of weights are not read, weights beyond the number of inputs are not
    used. *)
Theorem neuron_ignores_what_is_unpaired rt n xs s :
  Net.Neuron_call rt n (Net.Many xs) s
  = Net.Neuron_call rt n (Net.Many (firstn (length (Net.w n)) xs)) s /\
  Net.Neuron_call rt n (Net.Many xs) s
  = Net.Neuron_call rt
      {| Net.w := firstn (length xs) (Net.w n); Net.b := Net.b n |}
      (Net.Many xs) s.
Proof.
  unfold Net.Neuron_call. simpl. split.
  - now rewrite <- combine_firstn_l.
  - now rewrite <- combine_firstn_r.
Qed.

(** X16: what [layer(x)] returns when it returns.  Its neurons have been
    called on [x] one after the other, each in the store the one before it
    left, and have all returned; the layer leaves the store the last of
    them left.  With exactly one neuron the result is the [Value] that
    neuron returned; otherwise it is the list of the [Value]s the neurons
    returned, in the order of the neurons, the empty list when there is
    none. *)
Theorem layer_result_shape rt l x s s' y :
  Net.Layer_call rt l x s = (s', Net.Returned y) ->
  exists outs,
    Net.called_in_turn rt (Net.neurons l) x s outs s' /\
    length outs = length (Net.neurons l) /\
    (forall n, Net.neurons l = [n] ->
       exists o, Net.Neuron_call rt n x s = (s', Net.Returned o) /\
                 outs = [o] /\ y = Net.One (Ref o)) /\
    (length (Net.neurons l) <> 1 -> y = Net.Many (map Ref outs)).
Proof.
  unfold Net.Layer_call, Net.and_then. intros E.
  destruct (Net.for_each (fun n => Net.Neuron_call rt n x) (Net.neurons l) s)
    as [s1 [outs|f]] eqn:Eo; [|discriminate].
  unfold Net.returns in E. injection E as <- <-.
  pose proof (for_each_length _ _ _ Eo) as Hlen.
  pose proof (for_each_in_turn _ _ _ _ Eo) as Hturn.
  exists outs. split; [exact Hturn|]. split; [exact Hlen|]. split.
  - intros n En. rewrite En in *.
    destruct outs as [|o [|o' outs]]; try discriminate Hlen.
    simpl in Hturn. destruct Hturn as (s1' & E1 & ->).
    exists o. auto.
  - intros Hne. rewrite Hlen.
    destruct (Nat.eqb_spec (length (Net.neurons l)) 1);
      [contradiction | reflexivity].
Qed.

(** X17: a layer of exactly one neuron followed by a layer that has a
    neuron.  When the layers before it and the one-neuron layer return,
    the network raises [TypeError]: the next layer is called on a single
    [Value], and its first neuron cannot [zip] it.  The objects made so
    far stay in the store. *)
Theorem one_neuron_layer_breaks_the_next rt pre l1 l2 post x s s1 y s2 z :
  Net.feed rt pre x s = (s1, Net.Returned y) ->
  Net.Layer_call rt l1 y s1 = (s2, Net.Returned z) ->
  length (Net.neurons l1) = 1 -> Net.neurons l2 <> [] ->
  Net.MLP_call rt {| Net.layers := pre ++ l1 :: l2 :: post |} x s
  = (s2, Net.Failed Net.TypeError).
Proof.
  intros Epre E1 Hone Hsome.
  assert (Hz : exists o, z = Net.One (Ref o)).
  { unfold Net.Layer_call, Net.and_then in E1.
    destruct (Net.for_each (fun n => Net.Neuron_call rt n y)
                           (Net.neurons l1) s1)
      as [s1' [outs|f]] eqn:Eo; [|discriminate].
    apply for_each_length in Eo. unfold Net.returns in E1.
    injection E1 as _ <-. rewrite Eo, Hone. simpl. eauto. }
  destruct Hz as (o & ->).
  unfold Net.MLP_call. simpl. rewrite feed_app, Epre. simpl.
  unfold Net.and_then at 1. rewrite E1.
  unfold Net.and_then at 1. unfold Net.Layer_call, Net.and_then.
  destruct (Net.neurons l2) as [|n2 ns2]; [contradiction|]. reflexivity.
Qed.

(** X18: a forward pass [mlp(x)], whether it returns or raises, only adds
    objects to the store: every object that was there keeps its [data],
    its [grad] and its operands; no random number is drawn; and the store
    it leaves is again one that a program of the public operations
    makes (so [backward] from an output ends and accumulates). *)
Theorem forward_pass_only_appends rt m x h k :
  built rt h -> Net.MLP_in h m -> Net.arg_in h x ->
  exists new r,
    Net.MLP_call rt m x (h, k) = ((h ++ new, k), r) /\
    built rt (h ++ new) /\
    (forall v, v < length h -> nth_error (h ++ new) v = nth_error h v) /\
    (forall y, r = Net.Returned y -> Net.arg_in (h ++ new) y).
Proof.
  intros Hb Hm Hx.
  destruct (@feed_appends rt (Net.layers m) x h k Hb Hm Hx)
    as (new & r & E & Hb' & Hy).
  exists new, r. split; [exact E|]. split; [assumption|].
  split; [|assumption].
  intros v Hv. now apply nth_error_app1.
Qed.

(** ** The further theorems at closed inputs *)

(** [backward] from [e = a * b] of the affine scenario leaves [c] alone. *)
Lemma backward_leaves_unreachable_witness :
  built Example.runtime affine_store /\
  3 < length affine_store /\
  ~ reachable affine_store 3 2 /\
  nth_error (fst (backward Example.runtime 3 affine_store)) 2
  = nth_error affine_store 2.
Proof.
  assert (Hb : built Example.runtime affine_store).
  { apply run_built. simpl. repeat split; lia. }
  assert (Ht : 3 < length affine_store) by (simpl; lia).
  assert (Hn : ~ reachable affine_store 3 2).
  { intros Hr. apply reachable_inv in Hr as [E|(c & Hc & Hr)];
      [discriminate|].
    simpl in Hc. destruct Hc as [ <- | [ <- | [] ] ];
      apply leaf_reaches_itself in Hr; try reflexivity; discriminate. }
  split; [exact Hb|]. split; [exact Ht|]. split; [exact Hn|].
  exact (backward_leaves_unreachable Hb Ht Hn).
Defined.

(** [backward] on the first of two leaves. *)
Lemma backward_on_leaf_witness :
  built Example.runtime twin_store /\
  prev_of twin_store 0 = [] /\
  backward Example.runtime 0 twin_store = (set_grad 0 1 twin_store, Ok tt).
Proof.
  assert (Hb : built Example.runtime twin_store).
  { apply run_built. simpl. repeat split; lia. }
  split; [exact Hb|]. split; [reflexivity|].
  exact (@backward_on_leaf Example.runtime twin_store 0 Hb eq_refl).
Defined.

Lemma pair_store_apart :
  0 = 1 \/ (~ reachable pair_store 0 1 /\ ~ reachable pair_store 1 0).
Proof.
  right. split; intros Hr; apply leaf_reaches_itself in Hr;
    try reflexivity; discriminate.
Defined.

(** [Value(2.0) * Value(3.0)] and [backward]. *)
Lemma product_then_backward_witness :
  built Example.runtime pair_store /\
  exists h1 h2,
    __mul__ Example.runtime 0 (Ref 1) pair_store = (h1, Ok 2) /\
    backward Example.runtime 2 h1 = (h2, Ok tt) /\
    grad_of h2 2 = 1%float /\
    (0 <> 1 ->
     grad_of h2 0 = (grad_of pair_store 0 + data_of pair_store 1 * 1)%float /\
     grad_of h2 1 = (grad_of pair_store 1 + data_of pair_store 0 * 1)%float) /\
    (0 = 1 ->
     grad_of h2 0 = (grad_of pair_store 0 + data_of pair_store 0 * 1
                     + data_of pair_store 0 * 1)%float).
Proof.
  assert (Hb : built Example.runtime pair_store).
  { apply run_built. simpl. repeat split; lia. }
  split; [exact Hb|].
  apply (@product_then_backward Example.runtime pair_store 0 1 Hb);
    try (simpl; lia); try (apply power_free_defined; reflexivity).
  exact pair_store_apart.
Defined.

(** [Value(2.0) + Value(3.0)] and [backward]. *)
Lemma sum_then_backward_witness :
  built Example.runtime pair_store /\
  exists h1 h2,
    __add__ Example.runtime 0 (Ref 1) pair_store = (h1, Ok 2) /\
    backward Example.runtime 2 h1 = (h2, Ok tt) /\
    grad_of h2 2 = 1%float /\
    (0 <> 1 ->
     grad_of h2 0 = (grad_of pair_store 0 + 1)%float /\
     grad_of h2 1 = (grad_of pair_store 1 + 1)%float) /\
    (0 = 1 -> grad_of h2 0 = (grad_of pair_store 0 + 1 + 1)%float).
Proof.
  assert (Hb : built Example.runtime pair_store).
  { apply run_built. simpl. repeat split; lia. }
  split; [exact Hb|].
  apply (@sum_then_backward Example.runtime pair_store 0 1 Hb);
    try (simpl; lia); try (apply power_free_defined; reflexivity).
  exact pair_store_apart.
Defined.

(** [Value(2.0) ** 3] and [backward]: the gradient is [3 * 2.0 ** 2]. *)
Lemma power_then_backward_witness :
  built Example.runtime two_store /\
  PyFloat.pow Example.runtime (data_of two_store 0) 3 = Ok 8%float /\
  PyFloat.pow Example.runtime (data_of two_store 0) (3 - 1) = Ok 4%float /\
  exists h1 h2,
    __pow__ Example.runtime 0 (Num 3) two_store = (h1, Ok 1) /\
    data_of h1 1 = 8%float /\
    backward Example.runtime 1 h1 = (h2, Ok tt) /\
    grad_of h2 1 = 1%float /\
    grad_of h2 0 = (grad_of two_store 0 + (3 * 4) * 1)%float.
Proof.
  assert (Hb : built Example.runtime two_store).
  { apply run_built. simpl. repeat split; lia. }
  split; [exact Hb|]. split; [reflexivity|]. split; [reflexivity|].
  apply (@power_then_backward Example.runtime two_store 0 3 8 4 Hb);
    try (simpl; lia); try reflexivity.
  apply power_free_defined. reflexivity.
Defined.

(** [Value(0.0).tanh()] and [backward]. *)
Lemma tanh_then_backward_witness :
  built Example.runtime zero_store /\
  PyFloat.math_exp Example.runtime (2 * data_of zero_store 0) = Ok 1%float /\
  PyFloat.truediv (1 - 1) (1 + 1) = Ok 0%float /\
  PyFloat.pow Example.runtime 0 2 = Ok 0%float /\
  exists h1 h2,
    tanh Example.runtime 0 zero_store = (h1, Ok 1) /\
    data_of h1 1 = 0%float /\
    backward Example.runtime 1 h1 = (h2, Ok tt) /\
    grad_of h2 1 = 1%float /\
    grad_of h2 0 = (grad_of zero_store 0 + (1 - 0) * 1)%float.
Proof.
  assert (Hb : built Example.runtime zero_store).
  { apply run_built. simpl. repeat split; lia. }
  split; [exact Hb|]. repeat (split; [reflexivity|]).
  apply (@tanh_then_backward Example.runtime zero_store 0 1 0 0 Hb);
    try (simpl; lia); try reflexivity.
  apply power_free_defined. reflexivity.
Defined.

(** [Value(0.0).exp()] and [backward]. *)
Lemma exp_then_backward_witness :
  built Example.runtime zero_store /\
  PyFloat.math_exp Example.runtime (data_of zero_store 0) = Ok 1%float /\
  exists h1 h2,
    exp Example.runtime 0 zero_store = (h1, Ok 1) /\
    data_of h1 1 = 1%float /\
    backward Example.runtime 1 h1 = (h2, Ok tt) /\
    grad_of h2 1 = 1%float /\
    grad_of h2 0 = (grad_of zero_store 0 + 1 * 1)%float.
Proof.
  assert (Hb : built Example.runtime zero_store).
  { apply run_built. simpl. repeat split; lia. }
  split; [exact Hb|]. split; [reflexivity|].
  apply (@exp_then_backward Example.runtime zero_store 0 1 Hb);
    try (simpl; lia); try reflexivity.
  apply power_free_defined. reflexivity.
Defined.

(** [x = Value(0.0); y = x ** 0.5; y.backward()]: the square root of zero
    is made, its derivative divides by zero. *)
Lemma power_backward_raises_witness :
  built Example.runtime zero_store /\
  PyFloat.pow Example.runtime (data_of zero_store 0) 0.5 = Ok 0%float /\
  PyFloat.pow Example.runtime (data_of zero_store 0) (0.5 - 1)
  = Raise ZeroDivisionError /\
  exists h1,
    __pow__ Example.runtime 0 (Num 0.5) zero_store = (h1, Ok 1) /\
    backward Example.runtime 1 h1 = (set_grad 1 1 h1, Raise ZeroDivisionError).
Proof.
  assert (Hb : built Example.runtime zero_store).
  { apply run_built. simpl. repeat split; lia. }
  split; [exact Hb|]. split; [reflexivity|]. split; [reflexivity|].
  apply (@power_backward_raises Example.runtime zero_store 0 0.5 0
           ZeroDivisionError Hb);
    try (simpl; lia); try reflexivity.
  discriminate.
Defined.

(** [Value(400.0).tanh()] where [exp(800.0)] overflows, and [tanh] of the
    [Value] of 2 ** 1023, whose double is infinite. *)
Lemma tanh_overflows_witness :
  (is_finite (2 * data_of large_store 0) = true /\
   is_infinity (libm_exp overflowing_runtime (2 * data_of large_store 0))
   = true /\
   tanh overflowing_runtime 0 large_store
   = (large_store, Raise OverflowError)) /\
  (is_finite (data_of huge_store 0) = true /\
   (2 * data_of huge_store 0)%float = infinity /\
   libm_exp overflowing_runtime infinity = infinity /\
   exists out,
     tanh overflowing_runtime 0 huge_store = (huge_store ++ [out], Ok 1) /\
     is_nan (data out) = true /\ grad out = 0%float).
Proof.
  split.
  - split; [reflexivity|]. split; [reflexivity|].
    exact (proj1 (tanh_overflows overflowing_runtime large_store 0)
                 eq_refl eq_refl).
  - split; [reflexivity|]. split; [reflexivity|]. split; [reflexivity|].
    exact (proj2 (tanh_overflows overflowing_runtime huge_store 0)
                 eq_refl eq_refl).
Defined.

(** [trace] of the affine scenario from [L]. *)
Lemma trace_collects_the_graph_witness :
  built Example.runtime affine_store /\
  6 < length affine_store /\
  exists nodes edges,
    Visualization.trace 6 affine_store = (affine_store, Ok (nodes, edges)) /\
    NoDup nodes /\ NoDup edges /\
    (forall v, In v nodes <-> reachable affine_store 6 v) /\
    (forall c v, In (c, v) edges <->
                 reachable affine_store 6 v /\ In c (prev_of affine_store v)) /\
    (forall v, In v nodes <-> In v (topo_order affine_store 6)) /\
    length nodes = length (topo_order affine_store 6).
Proof.
  assert (Hb : built Example.runtime affine_store).
  { apply run_built. simpl. repeat split; lia. }
  assert (Ht : 6 < length affine_store) by (simpl; lia).
  split; [exact Hb|]. split; [exact Ht|].
  exact (trace_collects_the_graph Hb Ht).
Defined.

Lemma zeros_store_built : built Example.runtime zeros_store.
Proof. apply run_built. simpl. repeat split; lia. Defined.

Lemma first_neuron_in : Net.Neuron_in zeros_store first_neuron.
Proof. intros v [ <- | [ <- | [] ] ]; simpl; lia. Defined.

(** A neuron with weight 0.0 and bias 0.0 on the input 5.0. *)
Lemma neuron_forward_witness :
  built Example.runtime zeros_store /\
  Net.Neuron_in zeros_store first_neuron /\
  Net.arg_in zeros_store (Net.Many [Num 5]) /\
  PyFloat.math_exp Example.runtime
    (2 * Net.activation_of zeros_store first_neuron [Num 5]) = Ok 1%float /\
  PyFloat.truediv (1 - 1) (1 + 1) = Ok 0%float /\
  exists new out,
    Net.Neuron_call Example.runtime first_neuron (Net.Many [Num 5])
                    (zeros_store, 0)
    = ((zeros_store ++ new, 0), Net.Returned out) /\
    length zeros_store <= out < length (zeros_store ++ new) /\
    built Example.runtime (zeros_store ++ new) /\
    data_of (zeros_store ++ new) out = 0%float /\
    grad_of (zeros_store ++ new) out = 0%float.
Proof.
  assert (Hx : Net.arg_in zeros_store (Net.Many [Num 5])).
  { intros o [ <- | [] ]. exact I. }
  split; [exact zeros_store_built|]. split; [exact first_neuron_in|].
  split; [exact Hx|]. split; [reflexivity|]. split; [reflexivity|].
  exact (@neuron_forward Example.runtime first_neuron [Num 5] zeros_store 0
           1 0 zeros_store_built first_neuron_in Hx eq_refl eq_refl).
Defined.

(** A layer of one neuron returns the [Value] of that neuron, not a
    list. *)
Lemma layer_result_shape_witness :
  Net.Layer_call Example.runtime first_layer (Net.Many [Num 5])
                 (zeros_store, 0)
  = (fst (Net.Layer_call Example.runtime first_layer (Net.Many [Num 5])
                         (zeros_store, 0)),
     Net.Returned (Net.One (Ref 7))) /\
  exists outs,
    Net.called_in_turn Example.runtime (Net.neurons first_layer)
      (Net.Many [Num 5]) (zeros_store, 0) outs
      (fst (Net.Layer_call Example.runtime first_layer (Net.Many [Num 5])
                           (zeros_store, 0))) /\
    length outs = length (Net.neurons first_layer) /\
    (forall n, Net.neurons first_layer = [n] ->
       exists o,
         Net.Neuron_call Example.runtime n (Net.Many [Num 5]) (zeros_store, 0)
         = (fst (Net.Layer_call Example.runtime first_layer
                                (Net.Many [Num 5]) (zeros_store, 0)),
            Net.Returned o) /\
         outs = [o] /\ Net.One (Ref 7) = Net.One (Ref o)) /\
    (length (Net.neurons first_layer) <> 1 ->
     Net.One (Ref 7) = Net.Many (map Ref outs)).
Proof.
  assert (E : Net.Layer_call Example.runtime first_layer (Net.Many [Num 5])
                             (zeros_store, 0)
              = (fst (Net.Layer_call Example.runtime first_layer
                                     (Net.Many [Num 5]) (zeros_store, 0)),
                 Net.Returned (Net.One (Ref 7))))
    by reflexivity.
  split; [exact E|].
  exact (layer_result_shape _ _ _ _ E).
Defined.

(** Two layers of one neuron each: the second is called on a [Value]. *)
Lemma one_neuron_layer_breaks_the_next_witness :
  Net.feed Example.runtime [] (Net.Many [Num 5]) (zeros_store, 0)
  = ((zeros_store, 0), Net.Returned (Net.Many [Num 5])) /\
  length (Net.neurons first_layer) = 1 /\
  Net.neurons second_layer <> [] /\
  Net.MLP_call Example.runtime
    {| Net.layers := [] ++ first_layer :: second_layer :: [] |}
    (Net.Many [Num 5]) (zeros_store, 0)
  = (fst (Net.Layer_call Example.runtime first_layer (Net.Many [Num 5])
                         (zeros_store, 0)),
     Net.Failed Net.TypeError).
Proof.
  assert (E : Net.Layer_call Example.runtime first_layer (Net.Many [Num 5])
                             (zeros_store, 0)
              = (fst (Net.Layer_call Example.runtime first_layer
                                     (Net.Many [Num 5]) (zeros_store, 0)),
                 Net.Returned (Net.One (Ref 7))))
    by reflexivity.
  assert (Hsome : Net.neurons second_layer <> []) by discriminate.
  split; [reflexivity|]. split; [reflexivity|]. split; [exact Hsome|].
  exact (@one_neuron_layer_breaks_the_next Example.runtime [] first_layer
           second_layer [] _ _ _ _ _ _ eq_refl E eq_refl Hsome).
Defined.

(** The forward pass of a network of one layer of one neuron. *)
Lemma forward_pass_only_appends_witness :
  built Example.runtime zeros_store /\
  Net.MLP_in zeros_store {| Net.layers := [first_layer] |} /\
  Net.arg_in zeros_store (Net.Many [Num 5]) /\
  exists new r,
    Net.MLP_call Example.runtime {| Net.layers := [first_layer] |}
                 (Net.Many [Num 5]) (zeros_store, 0)
    = ((zeros_store ++ new, 0), r) /\
    built Example.runtime (zeros_store ++ new) /\
    (forall v, v < length zeros_store ->
               nth_error (zeros_store ++ new) v = nth_error zeros_store v) /\
    (forall y, r = Net.Returned y -> Net.arg_in (zeros_store ++ new) y).
Proof.
  assert (Hm : Net.MLP_in zeros_store {| Net.layers := [first_layer] |}).
  { intros l [ <- | [] ] n [ <- | [] ]. exact first_neuron_in. }
  assert (Hx : Net.arg_in zeros_store (Net.Many [Num 5])).
  { intros o [ <- | [] ]. exact I. }
  split; [exact zeros_store_built|]. split; [exact Hm|]. split; [exact Hx|].
  exact (@forward_pass_only_appends Example.runtime _ _ zeros_store 0
           zeros_store_built Hm Hx).
Defined.

(** ** Subtraction and division: a derivative through two operations *)

Section Chains.

Variable rt : PyRuntime.

Local Open Scope float_scope.

(** An object with one consumer under the terminal gets what that
    consumer's closure adds, computed from the consumer's final [grad]. *)
Lemma backward_single_consumer h t u x :
  wf_heap h -> (t < length h)%nat -> closures_defined rt h t -> x <> t ->
  reachable h t u ->
  (forall u', reachable h t u' ->
              In x (closure_operands (backward_of h u')) -> u' = u) ->
  exists h',
    backward rt t h = (h', Ok tt) /\ same_graph h h' /\
    grad_of h' x =
    fold_left add (contributions rt h' (backward_of h u) x) (grad_of h x).
Proof.
  intros Hwf Ht Hdef Hx Hu Honly.
  destruct (backward_spec Hwf Ht Hdef) as (h' & E & Hsg & Ht1 & Hg).
  exists h'. split; [assumption|]. split; [assumption|].
  rewrite (Hg x Hx). f_equal.
  destruct (topo_order_spec Hwf Ht) as (_ & _ & Hnd & _ & Hreach).
  unfold replay_contributions.
  rewrite flat_map_only with (t := u).
  - destruct (proj2 Hsg u) as (_ & _ & ->). reflexivity.
  - now apply NoDup_rev.
  - apply in_rev. rewrite rev_involutive. now apply Hreach.
  - intros u' Hu' Hne. apply contributions_not_operand.
    intros Hin. apply Hne. apply Honly.
    + apply Hreach. now apply in_rev.
    + destruct (proj2 Hsg u') as (_ & _ & Hb). now rewrite <- Hb.
Qed.

Lemma operand_older h u x :
  wf_heap h -> In x (closure_operands (backward_of h u)) -> (x < u)%nat.
Proof.
  intros Hwf Hin. apply (prev_older Hwf).
  unfold backward_of in Hin. unfold prev_of.
  destruct (nth_error h u) as [y|] eqn:E; [|destruct Hin].
  now apply (wf_operands (Hwf _ _ E)).
Qed.

Lemma closures_defined_old h l u :
  wf_heap h -> (u < length h)%nat ->
  closures_defined rt h u ->
  forall w, reachable h u w ->
            closure_defined rt (h ++ l) (backward_of (h ++ l) w).
Proof.
  intros Hwf Hu Hd w Hw.
  assert (Hlt : (w < length h)%nat).
  { pose proof (reachable_le Hwf Hw). lia. }
  rewrite backward_of_old by assumption.
  apply closure_defined_old; auto.
Qed.

(** What [backward] finds under [a - b]: the sum, the product [b * -1],
    the constant, and what is under [a] and under [b]. *)
Lemma reachable_difference h a b u :
  wf_heap h -> (a < length h)%nat -> (b < length h)%nat ->
  let n := length h in
  reachable
    (h ++ [fresh rt n (-1) [] op_leaf no_backward;
           fresh rt (n + 1) (data_of h b * -1) [b; n] op_mul
                 (mul_backward b n (n + 1));
           fresh rt (n + 2) (data_of h a + data_of h b * -1)
                 [a; (n + 1)%nat] op_add
                 (add_backward a (n + 1) (n + 2))])
    (n + 2) u ->
  u = (n + 2)%nat \/ u = (n + 1)%nat \/ u = n \/
  reachable h a u \/ reachable h b u.
Proof.
  intros Hwf Ha Hb n Hr.
  apply reachable_inv in Hr as [->|(c1 & Hc1 & Hr)]; [now left|].
  unfold prev_of in Hc1. rewrite nth_error_app_new in Hc1. simpl in Hc1.
  apply In_pyset in Hc1. destruct Hc1 as [ <- | [ <- | [] ] ].
  - right. right. right. left. now apply reachable_old in Hr.
  - apply reachable_inv in Hr as [->|(c2 & Hc2 & Hr)]; [now right; left|].
    unfold prev_of in Hc2. rewrite nth_error_app_new in Hc2. simpl in Hc2.
    apply In_pyset in Hc2. destruct Hc2 as [ <- | [ <- | [] ] ].
    + right. right. right. right. now apply reachable_old in Hr.
    + apply reachable_inv in Hr as [->|(c3 & Hc3 & Hr)];
        [now right; right; left|].
      unfold prev_of in Hc3.
      replace n with (length h + 0)%nat in Hc3 by (unfold n; lia).
      rewrite nth_error_app_new in Hc3. simpl in Hc3.
      apply In_pyset in Hc3. destruct Hc3.
Qed.

End Chains.

(** X19: [out = a - b; out.backward()] for two objects neither of which
    is built from the other, the closures below them returning:
    [out.data] is [a.data - b.data], [backward] returns, [a.grad] has grown
    by 1.0 and [b.grad] by -1.0, which reaches [b] through the product
    [b * -1] that [__neg__] makes. *)
Theorem difference_then_backward rt h a b :
  built rt h -> a < length h -> b < length h ->
  closures_defined rt h a -> closures_defined rt h b ->
  ~ reachable h a b -> ~ reachable h b a ->
  exists h1 h2,
    __sub__ rt a (Ref b) h = (h1, Ok (length h + 2)) /\
    data_of h1 (length h + 2) = (data_of h a - data_of h b)%float /\
    backward rt (length h + 2) h1 = (h2, Ok tt) /\
    grad_of h2 (length h + 2) = 1%float /\
    grad_of h2 a = (grad_of h a + 1)%float /\
    grad_of h2 b = (grad_of h b + -1)%float.
Proof.
  intros Hbuilt Ha Hb Hda Hdb Hab Hba.
  pose proof (built_wf Hbuilt) as Hwf.
  assert (Hne : a <> b) by (intros ->; apply Hab; constructor).
  pose proof (@sub_Ref_spec rt a b h Ha Hb) as E1. cbv zeta in E1.
  set (n := length h) in *.
  set (h3 := h ++ _) in E1.
  assert (Hwf3 : wf_heap h3).
  { change h3 with (fst (h3, @Ok nat (n + 2))). rewrite <- E1.
    apply (@perform_wf rt (do_sub a (Ref b)) h Hwf). simpl. auto. }
  assert (Hlen : length h3 = n + 3).
  { unfold h3. rewrite length_app. reflexivity. }
  assert (Bo : backward_of h3 (n + 2) = add_backward a (n + 1) (n + 2)).
  { unfold backward_of, h3, n. now rewrite nth_error_app_new. }
  assert (Bm : backward_of h3 (n + 1) = mul_backward b n (n + 1)).
  { unfold backward_of, h3, n. now rewrite nth_error_app_new. }
  assert (Bc : backward_of h3 n = no_backward).
  { unfold backward_of, h3. replace n with (length h + 0) by (unfold n; lia).
    now rewrite nth_error_app_new. }
  assert (Hreach : forall u, reachable h3 (n + 2) u ->
            u = n + 2 \/ u = n + 1 \/ u = n \/
            reachable h a u \/ reachable h b u).
  { intros u. apply reachable_difference; assumption. }
  assert (Hold : forall y u, y < n -> reachable h y u ->
            u < n /\ backward_of h3 u = backward_of h u).
  { intros y u Hy Hr. pose proof (reachable_le Hwf Hr).
    split; [lia|]. unfold h3. apply backward_of_old. unfold n in *. lia. }
  assert (Hdef : closures_defined rt h3 (n + 2)).
  { intros u Hu.
    destruct (Hreach u Hu) as [ -> | [ -> | [ -> | [Hr|Hr] ] ] ].
    - now rewrite Bo.
    - now rewrite Bm.
    - now rewrite Bc.
    - exact (@closures_defined_old rt h _ a Hwf Ha Hda u Hr).
    - exact (@closures_defined_old rt h _ b Hwf Hb Hdb u Hr). }
  assert (Ht : n + 2 < length h3) by lia.
  assert (Hrm : reachable h3 (n + 2) (n + 1)).
  { eapply reach_step; [|constructor].
    unfold prev_of, h3, n. rewrite nth_error_app_new. simpl.
    apply In_pyset. right. now left. }
  (* the product [b * -1]: its one consumer is the sum *)
  destruct (@backward_direct_operand rt h3 (n + 2) (n + 1) Hwf3 Ht Hdef)
    as (h2 & E2 & Hsg & Hgm); [lia| |].
  { intros u Hu Hin. pose proof (reachable_le Hwf3 Hu).
    pose proof (@operand_older _ _ _ Hwf3 Hin). lia. }
  (* [a]: its one consumer is the sum *)
  destruct (@backward_direct_operand rt h3 (n + 2) a Hwf3 Ht Hdef)
    as (h2' & E2' & _ & Hga); [unfold n; lia| |].
  { intros u Hu Hin.
    destruct (Hreach u Hu) as [ -> | [ -> | [ -> | [Hr|Hr] ] ] ].
    - reflexivity.
    - rewrite Bm in Hin. simpl in Hin. unfold n in Hin.
      destruct Hin as [Hin|[Hin|[]]]; [congruence | lia].
    - rewrite Bc in Hin. destruct Hin.
    - destruct (Hold a u Ha Hr) as [_ Eu]. rewrite Eu in Hin.
      pose proof (reachable_le Hwf Hr). pose proof (@operand_older _ _ _ Hwf Hin).
      lia.
    - destruct (Hold b u Hb Hr) as [_ Eu]. rewrite Eu in Hin.
      exfalso. apply Hba. eapply operand_reachable; eauto. }
  assert (h2' = h2) by congruence. subst h2'.
  (* [b]: its one consumer is the product *)
  destruct (@backward_single_consumer rt h3 (n + 2) (n + 1) b Hwf3 Ht Hdef)
    as (h2' & E2b & _ & Hgb); [unfold n; lia | exact Hrm | |].
  { intros u Hu Hin.
    destruct (Hreach u Hu) as [ -> | [ -> | [ -> | [Hr|Hr] ] ] ].
    - rewrite Bo in Hin. simpl in Hin. unfold n in Hin.
      destruct Hin as [Hin|[Hin|[]]]; [congruence | lia].
    - reflexivity.
    - rewrite Bc in Hin. destruct Hin.
    - destruct (Hold a u Ha Hr) as [_ Eu]. rewrite Eu in Hin.
      exfalso. apply Hab. eapply operand_reachable; eauto.
    - destruct (Hold b u Hb Hr) as [_ Eu]. rewrite Eu in Hin.
      pose proof (reachable_le Hwf Hr). pose proof (@operand_older _ _ _ Hwf Hin).
      lia. }
  assert (h2' = h2) by congruence. subst h2'.
  destruct (backward_spec Hwf3 Ht Hdef) as (h2' & E2'' & _ & Ht1 & _).
  assert (h2' = h2) by congruence. subst h2'.
  exists h3, h2. split; [exact E1|]. split.
  { unfold h3, data_of. rewrite nth_error_app_new. simpl.
    apply FloatFacts.plus_neg_is_minus. }
  split; [exact E2|]. split; [exact Ht1|].
  assert (Han : Nat.eqb a (n + 1) = false) by (apply Nat.eqb_neq; unfold n; lia).
  assert (Hna : Nat.eqb (n + 1) a = false) by (apply Nat.eqb_neq; unfold n; lia).
  assert (Hnb : Nat.eqb n b = false) by (apply Nat.eqb_neq; unfold n; lia).
  rewrite Bo in Hgm, Hga. rewrite Bm in Hgb. simpl in Hgm, Hga, Hgb.
  rewrite ?Nat.eqb_refl, ?Han, ?Hna, ?Hnb in Hgm, Hga, Hgb.
  simpl in Hgm, Hga, Hgb.
  rewrite grad_of_set_grad_eq in Hgm, Hga by assumption.
  assert (Gm0 : grad_of h3 (n + 1) = 0%float).
  { unfold grad_of, h3, n. now rewrite nth_error_app_new. }
  assert (Dc : data_of h2 n = (-1)%float).
  { destruct (proj2 Hsg n) as (-> & _). unfold data_of, h3.
    replace n with (length h + 0) by (unfold n; lia).
    now rewrite nth_error_app_new. }
  rewrite Han in Hgm. rewrite Hna in Hga. rewrite Hnb in Hgb.
  simpl in Hgm, Hga, Hgb. split.
  - rewrite Hga. unfold h3. now rewrite grad_of_old.
  - rewrite Hgb, Dc, Hgm, Gm0. unfold h3. now rewrite grad_of_old.
Qed.

(** What [backward] finds under [a / b]: the product, the power
    [b ** -1], and what is under [a] and under [b]. *)
Lemma reachable_quotient rt h a b p u :
  wf_heap h -> a < length h -> b < length h ->
  let n := length h in
  reachable
    (h ++ [fresh rt n p [b] (op_pow (-1)) (pow_backward b (-1) n);
           fresh rt (n + 1) (data_of h a * p) [a; n] op_mul
                 (mul_backward a n (n + 1))])
    (n + 1) u ->
  u = n + 1 \/ u = n \/ reachable h a u \/ reachable h b u.
Proof.
  intros Hwf Ha Hb n Hr.
  apply reachable_inv in Hr as [->|(c1 & Hc1 & Hr)]; [now left|].
  unfold prev_of in Hc1. rewrite nth_error_app_new in Hc1. simpl in Hc1.
  apply In_pyset in Hc1. destruct Hc1 as [ <- | [ <- | [] ] ].
  - right. right. left. now apply reachable_old in Hr.
  - apply reachable_inv in Hr as [->|(c2 & Hc2 & Hr)]; [now right; left|].
    unfold prev_of in Hc2.
    replace n with (length h + 0) in Hc2 by (unfold n; lia).
    rewrite nth_error_app_new in Hc2. simpl in Hc2.
    apply In_pyset in Hc2. destruct Hc2 as [ <- | [] ].
    right. right. right. now apply reachable_old in Hr.
Qed.

(** X20: [out = a / b; out.backward()] for two objects neither of which
    is built from the other, the closures below them returning, where
    [b.data ** -1] and [b.data ** -2] are floats: [out.data] is
    [a.data * b.data ** -1], [backward] returns, [a.grad] has grown by
    [b.data ** -1 * 1.0], and [b.grad] by [(-1 * b.data ** -2)] times the
    [grad] of the power, which is [0.0 + a.data * 1.0]. *)
Theorem quotient_then_backward rt h a b p p2 :
  built rt h -> a < length h -> b < length h ->
  closures_defined rt h a -> closures_defined rt h b ->
  ~ reachable h a b -> ~ reachable h b a ->
  PyFloat.pow rt (data_of h b) (-1) = Ok p ->
  PyFloat.pow rt (data_of h b) (-2) = Ok p2 ->
  exists h1 h2,
    __truediv__ rt a (Ref b) h = (h1, Ok (length h + 1)) /\
    data_of h1 (length h + 1) = (data_of h a * p)%float /\
    backward rt (length h + 1) h1 = (h2, Ok tt) /\
    grad_of h2 (length h + 1) = 1%float /\
    grad_of h2 a = (grad_of h a + p * 1)%float /\
    grad_of h2 b = (grad_of h b + (-1 * p2) * (0 + data_of h a * 1))%float.
Proof.
  intros Hbuilt Ha Hb Hda Hdb Hab Hba Ep Ep2.
  pose proof (built_wf Hbuilt) as Hwf.
  assert (Hne : a <> b) by (intros ->; apply Hab; constructor).
  pose proof (@truediv_Ref_spec rt a b h Ha) as E1. cbv zeta in E1.
  rewrite Ep in E1.
  set (n := length h) in *.
  set (h3 := h ++ _) in E1.
  assert (Hwf3 : wf_heap h3).
  { change h3 with (fst (h3, @Ok nat (n + 1))). rewrite <- E1.
    apply (@perform_wf rt (do_truediv a (Ref b)) h Hwf). simpl. auto. }
  assert (Hlen : length h3 = n + 2).
  { unfold h3. rewrite length_app. reflexivity. }
  assert (Bo : backward_of h3 (n + 1) = mul_backward a n (n + 1)).
  { unfold backward_of, h3, n. now rewrite nth_error_app_new. }
  assert (Bm : backward_of h3 n = pow_backward b (-1) n).
  { unfold backward_of, h3, n. rewrite nth_error_app2, Nat.sub_diag by lia.
    reflexivity. }
  assert (Hreach : forall u, reachable h3 (n + 1) u ->
            u = n + 1 \/ u = n \/ reachable h a u \/ reachable h b u).
  { intros u. apply reachable_quotient; assumption. }
  assert (Hold : forall y u, y < n -> reachable h y u ->
            u < n /\ backward_of h3 u = backward_of h u).
  { intros y u Hy Hr. pose proof (reachable_le Hwf Hr).
    split; [lia|]. unfold h3. apply backward_of_old. unfold n in *. lia. }
  assert (Db : data_of h3 b = data_of h b).
  { unfold h3. now apply data_of_old. }
  assert (Hdef : closures_defined rt h3 (n + 1)).
  { intros u Hu.
    destruct (Hreach u Hu) as [ -> | [ -> | [Hr|Hr] ] ].
    - now rewrite Bo.
    - rewrite Bm. exists p2. rewrite Db. exact Ep2.
    - exact (@closures_defined_old rt h _ a Hwf Ha Hda u Hr).
    - exact (@closures_defined_old rt h _ b Hwf Hb Hdb u Hr). }
  assert (Ht : n + 1 < length h3) by lia.
  assert (Hrm : reachable h3 (n + 1) n).
  { eapply reach_step; [|constructor].
    unfold prev_of, h3, n. rewrite nth_error_app_new. simpl.
    apply In_pyset. right. now left. }
  (* the power [b ** -1]: its one consumer is the product *)
  destruct (@backward_direct_operand rt h3 (n + 1) n Hwf3 Ht Hdef)
    as (h2 & E2 & Hsg & Hgm); [lia| |].
  { intros u Hu Hin. pose proof (reachable_le Hwf3 Hu).
    pose proof (@operand_older _ _ _ Hwf3 Hin). lia. }
  (* [a]: its one consumer is the product *)
  destruct (@backward_direct_operand rt h3 (n + 1) a Hwf3 Ht Hdef)
    as (h2' & E2' & _ & Hga); [unfold n; lia| |].
  { intros u Hu Hin.
    destruct (Hreach u Hu) as [ -> | [ -> | [Hr|Hr] ] ].
    - reflexivity.
    - rewrite Bm in Hin. simpl in Hin.
      destruct Hin as [Hin|[]]. congruence.
    - destruct (Hold a u Ha Hr) as [_ Eu]. rewrite Eu in Hin.
      pose proof (reachable_le Hwf Hr).
      pose proof (@operand_older _ _ _ Hwf Hin). lia.
    - destruct (Hold b u Hb Hr) as [_ Eu]. rewrite Eu in Hin.
      exfalso. apply Hba. eapply operand_reachable; eauto. }
  assert (h2' = h2) by congruence. subst h2'.
  (* [b]: its one consumer is the power *)
  destruct (@backward_single_consumer rt h3 (n + 1) n b Hwf3 Ht Hdef)
    as (h2' & E2b & _ & Hgb); [unfold n; lia | exact Hrm | |].
  { intros u Hu Hin.
    destruct (Hreach u Hu) as [ -> | [ -> | [Hr|Hr] ] ].
    - rewrite Bo in Hin. simpl in Hin. unfold n in Hin.
      destruct Hin as [Hin|[Hin|[]]]; [congruence | lia].
    - reflexivity.
    - destruct (Hold a u Ha Hr) as [_ Eu]. rewrite Eu in Hin.
      exfalso. apply Hab. eapply operand_reachable; eauto.
    - destruct (Hold b u Hb Hr) as [_ Eu]. rewrite Eu in Hin.
      pose proof (reachable_le Hwf Hr).
      pose proof (@operand_older _ _ _ Hwf Hin). lia. }
  assert (h2' = h2) by congruence. subst h2'.
  destruct (backward_spec Hwf3 Ht Hdef) as (h2' & E2'' & _ & Ht1 & _).
  assert (h2' = h2) by congruence. subst h2'.
  exists h3, h2. split; [exact E1|]. split.
  { unfold h3, data_of. now rewrite nth_error_app_new. }
  split; [exact E2|]. split; [exact Ht1|].
  assert (Han : Nat.eqb a n = false) by (apply Nat.eqb_neq; unfold n; lia).
  assert (Dm : data_of h3 n = p).
  { unfold data_of, h3, n. rewrite nth_error_app2, Nat.sub_diag by lia.
    reflexivity. }
  assert (Da : data_of h3 a = data_of h a).
  { unfold h3. now apply data_of_old. }
  assert (Gm0 : grad_of h3 n = 0%float).
  { unfold grad_of, h3, n. rewrite nth_error_app2, Nat.sub_diag by lia.
    reflexivity. }
  rewrite Bo in Hgm, Hga. rewrite Bm in Hgb. simpl in Hgm, Hga, Hgb.
  rewrite Nat.eqb_refl in Hgm, Hga, Hgb. rewrite Han in Hgm.
  rewrite (Nat.eqb_sym n a), Han in Hga.
  rewrite !data_of_set_grad in Hgm, Hga.
  rewrite grad_of_set_grad_eq in Hgm, Hga by assumption.
  rewrite Da, Gm0 in Hgm. rewrite Dm in Hga.
  destruct (proj2 Hsg b) as (Db2 & _). rewrite Db2, Db in Hgb.
  change (-1 - 1)%float with (-2)%float in Hgb. rewrite Ep2 in Hgb.
  simpl in Hgm, Hga, Hgb. split.
  - rewrite Hga. unfold h3. now rewrite grad_of_old.
  - rewrite Hgb, Hgm. unfold h3. now rewrite grad_of_old.
Qed.

Lemma pair_store_built : built Example.runtime pair_store.
Proof. apply run_built. simpl. repeat split; lia. Defined.

Lemma pair_store_0_1 : ~ reachable pair_store 0 1.
Proof.
  intros Hr. apply leaf_reaches_itself in Hr; [discriminate | reflexivity].
Defined.

Lemma pair_store_1_0 : ~ reachable pair_store 1 0.
Proof.
  intros Hr. apply leaf_reaches_itself in Hr; [discriminate | reflexivity].
Defined.

(** [Value(2.0) - Value(3.0)] and [backward]. *)
Lemma difference_then_backward_witness :
  built Example.runtime pair_store /\
  ~ reachable pair_store 0 1 /\ ~ reachable pair_store 1 0 /\
  exists h1 h2,
    __sub__ Example.runtime 0 (Ref 1) pair_store = (h1, Ok 4) /\
    data_of h1 4 = (data_of pair_store 0 - data_of pair_store 1)%float /\
    backward Example.runtime 4 h1 = (h2, Ok tt) /\
    grad_of h2 4 = 1%float /\
    grad_of h2 0 = (grad_of pair_store 0 + 1)%float /\
    grad_of h2 1 = (grad_of pair_store 1 + -1)%float.
Proof.
  split; [exact pair_store_built|].
  split; [exact pair_store_0_1|]. split; [exact pair_store_1_0|].
  apply (@difference_then_backward Example.runtime pair_store 0 1
           pair_store_built);
    try (simpl; lia); try (apply power_free_defined; reflexivity).
  - exact pair_store_0_1.
  - exact pair_store_1_0.
Defined.

(** [Value(3.0) / Value(2.0)] and [backward]. *)
Lemma quotient_then_backward_witness :
  built Example.runtime pair_store /\
  ~ reachable pair_store 1 0 /\ ~ reachable pair_store 0 1 /\
  PyFloat.pow Example.runtime (data_of pair_store 0) (-1) = Ok 0.5%float /\
  PyFloat.pow Example.runtime (data_of pair_store 0) (-2) = Ok 0.25%float /\
  exists h1 h2,
    __truediv__ Example.runtime 1 (Ref 0) pair_store = (h1, Ok 3) /\
    data_of h1 3 = (data_of pair_store 1 * 0.5)%float /\
    backward Example.runtime 3 h1 = (h2, Ok tt) /\
    grad_of h2 3 = 1%float /\
    grad_of h2 1 = (grad_of pair_store 1 + 0.5 * 1)%float /\
    grad_of h2 0 = (grad_of pair_store 0
                    + (-1 * 0.25) * (0 + data_of pair_store 1 * 1))%float.
Proof.
  split; [exact pair_store_built|].
  split; [exact pair_store_1_0|]. split; [exact pair_store_0_1|].
  split; [reflexivity|]. split; [reflexivity|].
  apply (@quotient_then_backward Example.runtime pair_store 1 0 0.5 0.25
           pair_store_built);
    try (simpl; lia); try (apply power_free_defined; reflexivity);
    try reflexivity.
  - exact pair_store_1_0.
  - exact pair_store_0_1.
Defined.

(** ** A number as operand: the constant made for it *)

Section Constants.

Variable rt : PyRuntime.

Local Open Scope float_scope.

(** The store after [Value(c)] has been made for a number [c], seen from
    an operand [a] that was there. *)
Lemma with_constant h a c :
  built rt h -> (a < length h)%nat -> closures_defined rt h a ->
  let n := length h in
  let h1 := h ++ [fresh rt n c [] op_leaf no_backward] in
  wf_heap h1 /\ length h1 = (n + 1)%nat /\
  (forall y, In y [a; n] -> (y < length h1)%nat) /\
  (forall y, In y [a; n] -> closures_defined rt h1 y) /\
  (forall v y, In v [a; n] -> In y [a; n] -> y = v \/ ~ reachable h1 y v).
Proof.
  intros Hb Ha Hda n h1. pose proof (built_wf Hb) as Hwf.
  assert (Hb1 : built rt h1).
  { apply (built_step (new_leaf c) Hb). exact I. }
  pose proof (built_wf Hb1) as Hwf1.
  assert (Hlen : length h1 = (n + 1)%nat).
  { unfold h1. rewrite length_app. reflexivity. }
  assert (Hpn : prev_of h1 n = []).
  { unfold prev_of, h1, n. rewrite nth_error_last. simpl. unfold pyset.
    simpl. now destruct (iter_swap rt (length h)). }
  split; [assumption|]. split; [assumption|]. split.
  { intros y [ <- | [ <- | [] ] ]; unfold n in *; lia. }
  split.
  { intros y [ <- | [ <- | [] ] ] u Hu.
    - apply reachable_old in Hu; try assumption.
      now apply closures_defined_old with (u := a).
    - apply (leaf_reaches_itself Hpn) in Hu. subst u.
      now rewrite (leaf_closure _ Hwf1 Hpn). }
  intros v y [ <- | [ <- | [] ] ] [ <- | [ <- | [] ] ]; try (now left);
    right; intros Hr.
  - apply (leaf_reaches_itself Hpn) in Hr. unfold n in *. lia.
  - pose proof (reachable_le Hwf1 Hr). unfold n in *. lia.
Qed.

End Constants.

(** X21: [out = a * c] for a number [c], and the same for [c * a], which
    Python hands to [__rmul__]: a constant [Value(c)] is made, then the
    product; [out.data] is [a.data * c]; after [out.backward()], [a.grad]
    has grown by [c * 1.0], and the constant has a [grad] too,
    [0.0 + a.data * 1.0]. *)
Theorem number_factor_then_backward rt h a c :
  built rt h -> a < length h -> closures_defined rt h a ->
  exists h1 h2,
    __mul__ rt a (Num c) h = (h1, Ok (length h + 1)) /\
    number_times rt c a h = (h1, Ok (length h + 1)) /\
    length h1 = length h + 2 /\
    data_of h1 (length h + 1) = (data_of h a * c)%float /\
    backward rt (length h + 1) h1 = (h2, Ok tt) /\
    grad_of h2 a = (grad_of h a + c * 1)%float /\
    grad_of h2 (length h) = (0 + data_of h a * 1)%float.
Proof.
  intros Hb Ha Hda.
  destruct (@with_constant rt h a c Hb Ha Hda)
    as (Hwf1 & Hlen & Hch & Hdefs & Hfar).
  pose proof (@mul_Num_spec rt a c h Ha) as E1. cbv zeta in E1.
  set (n := length h) in *.
  set (hc := h ++ [fresh rt n c [] op_leaf no_backward]) in *.
  set (cl := mul_backward a n (n + 1)).
  set (d := (data_of h a * c)%float).
  assert (Eh : h ++ [fresh rt n c [] op_leaf no_backward;
                     fresh rt (n + 1) d [a; n] op_mul cl]
               = hc ++ [fresh rt (length hc) d [a; n] op_mul cl]).
  { rewrite Hlen. unfold hc. now rewrite <- app_assoc. }
  assert (Hops : forall y, In y (closure_operands cl) -> In y [a; n])
    by (intros y Hy; exact Hy).
  assert (Hout : forall o, closure_out cl = Some o -> o = length hc)
    by (intros o [= <-]; now rewrite Hlen).
  destruct (@operation_then_backward rt hc d [a; n] op_mul cl a
              Hwf1 Hch Hops Hout I Hdefs (or_introl eq_refl))
    as (h2 & E2 & _ & _ & Hga).
  { intros y Hy. apply Hfar; [now left | exact Hy]. }
  destruct (@operation_then_backward rt hc d [a; n] op_mul cl n
              Hwf1 Hch Hops Hout I Hdefs (or_intror (or_introl eq_refl)))
    as (h2' & E2' & _ & _ & Hgn).
  { intros y Hy. apply Hfar; [right; now left | exact Hy]. }
  assert (h2' = h2) by congruence. subst h2'.
  rewrite <- Eh, Hlen in E2.
  exists (h ++ [fresh rt n c [] op_leaf no_backward;
                fresh rt (n + 1) d [a; n] op_mul cl]), h2.
  split; [exact E1|]. split; [exact E1|].
  split; [rewrite length_app; reflexivity|].
  split; [unfold data_of; rewrite nth_error_app_new; reflexivity|].
  split; [exact E2|].
  assert (Han : Nat.eqb n a = false) by (apply Nat.eqb_neq; unfold n; lia).
  assert (Dn : data_of hc n = c).
  { unfold data_of, hc, n. now rewrite nth_error_last. }
  assert (Gn : grad_of hc n = 0%float).
  { unfold grad_of, hc, n. now rewrite nth_error_last. }
  simpl in Hga, Hgn. rewrite Nat.eqb_refl in Hga, Hgn.
  rewrite Han in Hga. rewrite (Nat.eqb_sym a n), Han in Hgn.
  rewrite !data_of_set_grad in Hga, Hgn. rewrite <- Hlen in Hga, Hgn.
  rewrite grad_of_set_grad_eq in Hga, Hgn
    by (rewrite length_app; simpl; lia).
  rewrite !data_of_old in Hga, Hgn by lia.
  rewrite Dn in Hga. rewrite Gn in Hgn. simpl in Hga, Hgn.
  split.
  - rewrite Hga. unfold hc. now rewrite grad_of_old.
  - rewrite Hgn. unfold hc. now rewrite data_of_old.
Qed.

(** X22: [out = a + c] for a number [c], and the same for [c + a], which
    Python hands to [__radd__]: a constant [Value(c)] is made, then the
    sum; [out.data] is [a.data + c]; after [out.backward()], [a.grad] has
    grown by 1.0 and the constant's [grad] is [0.0 + 1.0]. *)
Theorem number_term_then_backward rt h a c :
  built rt h -> a < length h -> closures_defined rt h a ->
  exists h1 h2,
    __add__ rt a (Num c) h = (h1, Ok (length h + 1)) /\
    number_plus rt c a h = (h1, Ok (length h + 1)) /\
    length h1 = length h + 2 /\
    data_of h1 (length h + 1) = (data_of h a + c)%float /\
    backward rt (length h + 1) h1 = (h2, Ok tt) /\
    grad_of h2 a = (grad_of h a + 1)%float /\
    grad_of h2 (length h) = 1%float.
Proof.
  intros Hb Ha Hda.
  destruct (@with_constant rt h a c Hb Ha Hda)
    as (Hwf1 & Hlen & Hch & Hdefs & Hfar).
  pose proof (@add_Num_spec rt a c h Ha) as E1. cbv zeta in E1.
  set (n := length h) in *.
  set (hc := h ++ [fresh rt n c [] op_leaf no_backward]) in *.
  set (cl := add_backward a n (n + 1)).
  set (d := (data_of h a + c)%float).
  assert (Eh : h ++ [fresh rt n c [] op_leaf no_backward;
                     fresh rt (n + 1) d [a; n] op_add cl]
               = hc ++ [fresh rt (length hc) d [a; n] op_add cl]).
  { rewrite Hlen. unfold hc. now rewrite <- app_assoc. }
  assert (Hops : forall y, In y (closure_operands cl) -> In y [a; n])
    by (intros y Hy; exact Hy).
  assert (Hout : forall o, closure_out cl = Some o -> o = length hc)
    by (intros o [= <-]; now rewrite Hlen).
  destruct (@operation_then_backward rt hc d [a; n] op_add cl a
              Hwf1 Hch Hops Hout I Hdefs (or_introl eq_refl))
    as (h2 & E2 & _ & _ & Hga).
  { intros y Hy. apply Hfar; [now left | exact Hy]. }
  destruct (@operation_then_backward rt hc d [a; n] op_add cl n
              Hwf1 Hch Hops Hout I Hdefs (or_intror (or_introl eq_refl)))
    as (h2' & E2' & _ & _ & Hgn).
  { intros y Hy. apply Hfar; [right; now left | exact Hy]. }
  assert (h2' = h2) by congruence. subst h2'.
  rewrite <- Eh, Hlen in E2.
  exists (h ++ [fresh rt n c [] op_leaf no_backward;
                fresh rt (n + 1) d [a; n] op_add cl]), h2.
  split; [exact E1|]. split; [exact E1|].
  split; [rewrite length_app; reflexivity|].
  split; [unfold data_of; rewrite nth_error_app_new; reflexivity|].
  split; [exact E2|].
  assert (Han : Nat.eqb n a = false) by (apply Nat.eqb_neq; unfold n; lia).
  assert (Gn : grad_of hc n = 0%float).
  { unfold grad_of, hc, n. now rewrite nth_error_last. }
  simpl in Hga, Hgn. rewrite Nat.eqb_refl in Hga, Hgn.
  rewrite Han in Hga. rewrite (Nat.eqb_sym a n), Han in Hgn.
  rewrite <- Hlen in Hga, Hgn.
  rewrite grad_of_set_grad_eq in Hga, Hgn
    by (rewrite length_app; simpl; lia).
  rewrite Gn in Hgn. simpl in Hga, Hgn.
  split.
  - rewrite Hga. unfold hc. now rewrite grad_of_old.
  - exact Hgn.
Qed.

Lemma two_store_built : built Example.runtime two_store.
Proof. apply run_built. simpl. repeat split; lia. Defined.

(** [Value(2.0) * 5.0], which is also [5.0 * Value(2.0)]. *)
Lemma number_factor_then_backward_witness :
  built Example.runtime two_store /\
  exists h1 h2,
    __mul__ Example.runtime 0 (Num 5) two_store = (h1, Ok 2) /\
    number_times Example.runtime 5 0 two_store = (h1, Ok 2) /\
    length h1 = 3 /\
    data_of h1 2 = (data_of two_store 0 * 5)%float /\
    backward Example.runtime 2 h1 = (h2, Ok tt) /\
    grad_of h2 0 = (grad_of two_store 0 + 5 * 1)%float /\
    grad_of h2 1 = (0 + data_of two_store 0 * 1)%float.
Proof.
  split; [exact two_store_built|].
  apply (@number_factor_then_backward Example.runtime two_store 0 5
           two_store_built); [simpl; lia|].
  apply power_free_defined. reflexivity.
Defined.

(** [Value(2.0) + 5.0], which is also [5.0 + Value(2.0)]. *)
Lemma number_term_then_backward_witness :
  built Example.runtime two_store /\
  exists h1 h2,
    __add__ Example.runtime 0 (Num 5) two_store = (h1, Ok 2) /\
    number_plus Example.runtime 5 0 two_store = (h1, Ok 2) /\
    length h1 = 3 /\
    data_of h1 2 = (data_of two_store 0 + 5)%float /\
    backward Example.runtime 2 h1 = (h2, Ok tt) /\
    grad_of h2 0 = (grad_of two_store 0 + 1)%float /\
    grad_of h2 1 = 1%float.
Proof.
  split; [exact two_store_built|].
  apply (@number_term_then_backward Example.runtime two_store 0 5
           two_store_built); [simpl; lia|].
  apply power_free_defined. reflexivity.
Defined.
